(** * clidle: the string-view library (sv.h) and the game (clidle.c)

    A shallow embedding of the parts of [sv.h] and [clidle.c] that score a
    guess, keep the alphabet colouring, drive the guess loop of [main] and
    cut the word lists into views, followed by the properties proved about
    them.

    Conventions of the embedding:
    - [size_t] values are integers in [0, 2^64); every [size_t] operation of
      the source that can wrap is written with [SizeT.add] / [SizeT.sub];
    - the mapped word lists are one read-only [memory], a list of bytes
      addressed from 0; a [const char *] into it is an address;
    - a read outside the memory, a write outside an array and a failed
      [assert] are errors of the [result] monad, as is running out of the
      fuel that bounds a loop;
    - a NUL-terminated string handed over by readline is the list of its
      characters before the terminator. *)

From Stdlib Require Import String.
From Stdlib Require Import ZArith List Ascii Bool Lia.
Import ListNotations.
Local Open Scope Z_scope.

(** ** Errors *)

Inductive error : Type :=
| OutOfBounds      (* read or write outside the object *)
| AssertionFailed  (* assert(...) aborted the program *)
| OutOfFuel.       (* the loop bound of the model was too small *)

Inductive result (A : Type) : Type :=
| Ok (a : A)
| Err (e : error).

Arguments Ok {A} a.
Arguments Err {A} e.

Definition bind {A B : Type} (r : result A) (k : A -> result B) : result B :=
  match r with
  | Ok a => k a
  | Err e => Err e
  end.

Notation "x <- r ;; k" := (bind r (fun x => k))
  (at level 61, r at next level, right associativity).

(** ** size_t *)

Module SizeT.

Definition modulus : Z := 2 ^ 64.

Definition SIZE_MAX : Z := modulus - 1.

Definition wrap (x : Z) : Z := x mod modulus.

Definition add (a b : Z) : Z := wrap (a + b).

Definition sub (a b : Z) : Z := wrap (a - b).

Definition in_range (x : Z) : Prop := 0 <= x < modulus.

End SizeT.

(** ** Memory and C strings *)

Definition memory : Type := list ascii.

(** [p[0]] for the address [a]. *)
Definition load (m : memory) (a : Z) : result ascii :=
  if a <? 0 then Err OutOfBounds
  else match nth_error m (Z.to_nat a) with
       | Some c => Ok c
       | None => Err OutOfBounds
       end.

Definition cstring : Type := list ascii.

Definition NUL : ascii := Ascii.zero.

Definition newline : ascii := ascii_of_nat 10.

Definition strlen (s : cstring) : Z := Z.of_nat (length s).

(** [s[i]]: a character of the string, its terminator at [strlen s]. *)
Definition cstr_at (s : cstring) (i : Z) : result ascii :=
  if i <? 0 then Err OutOfBounds
  else match nth_error s (Z.to_nat i) with
       | Some c => Ok c
       | None => if i =? strlen s then Ok NUL else Err OutOfBounds
       end.

(** [strcspn(s, "\n")]: the length of the prefix without a newline. *)
Fixpoint strcspn_nl (s : cstring) : Z :=
  match s with
  | [] => 0
  | c :: s' => if Ascii.eqb c newline then 0 else 1 + strcspn_nl s'
  end.

(** The string after [line[strcspn(line, "\n")] = '\0']. *)
Definition chomp (line : cstring) : cstring :=
  firstn (Z.to_nat (strcspn_nl line)) line.

(** [(int) c]. Where [char] is signed the bytes from 128 on are negative
    instead; with either reading they are no index of the alphabet, and
    the letters have the same codes. *)
Definition char_code (c : ascii) : Z := Z.of_nat (nat_of_ascii c).

(** ** sv.h *)

Module SV.

Definition SV_END_POS : Z := SizeT.SIZE_MAX.

(** The null pointer of [sv ret = {0}]. *)
Definition NULL : Z := 0.

Record sv : Type := { len : Z; ptr : Z }.

Definition sv_from_data (str : Z) (n : Z) : sv := {| len := n; ptr := str |}.

(** The view lies in the memory: its [len] bytes from [ptr] on exist. *)
Definition sv_ok (m : memory) (s : sv) : Prop :=
  0 <= ptr s /\ 0 <= len s /\ ptr s + len s <= Z.of_nat (length m).

(** The bytes a view points to. *)
Definition view (m : memory) (s : sv) : list ascii :=
  firstn (Z.to_nat (len s)) (skipn (Z.to_nat (ptr s)) m).

(** The addresses of [inner] all belong to [outer]. *)
Definition within (inner outer : sv) : Prop :=
  len inner = 0 \/
  (ptr outer <= ptr inner /\ ptr inner + len inner <= ptr outer + len outer).

Definition sv_substr (beg n : Z) (in_ : sv) : sv :=
  let ret := {| len := 0; ptr := NULL |} in
  if (n =? 0) || (beg >? len in_) then ret
  else
    let n' :=
      if (n =? SV_END_POS) || (SizeT.add beg n >? len in_)
      then SizeT.sub (len in_) beg
      else n in
    {| len := n'; ptr := ptr in_ + beg |}.

(** [for (j = i; j < in->len && in->ptr[j] == delim; j++) ;]
    returns the final [j]. *)
Fixpoint delim_run (fuel : nat) (m : memory) (delim : ascii) (in_ : sv)
         (j : Z) : result Z :=
  match fuel with
  | O => Err OutOfFuel
  | S fuel' =>
      if j <? len in_ then
        c <- load m (ptr in_ + j) ;;
        if Ascii.eqb c delim
        then delim_run fuel' m delim in_ (SizeT.add j 1)
        else Ok j
      else Ok j
  end.

(** The outer loop of [sv_chop_delim]: [None] when [found] stays false,
    [Some (out_len, j)] with [j] already reduced by [i] otherwise. *)
Fixpoint chop_scan (fuel : nat) (m : memory) (delim : ascii) (in_ : sv)
         (i : Z) : result (option (Z * Z)) :=
  match fuel with
  | O => Err OutOfFuel
  | S fuel' =>
      if i <? len in_ then
        c <- load m (ptr in_ + i) ;;
        if Ascii.eqb c delim then
          j <- delim_run (S (Z.to_nat (len in_))) m delim in_ i ;;
          Ok (Some (i, SizeT.sub j i))
        else chop_scan fuel' m delim in_ (SizeT.add i 1)
      else Ok None
  end.

(** Returns the boolean, the new [*in] and the new [*out]. *)
Definition sv_chop_delim (m : memory) (delim : ascii) (in_ out : sv)
  : result (bool * sv * sv) :=
  if len in_ =? 0 then Ok (false, in_, out)
  else
    r <- chop_scan (S (Z.to_nat (len in_))) m delim in_ 0 ;;
    match r with
    | None =>
        Ok (true,
            {| len := 0; ptr := ptr in_ |},
            {| len := len in_; ptr := ptr in_ |})
    | Some (out_len, j) =>
        Ok (true,
            {| len := SizeT.sub (len in_) (SizeT.add out_len j);
               ptr := ptr in_ + SizeT.add out_len j |},
            {| len := out_len; ptr := ptr in_ |})
    end.

(** The loop of [sv_last_idx], with the list of the indices [i] at which
    [sv.ptr[i]] was read, in the order of the reads. *)
Fixpoint last_idx_loop (fuel : nat) (m : memory) (c : ascii) (s : sv)
         (i : Z) (seen : list Z) : result (Z * list Z) :=
  match fuel with
  | O => Err OutOfFuel
  | S fuel' =>
      if i <? len s then
        b <- load m (ptr s + i) ;;
        if Ascii.eqb b c then Ok (i, seen ++ [i])
        else last_idx_loop fuel' m c s (SizeT.sub i 1) (seen ++ [i])
      else Ok (SV_END_POS, seen)
  end.

Definition sv_last_idx (m : memory) (c : ascii) (s : sv)
  : result (Z * list Z) :=
  last_idx_loop (S (Z.to_nat (len s))) m c s (SizeT.sub (len s) 1) [].

(** The [n] bytes at [a], as [memcmp] reads them. *)
Fixpoint load_range (m : memory) (a : Z) (n : nat) : result (list ascii) :=
  match n with
  | O => Ok []
  | S n' =>
      c <- load m a ;;
      cs <- load_range m (a + 1) n' ;;
      Ok (c :: cs)
  end.

Fixpoint bytes_eqb (xs ys : list ascii) : bool :=
  match xs, ys with
  | [], [] => true
  | x :: xs', y :: ys' => Ascii.eqb x y && bytes_eqb xs' ys'
  | _, _ => false
  end.

(** [cstr] is a buffer outside the mapped files, so the shortcut
    [sv.ptr == cstr] is never taken. *)
Definition sv_cstr_eq (m : memory) (s : sv) (cstr : cstring) : result bool :=
  let cstr_len := strlen cstr in
  if negb (len s =? cstr_len) then Ok false
  else
    bs <- load_range m (ptr s) (Z.to_nat (len s)) ;;
    Ok (bytes_eqb bs cstr).

(** [printf("%.*s", (int) s.len, s.ptr)]: at most [n] bytes, up to a NUL. *)
Fixpoint printf_sv (m : memory) (a : Z) (n : nat) : result (list ascii) :=
  match n with
  | O => Ok []
  | S n' =>
      c <- load m a ;;
      if Ascii.eqb c NUL then Ok []
      else cs <- printf_sv m (a + 1) n' ;; Ok (c :: cs)
  end.

(** *** The other operations of sv.h *)

Definition sv_chopl (n : Z) (s : sv) : sv :=
  if n =? 0 then s
  else if n >=? len s then {| len := 0; ptr := ptr s |}
  else {| len := SizeT.sub (len s) n; ptr := ptr s + n |}.

Definition sv_chopr (n : Z) (s : sv) : sv :=
  if n =? 0 then s
  else if n >=? len s then {| len := 0; ptr := ptr s |}
  else {| len := SizeT.sub (len s) n; ptr := ptr s |}.

(** The loop of [sv_idx]. *)
Fixpoint idx_loop (fuel : nat) (m : memory) (c : ascii) (s : sv) (i : Z)
  : result Z :=
  match fuel with
  | O => Err OutOfFuel
  | S fuel' =>
      if i <? len s then
        b <- load m (ptr s + i) ;;
        if Ascii.eqb b c then Ok i
        else idx_loop fuel' m c s (SizeT.add i 1)
      else Ok SV_END_POS
  end.

Definition sv_idx (m : memory) (c : ascii) (s : sv) : result Z :=
  idx_loop (S (Z.to_nat (len s))) m c s 0.

(** [memcmp(a, b, n) == 0]; both objects are read over their [n] bytes. *)
Definition memcmp_eq (m : memory) (a b : Z) (n : nat) : result bool :=
  xs <- load_range m a n ;;
  ys <- load_range m b n ;;
  Ok (bytes_eqb xs ys).

(** The loop of [sv_idx_long]. *)
Fixpoint idx_long_loop (fuel : nat) (m : memory) (search s : sv) (i : Z)
  : result Z :=
  match fuel with
  | O => Err OutOfFuel
  | S fuel' =>
      if i <? SizeT.add (SizeT.sub (len s) (len search)) 1 then
        a <- load m (ptr s + i) ;;
        b <- load m (ptr search + 0) ;;
        if Ascii.eqb a b then
          e <- memcmp_eq m (ptr s + i) (ptr search) (Z.to_nat (len search)) ;;
          if e then Ok i
          else idx_long_loop fuel' m search s (SizeT.add i 1)
        else idx_long_loop fuel' m search s (SizeT.add i 1)
      else Ok SV_END_POS
  end.

Definition sv_idx_long (m : memory) (search s : sv) : result Z :=
  if (len search =? 0) || (len search >? len s) then Ok SV_END_POS
  else idx_long_loop (S (Z.to_nat (len s))) m search s 0.

(** The loop of [sv_last_idx_long]; [i] wraps below 0. *)
Fixpoint last_idx_long_loop (fuel : nat) (m : memory) (search s : sv) (i : Z)
  : result Z :=
  match fuel with
  | O => Err OutOfFuel
  | S fuel' =>
      if i <? len s then
        a <- load m (ptr s + i) ;;
        b <- load m (ptr search + 0) ;;
        if Ascii.eqb a b then
          e <- memcmp_eq m (ptr s + i) (ptr search) (Z.to_nat (len search)) ;;
          if e then Ok i
          else last_idx_long_loop fuel' m search s (SizeT.sub i 1)
        else last_idx_long_loop fuel' m search s (SizeT.sub i 1)
      else Ok SV_END_POS
  end.

Definition sv_last_idx_long (m : memory) (search s : sv) : result Z :=
  if (len search =? 0) || (len search >? len s) then Ok SV_END_POS
  else last_idx_long_loop (S (Z.to_nat (len s))) m search s
                          (SizeT.sub (len s) (len search)).

Definition sv_eq (m : memory) (s1 s2 : sv) : result bool :=
  if negb (len s1 =? len s2) then Ok false
  else if ptr s1 =? ptr s2 then Ok true
  else memcmp_eq m (ptr s1) (ptr s2) (Z.to_nat (len s1)).

Definition sv_starts_with (m : memory) (start s : sv) : result bool :=
  if len start >? len s then Ok false
  else sv_eq m start (sv_from_data (ptr s) (len start)).

Definition sv_ends_with (m : memory) (end_ s : sv) : result bool :=
  if len end_ >? len s then Ok false
  else sv_eq m end_ (sv_from_data (ptr s + len s - len end_) (len end_)).

(** [buf[i] = c] for a caller's buffer held as the list of its bytes. *)
Fixpoint poke (buf : list ascii) (i : nat) (c : ascii) : result (list ascii) :=
  match buf, i with
  | [], _ => Err OutOfBounds
  | _ :: buf', O => Ok (c :: buf')
  | x :: buf', S i' => buf'' <- poke buf' i' c ;; Ok (x :: buf'')
  end.

(** [memcpy(buf + i, xs, |xs|)] once the source bytes [xs] are read. *)
Fixpoint poke_range (buf : list ascii) (i : nat) (xs : list ascii)
  : result (list ascii) :=
  match xs with
  | [] => Ok buf
  | x :: xs' => buf' <- poke buf i x ;; poke_range buf' (S i) xs'
  end.

(** [sv_to_cstr]: the contents of the caller's buffer afterwards. *)
Definition sv_to_cstr (m : memory) (s : sv) (buf : list ascii) (buflen : Z)
  : result (list ascii) :=
  let n := if len s >=? buflen then SizeT.sub buflen 1 else len s in
  xs <- load_range m (ptr s) (Z.to_nat n) ;;
  buf' <- poke_range buf 0 xs ;;
  poke buf' (Z.to_nat n) NUL.

(** [strlen(str)] for a string that lies in the memory at [str]. *)
Fixpoint strlen_from (fuel : nat) (m : memory) (str : Z) (n : Z) : result Z :=
  match fuel with
  | O => Err OutOfFuel
  | S fuel' =>
      c <- load m (str + n) ;;
      if Ascii.eqb c NUL then Ok n else strlen_from fuel' m str (n + 1)
  end.

Definition mem_strlen (m : memory) (str : Z) : result Z :=
  strlen_from (S (length m)) m str 0.

Definition sv_from_cstr (m : memory) (str : Z) : result sv :=
  n <- mem_strlen m str ;;
  Ok {| len := n; ptr := str |}.

Definition sv_from_sub_cstr (m : memory) (beg n : Z) (str : Z) : result sv :=
  let ret := {| len := 0; ptr := NULL |} in
  str_len <- mem_strlen m str ;;
  if (n =? 0) || (beg >=? str_len) then Ok ret
  else
    let n' :=
      if (n =? SV_END_POS) || (SizeT.add beg n >? str_len)
      then SizeT.sub str_len beg
      else n in
    Ok {| len := n'; ptr := str + beg |}.

End SV.

(** ** clidle.c *)

Module Clidle.

Import SV.

Definition GUESSES : Z := 6.
Definition LETTERS : Z := 5.
Definition ALPHABET_SZ : Z := 26.
Definition ASCII_A : Z := 97. (* 0x61 *)

Inductive GuessQuality : Type :=
| RightPlace
| WrongPlace
| Wrong
| Unknown.

Definition quality_eqb (a b : GuessQuality) : bool :=
  match a, b with
  | RightPlace, RightPlace | WrongPlace, WrongPlace
  | Wrong, Wrong | Unknown, Unknown => true
  | _, _ => false
  end.

Record CharInfo : Type := { chr : ascii; quality : GuessQuality }.

(** [a[idx]] and [a[idx] = v] for an array held as a list. *)
Definition array_get {A : Type} (a : list A) (idx : Z) : result A :=
  if idx <? 0 then Err OutOfBounds
  else match nth_error a (Z.to_nat idx) with
       | Some v => Ok v
       | None => Err OutOfBounds
       end.

Fixpoint set_nth {A : Type} (n : nat) (v : A) (a : list A) : list A :=
  match a, n with
  | [], _ => []
  | _ :: a', O => v :: a'
  | x :: a', S n' => x :: set_nth n' v a'
  end.

Definition array_set {A : Type} (a : list A) (idx : Z) (v : A)
  : result (list A) :=
  if (idx <? 0) || (Z.of_nat (length a) <=? idx) then Err OutOfBounds
  else Ok (set_nth (Z.to_nat idx) v a).

(** The alphabet after [init_alphabet]. *)
Definition init_alphabet : list CharInfo :=
  map (fun c => {| chr := ascii_of_nat (c + Z.to_nat ASCII_A);
                   quality := Unknown |})
      (seq 0 (Z.to_nat ALPHABET_SZ)).

(** The globals of clidle.c that the guess loop reads but never writes. *)
Record globals : Type := {
  mem : memory;        (* the two mapped word lists *)
  words : list sv;     (* words.array[0 .. words.len) *)
  solution : sv
}.

Fixpoint valid_loop (m : memory) (ws : list sv) (word : cstring)
  : result bool :=
  match ws with
  | [] => Ok false
  | w :: ws' =>
      e <- sv_cstr_eq m w word ;;
      if e then Ok true else valid_loop m ws' word
  end.

Definition valid (g : globals) (word : cstring) : result bool :=
  valid_loop (mem g) (words g) word.

(** [for (i = 0; i < LETTERS; i++)] of [qualify_guess]. *)
Fixpoint qualify_loop (fuel : nat) (g : globals) (guess : cstring)
         (c : ascii) (i : Z) : result GuessQuality :=
  match fuel with
  | O => Err OutOfFuel
  | S fuel' =>
      if i <? LETTERS then
        s <- load (mem g) (ptr (solution g) + i) ;;
        if Ascii.eqb s c then
          gi <- cstr_at guess i ;;
          if negb (Ascii.eqb gi c) then Ok WrongPlace
          else qualify_loop fuel' g guess c (i + 1)
        else qualify_loop fuel' g guess c (i + 1)
      else Ok Wrong
  end.

Definition qualify_guess (g : globals) (guess : cstring) (index : Z)
  : result GuessQuality :=
  c <- cstr_at guess index ;;
  s <- load (mem g) (ptr (solution g) + index) ;;
  if Ascii.eqb s c then Ok RightPlace
  else qualify_loop (S (Z.to_nat LETTERS)) g guess c 0.

Definition overrides (orig new : GuessQuality) : result bool :=
  if quality_eqb new Unknown then Err AssertionFailed
  else if quality_eqb orig RightPlace then Ok false
  else if quality_eqb orig Unknown || quality_eqb orig Wrong then Ok true
  else if quality_eqb orig WrongPlace && quality_eqb new RightPlace
       then Ok true
  else Ok false.

(** The body of the loop of [color_word_and_update_alphabet] after the
    character is printed: the update of [alphabet[letter - ASCII_A]]. *)
Definition update (alphabet : list CharInfo) (letter : ascii)
           (q : GuessQuality) : result (list CharInfo) :=
  let idx := char_code letter - ASCII_A in
  cur <- array_get alphabet idx ;;
  o <- overrides (quality cur) q ;;
  if o then array_set alphabet idx {| chr := chr cur; quality := q |}
  else Ok alphabet.

(** The loop of [color_word_and_update_alphabet]; [printed] collects the
    arguments of [print_qualified_char]. *)
Fixpoint color_loop (fuel : nat) (g : globals) (guess : cstring)
         (alphabet : list CharInfo) (i : Z)
         (printed : list (ascii * GuessQuality))
  : result (list CharInfo * list (ascii * GuessQuality)) :=
  match fuel with
  | O => Err OutOfFuel
  | S fuel' =>
      if i <? LETTERS then
        q <- qualify_guess g guess i ;;
        gi <- cstr_at guess i ;;
        alphabet' <- update alphabet gi q ;;
        color_loop fuel' g guess alphabet' (i + 1) (printed ++ [(gi, q)])
      else Ok (alphabet, printed)
  end.

Definition color_word_and_update_alphabet (g : globals) (guess : cstring)
           (alphabet : list CharInfo)
  : result (list CharInfo * list (ascii * GuessQuality)) :=
  color_loop (S (Z.to_nat LETTERS)) g guess alphabet 0 [].

Definition check_correct (g : globals) (guess : cstring) : result bool :=
  sv_cstr_eq (mem g) (solution g) guess.

(** *** The guess loop of [main] *)

(** What [main] writes to the terminal. *)
Inductive event : Type :=
| EvAlphabet (a : list CharInfo)                 (* reprint_alphabet *)
| EvMisinput (msg : string)                      (* misinput(msg) *)
| EvGuess (cs : list (ascii * GuessQuality))     (* the coloured guess *)
| EvSolution (w : list ascii).                   (* "The word was: ..." *)

(** The variables the loop writes: its counter [i] and the globals
    [alphabet] and [y]. Both integers stay between -1 and 9, so [int]
    arithmetic never wraps. *)
Record state : Type := {
  st_i : Z;
  st_alphabet : list CharInfo;
  st_y : Z
}.

Definition initial : state :=
  {| st_i := 0; st_alphabet := init_alphabet; st_y := 3 |}.

Inductive status : Type :=
| Playing (attempt : Z)   (* waiting in readline with [i = attempt] *)
| Won                     (* returned after check_correct *)
| Lost                    (* left the loop and printed the solution *)
| EndOfInput.             (* readline returned NULL *)

Inductive control : Type :=
| Return (s : status)     (* [return 0] inside the loop *)
| Next.                   (* reached the [i++] of the [for] *)

Definition set_i (st : state) (i : Z) : state :=
  {| st_i := i; st_alphabet := st_alphabet st; st_y := st_y st |}.

(** One pass through the body of the [for] loop, from [readline] on;
    [line] is what readline returned, [None] for NULL. *)
Definition loop_body (g : globals) (st : state) (line : option cstring)
  : result (control * state * list event) :=
  match line with
  | None => Ok (Return EndOfInput, st, [])
  | Some line =>
      if strlen line =? 0 then Ok (Next, set_i st (st_i st - 1), [])
      else
        let line := chomp line in
        if negb (strlen line =? LETTERS) then
          Ok (Next, set_i st (st_i st - 1), [EvMisinput "Wrong length"])
        else
          v <- valid g line ;;
          if negb v then
            Ok (Next, set_i st (st_i st - 1),
                [EvMisinput "Not in word list"])
          else
            r <- color_word_and_update_alphabet g line (st_alphabet st) ;;
            let st' := {| st_i := st_i st;
                          st_alphabet := fst r;
                          st_y := st_y st |} in
            c <- check_correct g line ;;
            if c then Ok (Return Won, st', [EvGuess (snd r)])
            else
              Ok (Next,
                  {| st_i := st_i st';
                     st_alphabet := st_alphabet st';
                     st_y := st_y st' + 1 |},
                  [EvGuess (snd r)])
  end.

(** [for (int i = 0; i < GUESSES; i++) { reprint_alphabet(); ... }]
    followed by the final [printf], run on the lines readline delivers.
    When the lines are used up the program waits in readline. *)
Fixpoint main_loop (g : globals) (st : state) (input : list (option cstring))
         (out : list event) : result (status * state * list event) :=
  if st_i st <? GUESSES then
    let out := out ++ [EvAlphabet (st_alphabet st)] in
    match input with
    | [] => Ok (Playing (st_i st), st, out)
    | line :: rest =>
        r <- loop_body g st line ;;
        match r with
        | (Return s, st', evs) => Ok (s, st', out ++ evs)
        | (Next, st', evs) =>
            main_loop g (set_i st' (st_i st' + 1)) rest (out ++ evs)
        end
    end
  else
    w <- printf_sv (mem g) (ptr (solution g))
                   (Z.to_nat (len (solution g))) ;;
    Ok (Lost, st, out ++ [EvSolution w]).

Definition main (g : globals) (input : list (option cstring))
  : result (status * state * list event) :=
  main_loop g initial input [].

(** The loop [while (sv_chop_delim('\n', &file, &buf)) words[i++] = buf;]
    of [init_words] and [choose_solution]: the views stored, in order. *)
Fixpoint chop_loop (fuel : nat) (m : memory) (delim : ascii)
         (file buf : sv) : result (list sv) :=
  match fuel with
  | O => Err OutOfFuel
  | S fuel' =>
      r <- sv_chop_delim m delim file buf ;;
      match r with
      | (true, file', buf') =>
          ws <- chop_loop fuel' m delim file' buf' ;;
          Ok (buf' :: ws)
      | (false, _, _) => Ok []
      end
  end.

(** *** Reading the word lists *)

(** The loop of [count_lines]. *)
Fixpoint count_lines_loop (fuel : nat) (m : memory) (file : sv) (i ret : Z)
  : result Z :=
  match fuel with
  | O => Err OutOfFuel
  | S fuel' =>
      if i <? len file then
        c <- load m (ptr file + i) ;;
        count_lines_loop fuel' m file (SizeT.add i 1)
          (SizeT.add ret (if Ascii.eqb c newline then 1 else 0))
      else Ok ret
  end.

Definition count_lines (m : memory) (file : sv) : result Z :=
  count_lines_loop (S (Z.to_nat (len file))) m file 0 0.

(** [struct WordArray]: the array as [malloc] returned it, an entry being
    [None] until it is assigned, and the field [len]. [malloc] is taken to
    succeed and [lines * sizeof(sv)] not to wrap. *)
Record WordArray : Type := {
  array : list (option sv);
  array_len : Z
}.

(** [while (sv_chop_delim('\n', &file, &buf)) words[i++] = buf;] writing
    into the array [arr]. *)
Fixpoint store_loop (fuel : nat) (m : memory) (file buf : sv)
         (arr : list (option sv)) (i : Z) : result (list (option sv)) :=
  match fuel with
  | O => Err OutOfFuel
  | S fuel' =>
      r <- sv_chop_delim m newline file buf ;;
      match r with
      | (true, file', buf') =>
          arr' <- array_set arr i (Some buf') ;;
          store_loop fuel' m file' buf' arr' (SizeT.add i 1)
      | (false, _, _) => Ok arr
      end
  end.

(** [init_words] once the file is mapped: the value of [words]. *)
Definition init_words (m : memory) (file buf : sv) : result WordArray :=
  lines <- count_lines m file ;;
  arr <- store_loop (S (Z.to_nat (len file))) m file buf
                    (repeat None (Z.to_nat lines)) 0 ;;
  Ok {| array := arr; array_len := lines |}.

(** How [solution = words[rand() % lines]] can end. *)
Inductive chosen : Type :=
| Chosen (s : sv)
| Indeterminate      (* the entry read was never assigned *)
| DivisionByZero.    (* [lines] is 0 *)

(** [choose_solution] once the file is mapped; [r] is what [rand()]
    returns. *)
Definition choose_solution (m : memory) (file buf : sv) (r : Z)
  : result chosen :=
  lines <- count_lines m file ;;
  arr <- store_loop (S (Z.to_nat (len file))) m file buf
                    (repeat None (Z.to_nat lines)) 0 ;;
  if lines =? 0 then Ok DivisionByZero
  else
    e <- array_get arr (r mod lines) ;;
    match e with
    | Some s => Ok (Chosen s)
    | None => Ok Indeterminate
    end.

End Clidle.

(** * Vocabulary of the statements *)

Import SV Clidle.

Definition byte_at (l : list ascii) (k : Z) : ascii := nth (Z.to_nat k) l NUL.

(** The running example: solution "crane", guess "trace". *)
Definition crane : globals :=
  {| mem := list_ascii_of_string "crane";
     words := [];
     solution := {| len := 5; ptr := 0 |} |}.

Definition trace : cstring := list_ascii_of_string "trace".

Definition aborts {A : Type} (r : result A) : Prop := r = Err AssertionFailed.

(** The priority order of the qualities:
    Unknown < Wrong < WrongPlace < RightPlace. *)
Definition priority (q : GuessQuality) : nat :=
  match q with
  | Unknown => 0
  | Wrong => 1
  | WrongPlace => 2
  | RightPlace => 3
  end.

(** One of the 26 letters 'a' .. 'z'. *)
Definition is_letter (c : ascii) : Prop :=
  ASCII_A <= char_code c < ASCII_A + ALPHABET_SZ.

(** A sequence of alphabet updates, applied from left to right. *)
Fixpoint update_all (alphabet : list CharInfo)
         (us : list (ascii * GuessQuality)) : result (list CharInfo) :=
  match us with
  | [] => Ok alphabet
  | (letter, q) :: us' =>
      alphabet' <- update alphabet letter q ;;
      update_all alphabet' us'
  end.

(** The stored quality of every letter is kept or raised in priority. *)
Definition raised (before after : list CharInfo) : Prop :=
  forall (k : nat) (info : CharInfo),
    nth_error before k = Some info ->
    exists info',
      nth_error after k = Some info'
      /\ chr info' = chr info
      /\ (quality info' = quality info
          \/ (priority (quality info) < priority (quality info'))%nat).

(** The bytes of "cat\ndog\n\nbird" and of "\ncat". *)
Definition cat_dog_bird : memory :=
  list_ascii_of_string "cat" ++ [newline]
  ++ list_ascii_of_string "dog" ++ [newline; newline]
  ++ list_ascii_of_string "bird".

Definition nl_cat : memory := newline :: list_ascii_of_string "cat".

(** The view of a whole buffer. *)
Definition whole (m : memory) : sv := sv_from_data 0 (Z.of_nat (length m)).

(** The contents of [buf] before the first call; the loops leave it
    uninitialised. *)
Definition no_buf : sv := {| len := 0; ptr := NULL |}.

(** The assumption of the game about its two word lists: every word of
    [words] and the solution lie in the mapped memory and consist of
    lower-case letters, and the solution has [LETTERS] of them. *)
Definition corpus_ok (g : globals) : Prop :=
  Forall (fun w => sv_ok (mem g) w /\ Forall is_letter (view (mem g) w))
         (words g)
  /\ sv_ok (mem g) (solution g)
  /\ len (solution g) = LETTERS
  /\ Forall is_letter (view (mem g) (solution g)).

(** A valid guess that is not the solution. *)
Definition miss (g : globals) (line : cstring) : Prop :=
  strlen line = LETTERS
  /\ valid g line = Ok true
  /\ line <> view (mem g) (solution g).

Definition is_reveal (e : event) : bool :=
  match e with
  | EvSolution _ => true
  | _ => false
  end.

(** How many times the solution was printed. *)
Definition revealed (evs : list event) : nat :=
  length (filter is_reveal evs).

(** A word list with the two words "crane" and "trace"; the solution is
    "crane". *)
Definition crane_trace : globals :=
  {| mem := list_ascii_of_string "crane" ++ [newline]
            ++ list_ascii_of_string "trace" ++ [newline];
     words := [{| len := 5; ptr := 0 |}; {| len := 5; ptr := 6 |}];
     solution := {| len := 5; ptr := 0 |} |}.

(** The view "hello world" used in the examples of sv.h. *)
Definition hello_world : memory := list_ascii_of_string "hello world".

(** [search] occurs in [s] at index [i]. *)
Definition match_at (m : memory) (search s : sv) (i : Z) : Prop :=
  0 <= i /\ i + len search <= len s
  /\ view m {| len := len search; ptr := ptr s + i |} = view m search.

(** The bytes of a word list with the lines [ws], each ended by a
    newline. *)
Definition file_of_lines (ws : list (list ascii)) : list ascii :=
  concat (map (fun w => w ++ [newline]) ws).

(** A line of a word list: not empty and without a newline. *)
Definition line_ok (w : list ascii) : Prop := w <> [] /\ ~ In newline w.

(** A memory that holds the C string "hello", its terminator and two more
    bytes. *)
Definition hello_cstr : memory :=
  list_ascii_of_string "hello" ++ [NUL] ++ list_ascii_of_string "xx".

(** The number of newline bytes of a buffer. *)
Definition newlines (l : list ascii) : nat := count_occ ascii_dec l newline.

(** A word list of two lines, and the same without its last newline. *)
Definition two_lines : memory :=
  file_of_lines [list_ascii_of_string "crane"; list_ascii_of_string "trace"].

Definition two_lines_cut : memory :=
  file_of_lines [list_ascii_of_string "crane"]
  ++ list_ascii_of_string "trace".

(** The index of a letter in the alphabet array. *)
Definition letter_index (c : ascii) : nat := Z.to_nat (char_code c - ASCII_A).

Definition is_guess (e : event) : bool :=
  match e with
  | EvGuess _ => true
  | _ => false
  end.

(** How many guesses were coloured. *)
Definition coloured (evs : list event) : nat := length (filter is_guess evs).

(** * Properties *)

(** ** Reading through a view *)

Lemma bind_ok {A B : Type} (r : result A) (k : A -> result B) (b : B) :
  bind r k = Ok b -> exists a, r = Ok a /\ k a = Ok b.
Proof.
  destruct r as [a|e]; simpl; intros H; [exists a; auto | discriminate].
Qed.

Lemma view_length (m : memory) (s : sv) :
  sv_ok m s -> length (view m s) = Z.to_nat (len s).
Proof.
  intros (Hp & Hl & Hb). unfold view.
  rewrite length_firstn, length_skipn. lia.
Qed.

Lemma view_nth_error (m : memory) (s : sv) (i : Z) :
  0 <= ptr s -> 0 <= i < len s ->
  nth_error (view m s) (Z.to_nat i) = nth_error m (Z.to_nat (ptr s + i)).
Proof.
  intros Hp Hi. unfold view.
  rewrite nth_error_firstn.
  destruct (Nat.ltb_spec (Z.to_nat i) (Z.to_nat (len s))) as [_|Hge]; [|lia].
  rewrite nth_error_skipn. f_equal. lia.
Qed.

Lemma load_view (m : memory) (s : sv) (i : Z) :
  sv_ok m s -> 0 <= i < len s ->
  load m (ptr s + i) = Ok (byte_at (view m s) i).
Proof.
  intros Hok Hi. pose proof (view_length m s Hok) as Hlen.
  destruct Hok as (Hp & Hl & Hb).
  unfold load, byte_at.
  destruct (Z.ltb_spec (ptr s + i) 0) as [Hneg|_]; [lia|].
  rewrite <- view_nth_error by assumption.
  destruct (nth_error (view m s) (Z.to_nat i)) as [c|] eqn:E.
  - now rewrite (nth_error_nth _ _ NUL E).
  - apply nth_error_None in E. lia.
Qed.

Lemma cstr_at_in (s : cstring) (i : Z) :
  0 <= i < strlen s -> cstr_at s i = Ok (byte_at s i).
Proof.
  unfold strlen, cstr_at, byte_at. intros Hi.
  destruct (Z.ltb_spec i 0) as [Hneg|_]; [lia|].
  destruct (nth_error s (Z.to_nat i)) as [c|] eqn:E.
  - now rewrite (nth_error_nth _ _ NUL E).
  - apply nth_error_None in E. lia.
Qed.

(** ** qualify_guess *)

Section Qualify.

Variable g : globals.
Variable guess : cstring.

Hypothesis solution_ok : sv_ok (mem g) (solution g).
Hypothesis solution_len : len (solution g) = LETTERS.
Hypothesis guess_len : strlen guess = LETTERS.

Let sol : list ascii := view (mem g) (solution g).

Lemma qualify_loop_hit (c : ascii) (fuel : nat) (i : Z) :
  0 <= i ->
  (Z.to_nat (LETTERS - i) < fuel)%nat ->
  (exists j, i <= j < LETTERS /\ byte_at sol j = c /\ byte_at guess j <> c) ->
  qualify_loop fuel g guess c i = Ok WrongPlace.
Proof.
  revert i. induction fuel as [|fuel IH]; intros i Hi Hfuel (j & Hj & Hs & Hg);
    [lia|].
  simpl. destruct (Z.ltb_spec i LETTERS) as [Hlt|Hge]; [|lia].
  rewrite load_view by (rewrite ?solution_len; auto; lia). simpl.
  fold sol.
  assert (Hrec : qualify_loop fuel g guess c (i + 1) = Ok WrongPlace
                 \/ i = j).
  { destruct (Z.eq_dec i j) as [->|Hne]; [now right|left].
    apply IH; [lia|lia|]. exists j. repeat split; auto; lia. }
  destruct (Ascii.eqb_spec (byte_at sol i) c) as [Hsc|Hsc].
  - rewrite cstr_at_in by lia. simpl.
    destruct (Ascii.eqb_spec (byte_at guess i) c) as [Hgc|Hgc]; simpl; auto.
    destruct Hrec as [Hrec| ->]; [exact Hrec | contradiction].
  - destruct Hrec as [Hrec| ->]; [exact Hrec | contradiction].
Qed.

Lemma qualify_loop_miss (c : ascii) (fuel : nat) (i : Z) :
  0 <= i ->
  (Z.to_nat (LETTERS - i) < fuel)%nat ->
  (forall j, i <= j < LETTERS -> byte_at sol j = c -> byte_at guess j = c) ->
  qualify_loop fuel g guess c i = Ok Wrong.
Proof.
  revert i. induction fuel as [|fuel IH]; intros i Hi Hfuel Hall; [lia|].
  simpl. destruct (Z.ltb_spec i LETTERS) as [Hlt|Hge]; [|reflexivity].
  rewrite load_view by (rewrite ?solution_len; auto; lia). simpl.
  fold sol.
  assert (Hrec : qualify_loop fuel g guess c (i + 1) = Ok Wrong).
  { apply IH; [lia|lia|]. intros j Hj. apply Hall. lia. }
  destruct (Ascii.eqb_spec (byte_at sol i) c) as [Hsc|Hsc]; auto.
  rewrite cstr_at_in by lia. simpl.
  rewrite (Hall i) by (auto; lia). now rewrite Ascii.eqb_refl.
Qed.

Lemma qualify_guess_cases (p : Z) :
  0 <= p < LETTERS ->
  (byte_at guess p = byte_at sol p ->
   qualify_guess g guess p = Ok RightPlace)
  /\ (byte_at guess p <> byte_at sol p ->
      (exists j, 0 <= j < LETTERS /\ byte_at sol j = byte_at guess p
                 /\ byte_at guess j <> byte_at sol j) ->
      qualify_guess g guess p = Ok WrongPlace)
  /\ (byte_at guess p <> byte_at sol p ->
      ~ (exists j, 0 <= j < LETTERS /\ byte_at sol j = byte_at guess p
                   /\ byte_at guess j <> byte_at sol j) ->
      qualify_guess g guess p = Ok Wrong).
Proof.
  intros Hp. unfold qualify_guess.
  rewrite cstr_at_in by lia. cbn [bind].
  rewrite load_view by (rewrite ?solution_len; auto). cbn [bind]. fold sol.
  destruct (Ascii.eqb_spec (byte_at sol p) (byte_at guess p)) as [E|E].
  - repeat split; auto; intros Hne; now rewrite E in Hne.
  - repeat split.
    + intros E'. now rewrite E' in E.
    + intros _ (j & Hj & Hs & Hg).
      apply qualify_loop_hit; [lia|unfold LETTERS; simpl; lia|].
      exists j. repeat split; auto; try lia. now rewrite <- Hs.
    + intros _ Hno.
      apply qualify_loop_miss; [lia|unfold LETTERS; simpl; lia|].
      intros j Hj Hs.
      destruct (ascii_dec (byte_at guess j) (byte_at guess p)) as [Hd|Hd];
        auto.
      exfalso. apply Hno. exists j. repeat split; auto; try lia.
      now rewrite Hs.
Qed.

End Qualify.

(** C1. For a solution view and a guess of five letters each and a position
    [p] in 0..4, [qualify_guess] returns RightPlace when the guess has the
    solution's letter at [p]; otherwise WrongPlace when some index [j] of
    the solution holds the guessed letter while the guess differs from the
    solution at [j]; otherwise Wrong. *)
Theorem qualify_guess_spec (g : globals) (guess : cstring) (p : Z) :
  sv_ok (mem g) (solution g) ->
  len (solution g) = 5 ->
  strlen guess = 5 ->
  0 <= p <= 4 ->
  let sol := view (mem g) (solution g) in
  (byte_at guess p = byte_at sol p ->
   qualify_guess g guess p = Ok RightPlace)
  /\ (byte_at guess p <> byte_at sol p ->
      (exists j, 0 <= j <= 4 /\ byte_at sol j = byte_at guess p
                 /\ byte_at guess j <> byte_at sol j) ->
      qualify_guess g guess p = Ok WrongPlace)
  /\ (byte_at guess p <> byte_at sol p ->
      ~ (exists j, 0 <= j <= 4 /\ byte_at sol j = byte_at guess p
                   /\ byte_at guess j <> byte_at sol j) ->
      qualify_guess g guess p = Ok Wrong).
Proof.
  intros Hok Hlen Hg Hp sol.
  assert (Hp' : 0 <= p < LETTERS) by (unfold LETTERS; lia).
  destruct (qualify_guess_cases g guess Hok Hlen Hg p Hp') as (H1 & H2 & H3).
  repeat split.
  - exact H1.
  - intros Hne (j & Hj & Hrest). apply H2; auto.
    exists j. split; [unfold LETTERS; lia | exact Hrest].
  - intros Hne Hno. apply H3; auto.
    intros (j & Hj & Hrest). apply Hno.
    exists j. split; [unfold LETTERS in Hj; lia | exact Hrest].
Qed.

Lemma qualify_guess_spec_witness :
  let sol := view (mem crane) (solution crane) in
  (byte_at trace 3 = byte_at sol 3 ->
   qualify_guess crane trace 3 = Ok RightPlace)
  /\ (byte_at trace 3 <> byte_at sol 3 ->
      (exists j, 0 <= j <= 4 /\ byte_at sol j = byte_at trace 3
                 /\ byte_at trace j <> byte_at sol j) ->
      qualify_guess crane trace 3 = Ok WrongPlace)
  /\ (byte_at trace 3 <> byte_at sol 3 ->
      ~ (exists j, 0 <= j <= 4 /\ byte_at sol j = byte_at trace 3
                   /\ byte_at trace j <> byte_at sol j) ->
      qualify_guess crane trace 3 = Ok Wrong).
Proof.
  apply (qualify_guess_spec crane trace 3).
  - unfold sv_ok; simpl; lia.
  - reflexivity.
  - reflexivity.
  - lia.
Defined.

(** The scenario of the specification: "trace" against "crane". *)
Example qualify_trace_crane :
  map (qualify_guess crane trace) [0; 1; 2; 3; 4]
  = [Ok Wrong; Ok RightPlace; Ok RightPlace; Ok WrongPlace; Ok RightPlace].
Proof. reflexivity. Qed.

(** A letter that occurs once in the solution is WrongPlace at two
    positions of one guess: there is no budget of occurrences. *)
Example qualify_no_budget :
  map (qualify_guess crane (list_ascii_of_string "elder")) [0; 1; 2; 3; 4]
  = [Ok WrongPlace; Ok Wrong; Ok Wrong; Ok WrongPlace; Ok WrongPlace].
Proof. reflexivity. Qed.

(** ** overrides *)

(** C2. The decision table of [overrides] for a determined proposal:
    RightPlace is never overridden; Unknown and Wrong always are;
    WrongPlace is overridden by RightPlace only. *)
Theorem overrides_table (proposed : GuessQuality) :
  proposed <> Unknown ->
  overrides RightPlace proposed = Ok false
  /\ overrides Unknown proposed = Ok true
  /\ overrides Wrong proposed = Ok true
  /\ overrides WrongPlace RightPlace = Ok true
  /\ overrides WrongPlace WrongPlace = Ok false
  /\ overrides WrongPlace Wrong = Ok false.
Proof.
  intros Hdet. destruct proposed; try contradiction; repeat split.
Qed.

Lemma overrides_table_witness :
  overrides RightPlace WrongPlace = Ok false
  /\ overrides Unknown WrongPlace = Ok true
  /\ overrides Wrong WrongPlace = Ok true
  /\ overrides WrongPlace RightPlace = Ok true
  /\ overrides WrongPlace WrongPlace = Ok false
  /\ overrides WrongPlace Wrong = Ok false.
Proof.
  apply (overrides_table WrongPlace). discriminate.
Defined.

Lemma overrides_undetermined (orig : GuessQuality) :
  overrides orig Unknown = Err AssertionFailed.
Proof. reflexivity. Qed.

Lemma overrides_determined (orig new : GuessQuality) :
  new <> Unknown -> exists b, overrides orig new = Ok b.
Proof.
  intros Hdet. destruct orig, new; try contradiction; eexists; reflexivity.
Qed.

(** ** No failed assertion while a guess is scored *)

Lemma bind_aborts {A B : Type} (r : result A) (k : A -> result B) :
  aborts (bind r k) -> aborts r \/ exists a, r = Ok a /\ aborts (k a).
Proof.
  unfold aborts. destruct r as [a|e]; simpl; intros H; [right; eauto|].
  left. congruence.
Qed.

Lemma load_no_abort (m : memory) (a : Z) : ~ aborts (load m a).
Proof.
  unfold aborts, load. destruct (a <? 0); [discriminate|].
  destruct (nth_error m (Z.to_nat a)); discriminate.
Qed.

Lemma cstr_at_no_abort (s : cstring) (i : Z) : ~ aborts (cstr_at s i).
Proof.
  unfold aborts, cstr_at. destruct (i <? 0); [discriminate|].
  destruct (nth_error s (Z.to_nat i)); [discriminate|].
  destruct (i =? strlen s); discriminate.
Qed.

Lemma array_get_no_abort {A : Type} (a : list A) (idx : Z) :
  ~ aborts (array_get a idx).
Proof.
  unfold aborts, array_get. destruct (idx <? 0); [discriminate|].
  destruct (nth_error a (Z.to_nat idx)); discriminate.
Qed.

Lemma array_set_no_abort {A : Type} (a : list A) (idx : Z) (v : A) :
  ~ aborts (array_set a idx v).
Proof.
  unfold aborts, array_set.
  destruct ((idx <? 0) || (Z.of_nat (length a) <=? idx)); discriminate.
Qed.

Lemma qualify_loop_no_abort (g : globals) (guess : cstring) (c : ascii)
      (fuel : nat) (i : Z) :
  ~ aborts (qualify_loop fuel g guess c i).
Proof.
  revert i. induction fuel as [|fuel IH]; intros i Hab; simpl in Hab.
  - discriminate.
  - destruct (i <? LETTERS); [|discriminate].
    apply bind_aborts in Hab as [Hab|(s & _ & Hab)];
      [now apply load_no_abort in Hab|].
    destruct (Ascii.eqb s c); [|now apply IH in Hab].
    apply bind_aborts in Hab as [Hab|(gi & _ & Hab)];
      [now apply cstr_at_no_abort in Hab|].
    destruct (negb (Ascii.eqb gi c)); [discriminate | now apply IH in Hab].
Qed.

Lemma qualify_loop_not_unknown (g : globals) (guess : cstring) (c : ascii)
      (fuel : nat) (i : Z) :
  qualify_loop fuel g guess c i <> Ok Unknown.
Proof.
  revert i. induction fuel as [|fuel IH]; intros i H; simpl in H.
  - discriminate.
  - destruct (i <? LETTERS); [|discriminate].
    apply bind_ok in H as (s & _ & H).
    destruct (Ascii.eqb s c); [|now apply IH in H].
    apply bind_ok in H as (gi & _ & H).
    destruct (negb (Ascii.eqb gi c)); [discriminate | now apply IH in H].
Qed.

Lemma qualify_guess_result (g : globals) (guess : cstring) (index : Z) :
  ~ aborts (qualify_guess g guess index)
  /\ qualify_guess g guess index <> Ok Unknown.
Proof.
  unfold qualify_guess. split; intros H.
  - apply bind_aborts in H as [H|(c & _ & H)];
      [now apply cstr_at_no_abort in H|].
    apply bind_aborts in H as [H|(s & _ & H)];
      [now apply load_no_abort in H|].
    destruct (Ascii.eqb s c); [discriminate|].
    now apply qualify_loop_no_abort in H.
  - apply bind_ok in H as (c & _ & H).
    apply bind_ok in H as (s & _ & H).
    destruct (Ascii.eqb s c); [discriminate|].
    now apply qualify_loop_not_unknown in H.
Qed.

Lemma update_no_abort (alphabet : list CharInfo) (letter : ascii)
      (q : GuessQuality) :
  q <> Unknown -> ~ aborts (update alphabet letter q).
Proof.
  intros Hq Hab. unfold update in Hab.
  apply bind_aborts in Hab as [Hab|(cur & _ & Hab)];
    [now apply array_get_no_abort in Hab|].
  destruct (overrides_determined (quality cur) q Hq) as (b & Hb).
  rewrite Hb in Hab. cbn [bind] in Hab.
  destruct b; [now apply array_set_no_abort in Hab | discriminate].
Qed.

Lemma color_loop_no_abort (g : globals) (guess : cstring) (fuel : nat) :
  forall alphabet i printed,
    ~ aborts (color_loop fuel g guess alphabet i printed).
Proof.
  induction fuel as [|fuel IH]; intros alphabet i printed Hab; simpl in Hab.
  - discriminate.
  - destruct (i <? LETTERS); [|discriminate].
    apply bind_aborts in Hab as [Hab|(q & Hq & Hab)];
      [now apply qualify_guess_result in Hab|].
    apply bind_aborts in Hab as [Hab|(gi & _ & Hab)];
      [now apply cstr_at_no_abort in Hab|].
    apply bind_aborts in Hab as [Hab|(a' & _ & Hab)].
    + revert Hab. apply update_no_abort. intros ->.
      now apply (qualify_guess_result g guess i).
    + now apply IH in Hab.
Qed.

(** C9. [qualify_guess] never returns Unknown, whatever the guess, the
    solution and the position; hence no call of [overrides] made by
    [color_word_and_update_alphabet] fails its assertion. *)
Theorem scoring_never_unknown :
  (forall (g : globals) (guess : cstring) (index : Z),
      qualify_guess g guess index <> Ok Unknown)
  /\ (forall (g : globals) (guess : cstring) (alphabet : list CharInfo),
         color_word_and_update_alphabet g guess alphabet
         <> Err AssertionFailed).
Proof.
  split.
  - intros g guess index. apply qualify_guess_result.
  - intros g guess alphabet. apply color_loop_no_abort.
Qed.

(** ** The alphabet only gains information *)

Lemma length_set_nth {A : Type} (n : nat) (v : A) (a : list A) :
  length (set_nth n v a) = length a.
Proof.
  revert n. induction a as [|x a IH]; intros [|n]; simpl; auto.
Qed.

Lemma nth_error_set_nth_eq {A : Type} (n : nat) (v : A) (a : list A) :
  (n < length a)%nat -> nth_error (set_nth n v a) n = Some v.
Proof.
  revert n. induction a as [|x a IH]; intros [|n] Hn; simpl in *;
    try lia; auto.
  apply IH. lia.
Qed.

Lemma nth_error_set_nth_ne {A : Type} (n k : nat) (v : A) (a : list A) :
  k <> n -> nth_error (set_nth n v a) k = nth_error a k.
Proof.
  revert n k.
  induction a as [|x a IH]; intros [|n] [|k] Hne; simpl; auto;
    try contradiction.
Qed.

Lemma raised_refl (a : list CharInfo) : raised a a.
Proof. intros k info H. exists info. auto. Qed.

Lemma raised_trans (a b c : list CharInfo) :
  raised a b -> raised b c -> raised a c.
Proof.
  intros Hab Hbc k info H.
  destruct (Hab k info H) as (info1 & H1 & Hc1 & Hq1).
  destruct (Hbc k info1 H1) as (info2 & H2 & Hc2 & Hq2).
  exists info2. split; [exact H2|]. split; [congruence|].
  destruct Hq1 as [Hq1|Hq1], Hq2 as [Hq2|Hq2].
  - left. congruence.
  - right. now rewrite <- Hq1.
  - right. now rewrite Hq2.
  - right. lia.
Qed.

Lemma overrides_raises (orig new : GuessQuality) :
  overrides orig new = Ok true ->
  new = orig \/ (priority orig < priority new)%nat.
Proof.
  destruct orig, new; simpl; intros H; try discriminate; auto.
Qed.

Lemma update_raises (alphabet alphabet' : list CharInfo) (letter : ascii)
      (q : GuessQuality) :
  update alphabet letter q = Ok alphabet' ->
  length alphabet' = length alphabet /\ raised alphabet alphabet'.
Proof.
  unfold update. intros H.
  apply bind_ok in H as (cur & Hcur & H).
  apply bind_ok in H as (o & Ho & H).
  destruct o.
  - unfold array_set in H.
    destruct ((char_code letter - ASCII_A <? 0)
              || (Z.of_nat (length alphabet) <=? char_code letter - ASCII_A))
      eqn:Hb; [discriminate|].
    injection H as <-. apply orb_false_iff in Hb as (Hlo & Hhi).
    apply Z.ltb_ge in Hlo. apply Z.leb_gt in Hhi.
    unfold array_get in Hcur.
    destruct (char_code letter - ASCII_A <? 0); [discriminate|].
    destruct (nth_error alphabet (Z.to_nat (char_code letter - ASCII_A)))
      as [cur'|] eqn:Hnth; [|discriminate].
    injection Hcur as ->.
    split; [apply length_set_nth|].
    intros k info Hk.
    destruct (Nat.eq_dec k (Z.to_nat (char_code letter - ASCII_A)))
      as [->|Hne].
    + rewrite nth_error_set_nth_eq by lia.
      rewrite Hnth in Hk. injection Hk as <-.
      eexists. split; [reflexivity|]. simpl. split; [reflexivity|].
      now apply overrides_raises.
    + rewrite nth_error_set_nth_ne by assumption.
      exists info. auto.
  - injection H as <-. split; [reflexivity | apply raised_refl].
Qed.

Lemma update_defined (alphabet : list CharInfo) (letter : ascii)
      (q : GuessQuality) :
  length alphabet = Z.to_nat ALPHABET_SZ ->
  is_letter letter -> q <> Unknown ->
  exists alphabet', update alphabet letter q = Ok alphabet'.
Proof.
  unfold is_letter, ALPHABET_SZ, ASCII_A. intros Hlen Hl Hq.
  unfold update, array_get, ASCII_A.
  destruct (Z.ltb_spec (char_code letter - 97) 0) as [Hneg|_]; [lia|].
  destruct (nth_error alphabet (Z.to_nat (char_code letter - 97)))
    as [cur|] eqn:Hnth; [|apply nth_error_None in Hnth; lia].
  cbn [bind]. destruct (overrides_determined (quality cur) q Hq) as (b & ->).
  cbn [bind]. destruct b; [|eauto].
  unfold array_set.
  destruct (Z.ltb_spec (char_code letter - 97) 0) as [Hneg|_]; [lia|].
  destruct (Z.leb_spec (Z.of_nat (length alphabet)) (char_code letter - 97))
    as [Hbig|_]; [lia|].
  simpl. eauto.
Qed.

(** C7. Whatever sequence of updates with determined qualities is applied
    to the 26 entries of the alphabet, every update is carried out and the
    quality stored for each letter is either the one stored before or one
    of strictly higher priority in Unknown < Wrong < WrongPlace <
    RightPlace. *)
Theorem alphabet_monotone (alphabet : list CharInfo)
        (us : list (ascii * GuessQuality)) :
  length alphabet = 26%nat ->
  Forall (fun u => is_letter (fst u) /\ snd u <> Unknown) us ->
  exists alphabet',
    update_all alphabet us = Ok alphabet'
    /\ length alphabet' = 26%nat
    /\ forall (k : nat) (info : CharInfo),
        nth_error alphabet k = Some info ->
        exists info',
          nth_error alphabet' k = Some info'
          /\ chr info' = chr info
          /\ (quality info' = quality info
              \/ (priority (quality info) < priority (quality info'))%nat).
Proof.
  intros Hlen Hus. revert alphabet Hlen.
  induction Hus as [|[letter q] us (Hl & Hq) _ IH]; intros alphabet Hlen.
  - exists alphabet. repeat split; auto. apply raised_refl.
  - simpl in Hl, Hq.
    destruct (update_defined alphabet letter q Hlen Hl Hq) as (a1 & Ha1).
    destruct (update_raises _ _ _ _ Ha1) as (Hlen1 & Hr1).
    destruct (IH a1 ltac:(congruence)) as (a2 & Ha2 & Hlen2 & Hr2).
    exists a2. simpl. rewrite Ha1. cbn [bind].
    repeat split; auto.
    exact (raised_trans _ _ _ Hr1 Hr2).
Qed.

Lemma alphabet_monotone_witness :
  exists alphabet',
    update_all init_alphabet
               [("c"%char, WrongPlace); ("c"%char, Wrong);
                ("c"%char, RightPlace); ("c"%char, WrongPlace)]
    = Ok alphabet'
    /\ length alphabet' = 26%nat
    /\ forall (k : nat) (info : CharInfo),
        nth_error init_alphabet k = Some info ->
        exists info',
          nth_error alphabet' k = Some info'
          /\ chr info' = chr info
          /\ (quality info' = quality info
              \/ (priority (quality info) < priority (quality info'))%nat).
Proof.
  apply (alphabet_monotone init_alphabet).
  - reflexivity.
  - repeat constructor; simpl; try discriminate;
      unfold is_letter, char_code, ASCII_A, ALPHABET_SZ; simpl; lia.
Defined.

(** ** sv_substr *)

Lemma wrap_small (x : Z) : SizeT.in_range x -> SizeT.wrap x = x.
Proof. unfold SizeT.in_range, SizeT.wrap. intros H. now apply Z.mod_small. Qed.

(** As long as [beg + n] does not wrap (or [n] is the sentinel), the result
    of [sv_substr] is the one its documentation describes and stays inside
    the view it was taken from. *)
Lemma sv_substr_no_wrap (beg n : Z) (in_ : sv) :
  SizeT.in_range beg -> SizeT.in_range n -> SizeT.in_range (len in_) ->
  n = SV_END_POS \/ beg + n <= SizeT.SIZE_MAX ->
  let ret := sv_substr beg n in_ in
  (n = 0 \/ beg > len in_ -> ret = {| len := 0; ptr := NULL |})
  /\ (n <> 0 -> beg <= len in_ ->
      n = SV_END_POS \/ beg + n > len in_ ->
      ret = {| len := len in_ - beg; ptr := ptr in_ + beg |})
  /\ (n <> 0 -> beg <= len in_ ->
      n <> SV_END_POS -> beg + n <= len in_ ->
      ret = {| len := n; ptr := ptr in_ + beg |})
  /\ within ret in_.
Proof.
  intros Hb Hn Hl Hnw ret. subst ret.
  unfold SizeT.in_range, SV_END_POS, SizeT.SIZE_MAX in *.
  assert (Hnull : forall x, within {| len := 0; ptr := x |} in_)
    by (intros x; now left).
  assert (Hin : forall k, 0 <= k -> beg + k <= len in_ ->
                          within {| len := k; ptr := ptr in_ + beg |} in_)
    by (intros k Hk1 Hk2; right; simpl; lia).
  unfold sv_substr, SV_END_POS, SizeT.SIZE_MAX.
  destruct (Z.eqb_spec n 0) as [Hn0|Hn0]; cbn [orb].
  { split; [reflexivity|]. repeat (split; [intros; lia|]). apply Hnull. }
  destruct (Z.gtb_spec beg (len in_)) as [Hgt|Hle].
  { split; [reflexivity|]. repeat (split; [intros; lia|]). apply Hnull. }
  unfold SizeT.sub.
  rewrite (wrap_small (len in_ - beg)) by (unfold SizeT.in_range; lia).
  destruct (Z.eqb_spec n (SizeT.modulus - 1)) as [He|He]; cbn [orb].
  { split; [intros; lia|]. split; [reflexivity|]. split; [intros; lia|].
    apply Hin; lia. }
  unfold SizeT.add.
  rewrite (wrap_small (beg + n)) by (unfold SizeT.in_range; lia).
  destruct (Z.gtb_spec (beg + n) (len in_)) as [Hover|Hfit].
  - split; [intros; lia|]. split; [reflexivity|]. split; [intros; lia|].
    apply Hin; lia.
  - split; [intros; lia|]. split; [intros; lia|]. split; [reflexivity|].
    apply Hin; lia.
Qed.

(** C4. [sv_substr] at [beg = 2], [len = SIZE_MAX - 1] on a view of five
    bytes: the sum [beg + len] wraps to 0, the clamp is skipped, and the
    view returned has [SIZE_MAX - 1] bytes from offset 2 on, far beyond
    the five bytes of the original. *)
Theorem sv_substr_wraps :
  let in_ := {| len := 5; ptr := 0 |} in
  let ret := sv_substr 2 (SizeT.SIZE_MAX - 1) in_ in
  2 + (SizeT.SIZE_MAX - 1) > len in_
  /\ ret = {| len := SizeT.SIZE_MAX - 1; ptr := 2 |}
  /\ len ret <> len in_ - 2
  /\ ~ within ret in_.
Proof.
  cbv zeta. split; [reflexivity|]. split; [reflexivity|]. split.
  - vm_compute. discriminate.
  - unfold within. vm_compute. intros [H|[_ H]]; [discriminate|].
    apply H. reflexivity.
Qed.

(** ** sv_last_idx *)

Lemma in_view_byte_at (l : list ascii) (c : ascii) :
  In c l -> exists k, 0 <= k < Z.of_nat (length l) /\ byte_at l k = c.
Proof.
  intros Hin. destruct (In_nth l c NUL Hin) as (n & Hn & Hnth).
  exists (Z.of_nat n). split; [lia|]. unfold byte_at.
  now rewrite Nat2Z.id.
Qed.

Section LastIdx.

Variable m : memory.
Variable c : ascii.
Variable s : sv.

Hypothesis s_ok : sv_ok m s.
Hypothesis s_len : len s <= SizeT.SIZE_MAX.

Let bytes : list ascii := view m s.

(** The loop has left the view: [i] is not below [len]. *)
Lemma last_idx_loop_exit (fuel : nat) (i : Z) (seen : list Z) :
  len s <= i ->
  last_idx_loop (S fuel) m c s i seen = Ok (SV_END_POS, seen).
Proof.
  intros Hi. simpl. destruct (Z.ltb_spec i (len s)) as [Hlt|_]; [lia|].
  reflexivity.
Qed.

Lemma last_idx_loop_spec (fuel : nat) :
  forall (i : Z) (seen : list Z),
    0 <= i < len s ->
    (Z.to_nat i + 1 < fuel)%nat ->
    (forall k, i < k < len s -> byte_at bytes k <> c) ->
    Forall (fun k => 0 <= k < len s) seen ->
    exists r seen',
      last_idx_loop fuel m c s i seen = Ok (r, seen')
      /\ Forall (fun k => 0 <= k < len s) seen'
      /\ ((r = SV_END_POS /\ ~ In c bytes)
          \/ (0 <= r < len s /\ byte_at bytes r = c
              /\ forall k, r < k < len s -> byte_at bytes k <> c)).
Proof.
  induction fuel as [|fuel IH]; intros i seen Hi Hfuel Habove Hseen; [lia|].
  simpl. destruct (Z.ltb_spec i (len s)) as [_|Hge]; [|lia].
  rewrite load_view by assumption. cbn [bind]. fold bytes.
  assert (Hseen' : Forall (fun k => 0 <= k < len s) (seen ++ [i])).
  { apply Forall_app. split; [assumption|]. now constructor. }
  destruct (Ascii.eqb_spec (byte_at bytes i) c) as [Heq|Hne].
  - exists i, (seen ++ [i]). split; [reflexivity|]. split; [assumption|].
    right. auto.
  - destruct (Z.eq_dec i 0) as [->|Hpos].
    + destruct fuel as [|fuel]; [lia|].
      change (SizeT.sub 0 1) with SizeT.SIZE_MAX.
      rewrite last_idx_loop_exit by exact s_len.
      exists SV_END_POS, (seen ++ [0]).
      split; [reflexivity|]. split; [assumption|]. left.
      split; [reflexivity|]. intros Hin.
      apply in_view_byte_at in Hin as (k & Hk & Hck).
      unfold bytes in Hk. rewrite view_length in Hk by assumption.
      destruct s_ok as (_ & Hl & _).
      destruct (Z.eq_dec k 0) as [->|Hk0]; [contradiction|].
      apply (Habove k); [lia | assumption].
    + assert (Hw : SizeT.sub i 1 = i - 1).
      { apply wrap_small. unfold SizeT.in_range, SizeT.SIZE_MAX in *. lia. }
      rewrite Hw. apply IH; try lia; [|assumption].
      intros k Hk. destruct (Z.eq_dec k i) as [->|Hki]; [assumption|].
      apply Habove. lia.
Qed.

End LastIdx.

(** C10. On an empty view [sv_last_idx] returns the sentinel without
    reading any byte. On every view inside the memory it returns a result,
    every index it reads is below the length of the view, and the result is
    the largest index that holds [c], or the sentinel when no byte of the
    view is [c]. *)
Theorem sv_last_idx_safe (m : memory) (c : ascii) (s : sv) :
  len s = 0 \/ (sv_ok m s /\ len s <= SizeT.SIZE_MAX) ->
  exists r seen,
    sv_last_idx m c s = Ok (r, seen)
    /\ (len s = 0 -> r = SV_END_POS /\ seen = [])
    /\ Forall (fun i => 0 <= i < len s) seen
    /\ ((r = SV_END_POS /\ ~ In c (view m s))
        \/ (0 <= r < len s /\ byte_at (view m s) r = c
            /\ forall k, r < k < len s -> byte_at (view m s) k <> c)).
Proof.
  intros H.
  destruct (Z.eq_dec (len s) 0) as [Hz|Hnz].
  - exists SV_END_POS, []. unfold sv_last_idx, view. rewrite Hz.
    rewrite last_idx_loop_exit by (rewrite Hz; vm_compute; discriminate).
    split; [reflexivity|]. split; [auto|]. split; [constructor|].
    left. split; [reflexivity|]. simpl. auto.
  - destruct H as [H|(Hok & Hmax)]; [contradiction|].
    assert (Hpos : 0 < len s) by (destruct Hok as (_ & Hl & _); lia).
    unfold sv_last_idx.
    assert (Hw : SizeT.sub (len s) 1 = len s - 1).
    { apply wrap_small. unfold SizeT.in_range, SizeT.SIZE_MAX in *. lia. }
    rewrite Hw.
    destruct (last_idx_loop_spec m c s Hok Hmax (S (Z.to_nat (len s)))
                (len s - 1) [])
      as (r & seen & Hrun & Hseen & Hres); try lia.
    + constructor.
    + exists r, seen. split; [exact Hrun|]. split; [intros; lia|].
      split; assumption.
Qed.

Lemma sv_last_idx_safe_witness :
  exists r seen,
    sv_last_idx (list_ascii_of_string "banana") "n"%char
                {| len := 6; ptr := 0 |} = Ok (r, seen)
    /\ (len {| len := 6; ptr := 0 |} = 0 -> r = SV_END_POS /\ seen = [])
    /\ Forall (fun i => 0 <= i < len {| len := 6; ptr := 0 |}) seen
    /\ ((r = SV_END_POS
         /\ ~ In "n"%char (view (list_ascii_of_string "banana")
                                {| len := 6; ptr := 0 |}))
        \/ (0 <= r < len {| len := 6; ptr := 0 |}
            /\ byte_at (view (list_ascii_of_string "banana")
                             {| len := 6; ptr := 0 |}) r = "n"%char
            /\ forall k, r < k < len {| len := 6; ptr := 0 |} ->
                         byte_at (view (list_ascii_of_string "banana")
                                       {| len := 6; ptr := 0 |}) k
                         <> "n"%char)).
Proof.
  apply (sv_last_idx_safe (list_ascii_of_string "banana") "n"%char
                          {| len := 6; ptr := 0 |}).
  right. split.
  - unfold sv_ok. simpl. lia.
  - vm_compute. discriminate.
Defined.

Example sv_last_idx_banana :
  sv_last_idx (list_ascii_of_string "banana") "n"%char
              {| len := 6; ptr := 0 |} = Ok (4, [5; 4]).
Proof. reflexivity. Qed.

Example sv_last_idx_empty :
  sv_last_idx [] "n"%char {| len := 0; ptr := NULL |}
  = Ok (SV_END_POS, []).
Proof. reflexivity. Qed.

(** ** sv_chop_delim *)

Lemma view_split (m : memory) (s : sv) (a : Z) :
  sv_ok m s -> 0 <= a <= len s ->
  view m s
  = view m {| len := a; ptr := ptr s |}
    ++ view m {| len := len s - a; ptr := ptr s + a |}.
Proof.
  intros (Hp & Hl & Hb) Ha. unfold view. simpl.
  rewrite <- (firstn_skipn (Z.to_nat a)
                (firstn (Z.to_nat (len s)) (skipn (Z.to_nat (ptr s)) m))).
  rewrite firstn_firstn, skipn_firstn_comm, skipn_skipn.
  f_equal; f_equal; try lia. f_equal. lia.
Qed.

Lemma sub_view_ok (m : memory) (s : sv) (a n : Z) :
  sv_ok m s -> 0 <= a -> 0 <= n -> a + n <= len s ->
  sv_ok m {| len := n; ptr := ptr s + a |}.
Proof. unfold sv_ok. simpl. lia. Qed.

Lemma sub_view_byte_at (m : memory) (s : sv) (a n k : Z) :
  sv_ok m s -> 0 <= a -> a + n <= len s -> 0 <= k < n ->
  byte_at (view m {| len := n; ptr := ptr s + a |}) k
  = byte_at (view m s) (a + k).
Proof.
  intros Hok Ha Hn Hk.
  assert (Hsub : sv_ok m {| len := n; ptr := ptr s + a |})
    by (apply sub_view_ok; auto; lia).
  pose proof (load_view m _ k Hsub Hk) as H1. simpl in H1.
  pose proof (load_view m s (a + k) Hok ltac:(lia)) as H2.
  replace (ptr s + a + k) with (ptr s + (a + k)) in H1 by lia.
  congruence.
Qed.

Lemma constant_view (l : list ascii) (d : ascii) :
  (forall k, 0 <= k < Z.of_nat (length l) -> byte_at l k = d) ->
  l = repeat d (length l).
Proof.
  intros H. apply Forall_eq_repeat. apply Forall_nth.
  intros i x Hi. rewrite (nth_indep l x NUL Hi).
  specialize (H (Z.of_nat i) ltac:(lia)). unfold byte_at in H.
  now rewrite Nat2Z.id in H.
Qed.

Section ChopDelim.

Variable m : memory.
Variable d : ascii.
Variable s : sv.

Hypothesis s_ok : sv_ok m s.
Hypothesis s_len : len s <= SizeT.SIZE_MAX.

Let bytes : list ascii := view m s.

Lemma delim_run_spec (fuel : nat) :
  forall j : Z,
    0 <= j <= len s ->
    (Z.to_nat (len s - j) < fuel)%nat ->
    exists j',
      delim_run fuel m d s j = Ok j'
      /\ j <= j' <= len s
      /\ (forall k, j <= k < j' -> byte_at bytes k = d)
      /\ (j' < len s -> byte_at bytes j' <> d).
Proof.
  induction fuel as [|fuel IH]; intros j Hj Hfuel; [lia|].
  simpl. destruct (Z.ltb_spec j (len s)) as [Hlt|Hge].
  - rewrite load_view by (auto; lia). cbn [bind]. fold bytes.
    destruct (Ascii.eqb_spec (byte_at bytes j) d) as [Heq|Hne].
    + assert (Hw : SizeT.add j 1 = j + 1).
      { apply wrap_small. unfold SizeT.in_range, SizeT.SIZE_MAX in *. lia. }
      rewrite Hw.
      destruct (IH (j + 1)) as (j' & Hrun & Hb & Hall & Hend); try lia.
      exists j'. split; [exact Hrun|]. split; [lia|]. split; [|exact Hend].
      intros k Hk. destruct (Z.eq_dec k j) as [->|Hkj]; [exact Heq|].
      apply Hall. lia.
    + exists j. split; [reflexivity|]. split; [lia|]. split; [|auto].
      intros k Hk. lia.
  - exists j. split; [reflexivity|]. split; [lia|]. split; intros; lia.
Qed.

Lemma chop_scan_unfold (fuel : nat) (i : Z) :
  chop_scan (S fuel) m d s i
  = if i <? len s then
      c <- load m (ptr s + i) ;;
      if Ascii.eqb c d then
        j <- delim_run (S (Z.to_nat (len s))) m d s i ;;
        Ok (Some (i, SizeT.sub j i))
      else chop_scan fuel m d s (SizeT.add i 1)
    else Ok None.
Proof. reflexivity. Qed.

Lemma chop_scan_spec (fuel : nat) :
  forall i : Z,
    0 <= i <= len s ->
    (Z.to_nat (len s - i) < fuel)%nat ->
    (forall k, 0 <= k < i -> byte_at bytes k <> d) ->
    (chop_scan fuel m d s i = Ok None
     /\ forall k, 0 <= k < len s -> byte_at bytes k <> d)
    \/ exists o j,
        chop_scan fuel m d s i = Ok (Some (o, j))
        /\ 0 <= o /\ 1 <= j /\ o + j <= len s
        /\ (forall k, 0 <= k < o -> byte_at bytes k <> d)
        /\ (forall k, o <= k < o + j -> byte_at bytes k = d)
        /\ (o + j < len s -> byte_at bytes (o + j) <> d).
Proof.
  induction fuel as [|fuel IH]; intros i Hi Hfuel Hbefore; [lia|].
  rewrite chop_scan_unfold. destruct (Z.ltb_spec i (len s)) as [Hlt|Hge].
  - rewrite load_view by (auto; lia). cbn [bind]. fold bytes.
    destruct (Ascii.eqb_spec (byte_at bytes i) d) as [Heq|Hne].
    + right.
      destruct (delim_run_spec (S (Z.to_nat (len s))) i)
        as (j' & Hrun & Hb & Hall & Hend); try lia.
      rewrite Hrun. cbn [bind].
      assert (Hgt : i < j').
      { destruct (Z.eq_dec i j') as [<-|Hij]; [|lia]. now apply Hend in Hlt. }
      assert (Hw : SizeT.sub j' i = j' - i).
      { apply wrap_small. unfold SizeT.in_range, SizeT.SIZE_MAX in *. lia. }
      rewrite Hw. exists i, (j' - i).
      split; [reflexivity|]. replace (i + (j' - i)) with j' by lia.
      repeat split; auto; lia.
    + assert (Hw : SizeT.add i 1 = i + 1).
      { apply wrap_small. unfold SizeT.in_range, SizeT.SIZE_MAX in *. lia. }
      rewrite Hw. apply IH; try lia.
      intros k Hk. destruct (Z.eq_dec k i) as [->|Hki]; [exact Hne|].
      apply Hbefore. lia.
  - left. split; [reflexivity|]. intros k Hk. apply Hbefore. lia.
Qed.

End ChopDelim.

(** What one call of [sv_chop_delim] does to a non-empty view: [out] is
    the prefix before the first delimiter, then come [k] delimiters, and
    the new [in] is what is left after them. *)
Lemma sv_chop_delim_cut (m : memory) (d : ascii) (s buf : sv) :
  sv_ok m s -> 0 < len s <= SizeT.SIZE_MAX ->
  exists in' out k,
    sv_chop_delim m d s buf = Ok (true, in', out)
    /\ sv_ok m in' /\ sv_ok m out
    /\ within in' s /\ within out s
    /\ 0 <= k /\ len s = len out + k + len in'
    /\ (k = 0 -> len in' = 0)
    /\ view m s = view m out ++ repeat d (Z.to_nat k) ++ view m in'
    /\ ~ In d (view m out)
    /\ (forall rest, view m in' <> d :: rest).
Proof.
  intros Hok Hlen. pose proof Hok as (Hp & Hl & Hb).
  unfold sv_chop_delim.
  destruct (Z.eqb_spec (len s) 0) as [Hz|_]; [lia|].
  assert (Hout : forall o, 0 <= o <= len s ->
            (forall k, 0 <= k < o -> byte_at (view m s) k <> d) ->
            ~ In d (view m {| len := o; ptr := ptr s |})).
  { intros o Ho Hfree Hin.
    apply in_view_byte_at in Hin as (k & Hk & Hkd).
    rewrite view_length in Hk by (unfold sv_ok; simpl; lia). simpl in Hk.
    pose proof (sub_view_byte_at m s 0 o k Hok ltac:(lia) ltac:(lia)
                                 ltac:(lia)) as Hsub.
    replace (ptr s + 0) with (ptr s) in Hsub by lia.
    rewrite Hsub in Hkd. apply (Hfree k); [lia | exact Hkd]. }
  destruct (chop_scan_spec m d s Hok ltac:(lia) (S (Z.to_nat (len s))) 0)
    as [(Hscan & Hfree)|(o & j & Hscan & Ho & Hj & Hoj & Hfree & Hrun & Hend)];
    try lia; rewrite Hscan; cbn [bind].
  - exists {| len := 0; ptr := ptr s |}, {| len := len s; ptr := ptr s |}, 0.
    split; [reflexivity|].
    split; [unfold sv_ok; simpl; lia|]. split; [unfold sv_ok; simpl; lia|].
    split; [now left|]. split; [right; simpl; lia|].
    split; [lia|]. split; [simpl; lia|]. split; [reflexivity|].
    split; [|split].
    + unfold view at 3. simpl. rewrite app_nil_r. now destruct s.
    + apply Hout; [lia | exact Hfree].
    + unfold view. simpl. discriminate.
  - assert (Hw1 : SizeT.add o j = o + j).
    { apply wrap_small. unfold SizeT.in_range, SizeT.SIZE_MAX in *. lia. }
    assert (Hw2 : SizeT.sub (len s) (o + j) = len s - (o + j)).
    { apply wrap_small. unfold SizeT.in_range, SizeT.SIZE_MAX in *. lia. }
    rewrite Hw1, Hw2.
    exists {| len := len s - (o + j); ptr := ptr s + (o + j) |},
           {| len := o; ptr := ptr s |}, j.
    split; [reflexivity|].
    split; [unfold sv_ok; simpl; lia|]. split; [unfold sv_ok; simpl; lia|].
    split; [right; simpl; lia|]. split; [right; simpl; lia|].
    split; [lia|]. split; [simpl; lia|]. split; [lia|].
    split; [|split].
    + rewrite (view_split m s o) by (auto; lia). f_equal.
      assert (Hrest : sv_ok m {| len := len s - o; ptr := ptr s + o |})
        by (unfold sv_ok; simpl; lia).
      rewrite (view_split m _ j Hrest) by (simpl; lia). simpl.
      replace (len s - o - j) with (len s - (o + j)) by lia.
      replace (ptr s + o + j) with (ptr s + (o + j)) by lia.
      f_equal.
      assert (Hrunok : sv_ok m {| len := j; ptr := ptr s + o |})
        by (unfold sv_ok; simpl; lia).
      rewrite (constant_view (view m {| len := j; ptr := ptr s + o |}) d).
      * now rewrite (view_length m _ Hrunok).
      * intros k Hk. rewrite (view_length m _ Hrunok) in Hk. simpl in Hk.
        rewrite sub_view_byte_at by (auto; lia). apply Hrun. lia.
    + apply Hout; [lia | exact Hfree].
    + intros rest Hstart.
      assert (Hnonempty : 0 < len s - (o + j)).
      { assert (Hrestok :
                  sv_ok m {| len := len s - (o + j); ptr := ptr s + (o + j) |})
          by (unfold sv_ok; simpl; lia).
        pose proof (view_length m _ Hrestok) as Hvl.
        rewrite Hstart in Hvl. simpl in Hvl. lia. }
      apply Hend; [lia|].
      rewrite <- (Z.add_0_r (o + j)).
      rewrite <- (sub_view_byte_at m s (o + j) (len s - (o + j)) 0)
        by (auto; lia).
      rewrite Hstart. reflexivity.
Qed.

Lemma nonempty_view_starts (m : memory) (d : ascii) (s in' out : sv)
      (k : Z) :
  sv_ok m s -> 0 < len s ->
  view m s = view m out ++ repeat d (Z.to_nat k) ++ view m in' ->
  0 <= k -> sv_ok m in' -> (k = 0 -> len in' = 0) ->
  ~ In d (view m out) ->
  (view m out = [] <-> exists rest, view m s = d :: rest).
Proof.
  intros Hok Hpos Hcut Hk Hin' Hk0 Hfree. split.
  - intros Hempty. rewrite Hempty in Hcut. simpl in Hcut.
    destruct (Z.eq_dec k 0) as [->|Hkpos].
    + pose proof (view_length m s Hok) as Hl.
      pose proof (view_length m in' Hin') as Hl'.
      rewrite Hcut in Hl. simpl in Hl. rewrite Hk0 in Hl' by reflexivity.
      lia.
    + destruct (Z.to_nat k) as [|n] eqn:En; [lia|].
      simpl in Hcut. eauto.
  - intros (rest & Hstart).
    destruct (view m out) as [|x xs] eqn:Eo; [reflexivity|].
    rewrite Hstart in Hcut. simpl in Hcut. injection Hcut as <- _.
    exfalso. apply Hfree. now left.
Qed.

Lemma chop_loop_spec (m : memory) (d : ascii) (fuel : nat) :
  forall s buf : sv,
    sv_ok m s -> len s <= SizeT.SIZE_MAX ->
    (Z.to_nat (len s) < fuel)%nat ->
    exists toks,
      chop_loop fuel m d s buf = Ok toks
      /\ Z.of_nat (length toks) <= len s
      /\ Forall (fun t => sv_ok m t /\ ~ In d (view m t)) toks
      /\ ((forall rest, view m s <> d :: rest) ->
          Forall (fun t => view m t <> []) toks)
      /\ Forall (fun t => view m t <> []) (tl toks).
Proof.
  induction fuel as [|fuel IH]; intros s buf Hok Hmax Hfuel; [lia|].
  simpl. destruct (Z.eq_dec (len s) 0) as [Hz|Hnz].
  - unfold sv_chop_delim. rewrite Hz. simpl.
    exists []. repeat split; auto; simpl; lia.
  - assert (Hpos : 0 < len s) by (destruct Hok as (_ & Hl & _); lia).
    destruct (sv_chop_delim_cut m d s buf Hok ltac:(lia))
      as (in' & out & k & Hcall & Hin' & Hout & _ & _ & Hk & Hsum & Hk0
          & Hcut & Hfree & Hnext).
    rewrite Hcall. cbn [bind].
    assert (Hlen' : 0 <= len in') by (destruct Hin' as (_ & Hl & _); lia).
    assert (Hlenout : 0 <= len out) by (destruct Hout as (_ & Hl & _); lia).
    assert (Hless : len in' < len s).
    { destruct (Z.eq_dec k 0) as [Hk00|Hkpos]; [rewrite Hk0; lia | lia]. }
    destruct (IH in' out Hin' ltac:(lia) ltac:(lia))
      as (toks & Hrun & Hcount & Hall & Hne & _).
    rewrite Hrun. cbn [bind].
    exists (out :: toks). split; [reflexivity|].
    split; [simpl length; lia|].
    split; [constructor; auto|].
    split; [|simpl; auto].
    intros Hstart. constructor; [|auto].
    intros Hempty.
    apply (nonempty_view_starts m d s in' out k) in Hempty
      as (rest & Hrest); auto.
    now apply Hstart in Hrest.
Qed.

(** C3 (as the code has it). One call of [sv_chop_delim] on a non-empty
    view yields the bytes before the first delimiter and then consumes the
    whole run of delimiters that follows them, so that consecutive
    delimiters act as one separator: the element yielded contains no
    delimiter, the view left over does not start with one, and the element
    is empty exactly when the view started with a delimiter. In a loop of
    calls every element after the first is therefore non-empty, and
    "cat\ndog\n\nbird" is cut into "cat", "dog", "bird". *)
Theorem sv_chop_delim_collapses (m : memory) (d : ascii) (s buf : sv) :
  sv_ok m s -> 0 < len s <= SizeT.SIZE_MAX ->
  (exists in' out k,
      sv_chop_delim m d s buf = Ok (true, in', out)
      /\ view m s = view m out ++ repeat d k ++ view m in'
      /\ ~ In d (view m out)
      /\ (k = 0%nat -> view m in' = [])
      /\ (forall rest, view m in' <> d :: rest)
      /\ (view m out = [] <-> exists rest, view m s = d :: rest))
  /\ (exists toks,
         chop_loop (S (Z.to_nat (len s))) m d s buf = Ok toks
         /\ Forall (fun t => ~ In d (view m t)) toks
         /\ Forall (fun t => view m t <> []) (tl toks))
  /\ (exists toks,
         chop_loop (S (Z.to_nat (len (whole cat_dog_bird)))) cat_dog_bird
                   newline (whole cat_dog_bird) no_buf = Ok toks
         /\ map (view cat_dog_bird) toks
            = [list_ascii_of_string "cat"; list_ascii_of_string "dog";
               list_ascii_of_string "bird"]).
Proof.
  intros Hok Hlen. split; [|split].
  - destruct (sv_chop_delim_cut m d s buf Hok Hlen)
      as (in' & out & k & Hcall & Hin' & Hout & _ & _ & Hk & Hsum & Hk0
          & Hcut & Hfree & Hnext).
    exists in', out, (Z.to_nat k). split; [exact Hcall|].
    split; [exact Hcut|]. split; [exact Hfree|]. split; [|split].
    + intros Hz. pose proof (view_length m in' Hin') as Hl.
      rewrite Hk0 in Hl by lia. now apply length_zero_iff_nil.
    + exact Hnext.
    + apply (nonempty_view_starts m d s in' out k); auto; lia.
  - destruct (chop_loop_spec m d (S (Z.to_nat (len s))) s buf Hok)
      as (toks & Hrun & _ & Hall & _ & Htl); try lia.
    exists toks. split; [exact Hrun|]. split; [|exact Htl].
    eapply Forall_impl; [|exact Hall]. now intros t (_ & Hfree).
  - eexists. split; reflexivity.
Qed.

Lemma sv_chop_delim_collapses_witness :
  (exists in' out k,
      sv_chop_delim cat_dog_bird newline (whole cat_dog_bird) no_buf
      = Ok (true, in', out)
      /\ view cat_dog_bird (whole cat_dog_bird)
         = view cat_dog_bird out ++ repeat newline k
           ++ view cat_dog_bird in'
      /\ ~ In newline (view cat_dog_bird out)
      /\ (k = 0%nat -> view cat_dog_bird in' = [])
      /\ (forall rest, view cat_dog_bird in' <> newline :: rest)
      /\ (view cat_dog_bird out = []
          <-> exists rest,
              view cat_dog_bird (whole cat_dog_bird) = newline :: rest))
  /\ (exists toks,
         chop_loop (S (Z.to_nat (len (whole cat_dog_bird)))) cat_dog_bird
                   newline (whole cat_dog_bird) no_buf = Ok toks
         /\ Forall (fun t => ~ In newline (view cat_dog_bird t)) toks
         /\ Forall (fun t => view cat_dog_bird t <> []) (tl toks))
  /\ (exists toks,
         chop_loop (S (Z.to_nat (len (whole cat_dog_bird)))) cat_dog_bird
                   newline (whole cat_dog_bird) no_buf = Ok toks
         /\ map (view cat_dog_bird) toks
            = [list_ascii_of_string "cat"; list_ascii_of_string "dog";
               list_ascii_of_string "bird"]).
Proof.
  apply (sv_chop_delim_collapses cat_dog_bird newline (whole cat_dog_bird)
                                 no_buf).
  - unfold sv_ok. simpl. lia.
  - split; [reflexivity | vm_compute; discriminate].
Defined.

(** The claim as the specification words it fails on a view that starts
    with the delimiter: the call on "\ncat" does not skip the newline
    first, it yields an empty element and leaves "cat" for the next call. *)
Lemma sv_chop_delim_leading_delimiter :
  exists in' out,
    sv_chop_delim nl_cat newline (whole nl_cat) no_buf = Ok (true, in', out)
    /\ view nl_cat out = []
    /\ view nl_cat in' = list_ascii_of_string "cat"
    /\ ~ (view nl_cat out <> []
          /\ view nl_cat out = list_ascii_of_string "cat").
Proof.
  eexists. eexists. split; [reflexivity|]. split; [reflexivity|].
  split; [reflexivity|]. intros (Hne & _). apply Hne. reflexivity.
Qed.

(** C8. [sv_chop_delim] returns false exactly on an empty view; a call
    that returns true leaves a strictly shorter view; hence the loop
    [while (sv_chop_delim(...)) ...] over a view of [n] bytes ends after at
    most [n] passes through its body. *)
Theorem sv_chop_delim_progress (m : memory) (d : ascii) (s buf : sv) :
  sv_ok m s -> len s <= SizeT.SIZE_MAX ->
  (len s = 0 -> sv_chop_delim m d s buf = Ok (false, s, buf))
  /\ (len s <> 0 ->
      exists in' out,
        sv_chop_delim m d s buf = Ok (true, in', out)
        /\ 0 <= len in' < len s)
  /\ (forall fuel : nat,
         (Z.to_nat (len s) < fuel)%nat ->
         exists toks,
           chop_loop fuel m d s buf = Ok toks
           /\ Z.of_nat (length toks) <= len s).
Proof.
  intros Hok Hmax. split; [|split].
  - intros Hz. unfold sv_chop_delim. now rewrite Hz.
  - intros Hnz.
    assert (Hpos : 0 < len s) by (destruct Hok as (_ & Hl & _); lia).
    destruct (sv_chop_delim_cut m d s buf Hok ltac:(lia))
      as (in' & out & k & Hcall & Hin' & Hout & _ & _ & Hk & Hsum & Hk0 & _).
    exists in', out. split; [exact Hcall|].
    destruct Hin' as (_ & Hl' & _). destruct Hout as (_ & Hlo & _).
    destruct (Z.eq_dec k 0) as [Hk00|Hkpos]; [rewrite Hk0; lia | lia].
  - intros fuel Hfuel.
    destruct (chop_loop_spec m d fuel s buf Hok Hmax Hfuel)
      as (toks & Hrun & Hcount & _).
    eauto.
Qed.

Lemma sv_chop_delim_progress_witness :
  (len (whole cat_dog_bird) = 0 ->
   sv_chop_delim cat_dog_bird newline (whole cat_dog_bird) no_buf
   = Ok (false, whole cat_dog_bird, no_buf))
  /\ (len (whole cat_dog_bird) <> 0 ->
      exists in' out,
        sv_chop_delim cat_dog_bird newline (whole cat_dog_bird) no_buf
        = Ok (true, in', out)
        /\ 0 <= len in' < len (whole cat_dog_bird))
  /\ (forall fuel : nat,
         (Z.to_nat (len (whole cat_dog_bird)) < fuel)%nat ->
         exists toks,
           chop_loop fuel cat_dog_bird newline (whole cat_dog_bird) no_buf
           = Ok toks
           /\ Z.of_nat (length toks) <= len (whole cat_dog_bird)).
Proof.
  apply (sv_chop_delim_progress cat_dog_bird newline (whole cat_dog_bird)
                                no_buf).
  - unfold sv_ok. simpl. lia.
  - vm_compute. discriminate.
Defined.

(** ** Comparing a view with a string *)

Lemma skipn_cons_nth {A : Type} (l : list A) (n : nat) (x : A) :
  nth_error l n = Some x -> skipn n l = x :: skipn (S n) l.
Proof.
  revert n. induction l as [|y l IH]; intros [|n] H; simpl in *;
    try discriminate.
  - now injection H as ->.
  - now apply IH.
Qed.

Lemma load_some (m : memory) (a : Z) :
  0 <= a < Z.of_nat (length m) ->
  exists c, load m a = Ok c /\ nth_error m (Z.to_nat a) = Some c.
Proof.
  intros Ha. unfold load.
  destruct (Z.ltb_spec a 0) as [Hneg|_]; [lia|].
  destruct (nth_error m (Z.to_nat a)) as [c|] eqn:E; [eauto|].
  apply nth_error_None in E. lia.
Qed.

Lemma load_range_spec (m : memory) (n : nat) :
  forall a : Z,
    0 <= a -> a + Z.of_nat n <= Z.of_nat (length m) ->
    load_range m a n = Ok (firstn n (skipn (Z.to_nat a) m)).
Proof.
  induction n as [|n IH]; intros a Ha Hb; [reflexivity|].
  simpl load_range.
  destruct (load_some m a ltac:(lia)) as (c & -> & Hnth). cbn [bind].
  rewrite IH by lia. cbn [bind].
  rewrite (skipn_cons_nth m _ c Hnth).
  replace (S (Z.to_nat a)) with (Z.to_nat (a + 1)) by lia. reflexivity.
Qed.

Lemma load_range_view (m : memory) (s : sv) :
  sv_ok m s -> load_range m (ptr s) (Z.to_nat (len s)) = Ok (view m s).
Proof.
  intros (Hp & Hl & Hb). apply load_range_spec; lia.
Qed.

Lemma is_letter_not_nul (c : ascii) : is_letter c -> Ascii.eqb c NUL = false.
Proof.
  intros H. destruct (Ascii.eqb_spec c NUL) as [->|]; [|reflexivity].
  unfold is_letter, ASCII_A, ALPHABET_SZ in H. vm_compute in H.
  destruct H as [H _]. now elim H.
Qed.

Lemma is_letter_not_newline (c : ascii) :
  is_letter c -> Ascii.eqb c newline = false.
Proof.
  intros H. destruct (Ascii.eqb_spec c newline) as [->|]; [|reflexivity].
  unfold is_letter, ASCII_A, ALPHABET_SZ in H. vm_compute in H.
  destruct H as [H _]. now elim H.
Qed.

Lemma printf_sv_spec (m : memory) (n : nat) :
  forall a : Z,
    0 <= a -> a + Z.of_nat n <= Z.of_nat (length m) ->
    Forall is_letter (firstn n (skipn (Z.to_nat a) m)) ->
    printf_sv m a n = Ok (firstn n (skipn (Z.to_nat a) m)).
Proof.
  induction n as [|n IH]; intros a Ha Hb Hletters; [reflexivity|].
  simpl printf_sv.
  destruct (load_some m a ltac:(lia)) as (c & -> & Hnth). cbn [bind].
  rewrite (skipn_cons_nth m _ c Hnth) in Hletters |- *.
  replace (S (Z.to_nat a)) with (Z.to_nat (a + 1)) in * by lia.
  cbn [firstn] in Hletters |- *.
  inversion Hletters as [|? ? Hc Hrest]; subst.
  rewrite (is_letter_not_nul c Hc).
  rewrite IH by (auto; lia). reflexivity.
Qed.

Lemma bytes_eqb_eq (xs ys : list ascii) : bytes_eqb xs ys = true <-> xs = ys.
Proof.
  revert ys. induction xs as [|x xs IH]; intros [|y ys]; simpl;
    try (split; [discriminate | discriminate]); [tauto|].
  rewrite andb_true_iff, Ascii.eqb_eq, IH.
  split; [intros [-> ->]; reflexivity | intros H; injection H; auto].
Qed.

Lemma sv_cstr_eq_spec (m : memory) (s : sv) (cstr : cstring) :
  sv_ok m s ->
  exists b, sv_cstr_eq m s cstr = Ok b /\ (b = true <-> view m s = cstr).
Proof.
  intros Hok. unfold sv_cstr_eq, strlen.
  destruct (Z.eqb_spec (len s) (Z.of_nat (length cstr))) as [Heq|Hne]; simpl.
  - rewrite load_range_view by assumption. cbn [bind].
    eexists. split; [reflexivity|]. apply bytes_eqb_eq.
  - exists false. split; [reflexivity|]. split; [discriminate|].
    intros Hv. pose proof (view_length m s Hok) as Hl. rewrite Hv in Hl.
    destruct Hok as (_ & H0 & _). lia.
Qed.

Lemma valid_loop_true (m : memory) (ws : list sv) (word : cstring) :
  Forall (sv_ok m) ws ->
  valid_loop m ws word = Ok true ->
  exists w, In w ws /\ view m w = word.
Proof.
  induction 1 as [|w ws Hw _ IH]; simpl; intros H; [discriminate|].
  destruct (sv_cstr_eq_spec m w word Hw) as (b & Hb & Hiff).
  rewrite Hb in H. cbn [bind] in H. destruct b.
  - exists w. split; [now left | now apply Hiff].
  - destruct (IH H) as (w' & Hin & Hv). exists w'. split; [now right|auto].
Qed.

Lemma chomp_letters (line : cstring) :
  Forall is_letter line -> chomp line = line.
Proof.
  intros H. unfold chomp.
  assert (Hn : strcspn_nl line = Z.of_nat (length line)).
  { induction H as [|c line Hc _ IH]; [reflexivity|].
    cbn [strcspn_nl]. rewrite (is_letter_not_newline c Hc), IH.
    cbn [length]. lia. }
  rewrite Hn, Nat2Z.id. apply firstn_all.
Qed.

(** ** One turn of the guess loop *)

Section Turn.

Variable g : globals.
Hypothesis g_ok : corpus_ok g.

Lemma solution_view_ok : sv_ok (mem g) (solution g).
Proof. apply g_ok. Qed.

Lemma solution_length : len (solution g) = LETTERS.
Proof. apply g_ok. Qed.

Lemma qualify_loop_total (guess : cstring) (c : ascii) (fuel : nat) :
  strlen guess = LETTERS ->
  forall i : Z,
    0 <= i ->
    (Z.to_nat (LETTERS - i) < fuel)%nat ->
    exists q, qualify_loop fuel g guess c i = Ok q.
Proof.
  intros Hlen. induction fuel as [|fuel IH]; intros i Hi Hfuel; [lia|].
  simpl. destruct (Z.ltb_spec i LETTERS) as [Hlt|Hge]; [|eauto].
  rewrite load_view
    by (rewrite ?solution_length; auto using solution_view_ok).
  cbn [bind].
  destruct (Ascii.eqb _ c); [|apply IH; lia].
  rewrite cstr_at_in by lia. cbn [bind].
  destruct (negb _); [eauto | apply IH; lia].
Qed.

Lemma qualify_guess_total (guess : cstring) (i : Z) :
  strlen guess = LETTERS -> 0 <= i < LETTERS ->
  exists q, qualify_guess g guess i = Ok q /\ q <> Unknown.
Proof.
  intros Hlen Hi.
  assert (Hq : exists q, qualify_guess g guess i = Ok q).
  { unfold qualify_guess. rewrite cstr_at_in by lia. cbn [bind].
    rewrite load_view
      by (rewrite ?solution_length; auto using solution_view_ok).
    cbn [bind]. destruct (Ascii.eqb _ _); [eauto|].
    apply qualify_loop_total; auto; unfold LETTERS; simpl; lia. }
  destruct Hq as (q & Hq). exists q. split; [exact Hq|].
  intros ->. now apply (qualify_guess_result g guess i).
Qed.

Lemma color_loop_total (guess : cstring) (fuel : nat) :
  strlen guess = LETTERS -> Forall is_letter guess ->
  forall (alphabet : list CharInfo) (i : Z)
         (printed : list (ascii * GuessQuality)),
    length alphabet = Z.to_nat ALPHABET_SZ ->
    0 <= i ->
    (Z.to_nat (LETTERS - i) < fuel)%nat ->
    exists alphabet' cs,
      color_loop fuel g guess alphabet i printed = Ok (alphabet', cs)
      /\ length alphabet' = Z.to_nat ALPHABET_SZ
      /\ raised alphabet alphabet'.
Proof.
  intros Hlen Hletters.
  induction fuel as [|fuel IH]; intros alphabet i printed Ha Hi Hfuel; [lia|].
  simpl. destruct (Z.ltb_spec i LETTERS) as [Hlt|Hge].
  - destruct (qualify_guess_total guess i Hlen ltac:(lia)) as (q & -> & Hq).
    cbn [bind]. rewrite cstr_at_in by lia. cbn [bind].
    assert (Hl : is_letter (byte_at guess i)).
    { rewrite Forall_forall in Hletters. apply Hletters.
      unfold byte_at. apply nth_In. unfold strlen in Hlen. lia. }
    destruct (update_defined alphabet (byte_at guess i) q Ha Hl Hq)
      as (a1 & Ha1).
    rewrite Ha1. cbn [bind].
    destruct (update_raises _ _ _ _ Ha1) as (Hlen1 & Hr1).
    destruct (IH a1 (i + 1) (printed ++ [(byte_at guess i, q)]))
      as (a2 & cs & Hrun & Hlen2 & Hr2); try lia.
    exists a2, cs. split; [exact Hrun|]. split; [exact Hlen2|].
    exact (raised_trans _ _ _ Hr1 Hr2).
  - exists alphabet, printed. split; [reflexivity|].
    split; [assumption | apply raised_refl].
Qed.

Lemma valid_letters (line : cstring) :
  valid g line = Ok true -> Forall is_letter line.
Proof.
  intros Hv. destruct g_ok as (Hwords & _).
  apply valid_loop_true in Hv as (w & Hin & <-).
  - rewrite Forall_forall in Hwords. now apply Hwords.
  - eapply Forall_impl; [|exact Hwords]. now intros w (Hok & _).
Qed.

(** A valid guess that misses the solution: the guess is coloured, the
    alphabet is updated and [y] moves on; the loop goes to its [i++]. *)
Lemma miss_step (st : state) (line : cstring) :
  miss g line ->
  length (st_alphabet st) = Z.to_nat ALPHABET_SZ ->
  exists alphabet' cs,
    loop_body g st (Some line)
    = Ok (Next,
          {| st_i := st_i st; st_alphabet := alphabet';
             st_y := st_y st + 1 |},
          [EvGuess cs])
    /\ length alphabet' = Z.to_nat ALPHABET_SZ.
Proof.
  intros (Hlen & Hvalid & Hdiff) Ha.
  pose proof (valid_letters line Hvalid) as Hletters.
  unfold loop_body. rewrite Hlen.
  change (LETTERS =? 0) with false. cbv iota.
  rewrite (chomp_letters line Hletters). rewrite Hlen.
  change (negb (LETTERS =? LETTERS)) with false. cbv iota.
  rewrite Hvalid. cbn [bind negb].
  destruct (color_loop_total line (S (Z.to_nat LETTERS)) Hlen Hletters
              (st_alphabet st) 0 [] Ha ltac:(lia))
    as (a' & cs & Hcol & Hlen' & _); [unfold LETTERS; simpl; lia|].
  unfold color_word_and_update_alphabet. rewrite Hcol. cbn [bind fst snd].
  unfold check_correct.
  destruct (sv_cstr_eq_spec (mem g) (solution g) line solution_view_ok)
    as (b & -> & Hiff).
  cbn [bind]. destruct b.
  - exfalso. apply Hdiff. symmetry. now apply Hiff.
  - exists a', cs. split; [reflexivity | exact Hlen'].
Qed.

End Turn.

(** ** The guess loop *)

Lemma revealed_app (a b : list event) :
  revealed (a ++ b) = (revealed a + revealed b)%nat.
Proof. unfold revealed. now rewrite filter_app, length_app. Qed.

Lemma set_i_back (st : state) :
  set_i (set_i st (st_i st - 1)) (st_i (set_i st (st_i st - 1)) + 1) = st.
Proof. destruct st as [i a y]. unfold set_i. simpl. f_equal. lia. Qed.

Section Loop.

Variable g : globals.

Lemma main_loop_wait (st : state) (out : list event) :
  st_i st < GUESSES ->
  main_loop g st [] out
  = Ok (Playing (st_i st), st, out ++ [EvAlphabet (st_alphabet st)]).
Proof.
  intros Hi. simpl.
  destruct (Z.ltb_spec (st_i st) GUESSES) as [_|Hge]; [reflexivity | lia].
Qed.

Lemma main_loop_next (st st' : state) (line : option cstring)
      (rest : list (option cstring)) (out evs : list event) :
  st_i st < GUESSES ->
  loop_body g st line = Ok (Next, st', evs) ->
  main_loop g st (line :: rest) out
  = main_loop g (set_i st' (st_i st' + 1)) rest
              ((out ++ [EvAlphabet (st_alphabet st)]) ++ evs).
Proof.
  intros Hi Hbody. cbn [main_loop].
  destruct (Z.ltb_spec (st_i st) GUESSES) as [_|Hge]; [|lia].
  rewrite Hbody. reflexivity.
Qed.

Lemma main_loop_over (st : state) (input : list (option cstring))
      (out : list event) :
  GUESSES <= st_i st ->
  main_loop g st input out
  = (w <- printf_sv (mem g) (ptr (solution g))
                    (Z.to_nat (len (solution g))) ;;
     Ok (Lost, st, out ++ [EvSolution w])).
Proof.
  intros Hi.
  destruct input; cbn [main_loop];
    (destruct (Z.ltb_spec (st_i st) GUESSES) as [Hlt|_]; [lia|reflexivity]).
Qed.

(** What one pass through the body can print and how it can end. *)
Lemma loop_body_events (st st' : state) (line : option cstring)
      (c : control) (evs : list event) :
  loop_body g st line = Ok (c, st', evs) ->
  revealed evs = 0%nat
  /\ (c = Next \/ c = Return Won \/ c = Return EndOfInput).
Proof.
  unfold loop_body. destruct line as [line|].
  - destruct (strlen line =? 0).
    { intros H. injection H as <- <- <-. auto. }
    destruct (negb (strlen (chomp line) =? LETTERS)).
    { intros H. injection H as <- <- <-. auto. }
    intros H. apply bind_ok in H as (v & _ & H).
    destruct (negb v).
    { injection H as <- <- <-. auto. }
    apply bind_ok in H as (r & _ & H).
    apply bind_ok in H as (ok & _ & H).
    destruct ok; injection H as <- <- <-; auto.
  - intros H. injection H as <- <- <-. auto.
Qed.

(** The solution is printed once when the loop runs out of guesses and
    never otherwise. *)
Lemma main_loop_reveals (input : list (option cstring)) :
  forall (st st' : state) (out evs : list event) (s : status),
    main_loop g st input out = Ok (s, st', evs) ->
    revealed evs
    = (revealed out + match s with Lost => 1 | _ => 0 end)%nat.
Proof.
  induction input as [|line rest IH]; intros st st' out evs s H.
  - destruct (Z.lt_ge_cases (st_i st) GUESSES) as [Hlt|Hge].
    + rewrite main_loop_wait in H by assumption.
      injection H as <- <- <-. rewrite revealed_app. unfold revealed. simpl. lia.
    + rewrite main_loop_over in H by assumption.
      apply bind_ok in H as (w & _ & H). injection H as <- <- <-.
      rewrite revealed_app. reflexivity.
  - destruct (Z.lt_ge_cases (st_i st) GUESSES) as [Hlt|Hge].
    + cbn [main_loop] in H.
      destruct (Z.ltb_spec (st_i st) GUESSES) as [_|Hge]; [|lia].
      apply bind_ok in H as ([[c st1] evs1] & Hbody & H).
      destruct (loop_body_events _ _ _ _ _ Hbody) as (Hnone & Hc).
      destruct Hc as [->|[->| ->]].
      * apply IH in H. rewrite H, !revealed_app, Hnone. unfold revealed. simpl. lia.
      * injection H as <- <- <-. rewrite !revealed_app, Hnone. unfold revealed. simpl. lia.
      * injection H as <- <- <-. rewrite !revealed_app, Hnone. unfold revealed. simpl. lia.
    + rewrite main_loop_over in H by assumption.
      apply bind_ok in H as (w & _ & H). injection H as <- <- <-.
      rewrite revealed_app. reflexivity.
Qed.

Hypothesis g_ok : corpus_ok g.

Lemma reveal_solution (st : state) (input : list (option cstring))
      (out : list event) :
  GUESSES <= st_i st ->
  main_loop g st input out
  = Ok (Lost, st, out ++ [EvSolution (view (mem g) (solution g))]).
Proof.
  intros Hi. rewrite main_loop_over by assumption.
  destruct g_ok as (_ & (Hp & Hl & Hb) & _ & Hletters).
  unfold view in *. rewrite printf_sv_spec by (auto; lia). reflexivity.
Qed.

Lemma main_loop_misses (misses : list cstring) :
  forall (st : state) (out : list event),
    Forall (miss g) misses ->
    length (st_alphabet st) = Z.to_nat ALPHABET_SZ ->
    st_i st + Z.of_nat (length misses) <= GUESSES ->
    exists st' evs,
      main_loop g st (map Some misses) out = Ok (
        (if st_i st + Z.of_nat (length misses) <? GUESSES
         then Playing (st_i st + Z.of_nat (length misses))
         else Lost),
        st',
        if st_i st + Z.of_nat (length misses) <? GUESSES then evs
        else evs ++ [EvSolution (view (mem g) (solution g))]).
Proof.
  induction misses as [|line rest IH]; intros st out Hall Ha Hi.
  - simpl length in *. rewrite Z.add_0_r in *. simpl map.
    destruct (Z.ltb_spec (st_i st) GUESSES) as [Hlt|Hge].
    + rewrite main_loop_wait by assumption. eauto.
    + rewrite reveal_solution by assumption. eauto.
  - inversion Hall as [|? ? Hmiss Hrest]; subst.
    simpl length in *. simpl map.
    destruct (miss_step g g_ok st line Hmiss Ha) as (a' & cs & Hbody & Ha').
    assert (Hlt : st_i st < GUESSES) by lia.
    rewrite (main_loop_next _ _ _ _ _ _ Hlt Hbody).
    set (st1 := set_i _ _).
    destruct (IH st1 ((out ++ [EvAlphabet (st_alphabet st)]) ++ [EvGuess cs])
                 Hrest Ha' ltac:(subst st1; simpl; lia))
      as (st' & evs & Hrun).
    replace (st_i st1 + Z.of_nat (length rest))
      with (st_i st + Z.of_nat (S (length rest))) in Hrun
      by (subst st1; simpl; lia).
    eauto.
Qed.

End Loop.

(** C5. From the initial state, six valid guesses that all miss the
    solution take the loop through the waiting states [Playing 0] ...
    [Playing 5], none of which has printed the solution, and then to
    [Lost], where the solution is printed once, as the last thing written.
    A game that ends in [Won] or at the end of the input has not printed
    the solution. *)
Theorem six_misses_lose (g : globals) (guesses : list cstring) :
  corpus_ok g ->
  length guesses = 6%nat ->
  Forall (miss g) guesses ->
  (forall k : nat,
      (k < 6)%nat ->
      exists st evs,
        main g (map Some (firstn k guesses))
        = Ok (Playing (Z.of_nat k), st, evs)
        /\ revealed evs = 0%nat)
  /\ (exists st evs,
         main g (map Some guesses)
         = Ok (Lost, st, evs ++ [EvSolution (view (mem g) (solution g))])
         /\ revealed evs = 0%nat)
  /\ (forall (input : list (option cstring)) (s : status) (st : state)
             (evs : list event),
         main g input = Ok (s, st, evs) ->
         s = Won \/ s = EndOfInput ->
         revealed evs = 0%nat).
Proof.
  intros Hg Hlen Hall. split; [|split].
  - intros k Hk.
    assert (Hpre : Forall (miss g) (firstn k guesses)).
    { rewrite <- (firstn_skipn k guesses) in Hall.
      now apply Forall_app in Hall. }
    assert (Hklen : length (firstn k guesses) = k)
      by (rewrite length_firstn; lia).
    destruct (main_loop_misses g Hg (firstn k guesses) initial [] Hpre
                eq_refl)
      as (st & evs & Hrun).
    { rewrite Hklen. unfold GUESSES. simpl. lia. }
    rewrite Hklen in Hrun. simpl st_i in Hrun.
    destruct (Z.ltb_spec (0 + Z.of_nat k) GUESSES) as [_|Hge];
      [|unfold GUESSES in Hge; lia].
    exists st, evs. split; [exact Hrun|].
    apply main_loop_reveals in Hrun. exact Hrun.
  - destruct (main_loop_misses g Hg guesses initial [] Hall eq_refl)
      as (st & evs & Hrun).
    { rewrite Hlen. unfold GUESSES. simpl. lia. }
    rewrite Hlen in Hrun. simpl in Hrun.
    exists st, evs. split; [exact Hrun|].
    apply main_loop_reveals in Hrun. rewrite revealed_app in Hrun.
    unfold revealed in *. simpl in Hrun. lia.
  - intros input s st evs Hrun Hs.
    apply main_loop_reveals in Hrun.
    destruct Hs as [-> | ->]; exact Hrun.
Qed.

Lemma six_misses_lose_witness :
  (forall k : nat,
      (k < 6)%nat ->
      exists st evs,
        main crane_trace (map Some (firstn k (repeat trace 6)))
        = Ok (Playing (Z.of_nat k), st, evs)
        /\ revealed evs = 0%nat)
  /\ (exists st evs,
         main crane_trace (map Some (repeat trace 6))
         = Ok (Lost, st,
               evs ++ [EvSolution (view (mem crane_trace)
                                        (solution crane_trace))])
         /\ revealed evs = 0%nat)
  /\ (forall (input : list (option cstring)) (s : status) (st : state)
             (evs : list event),
         main crane_trace input = Ok (s, st, evs) ->
         s = Won \/ s = EndOfInput ->
         revealed evs = 0%nat).
Proof.
  apply (six_misses_lose crane_trace (repeat trace 6)).
  - unfold corpus_ok. simpl.
    repeat split;
      repeat (constructor; try (vm_compute; split; discriminate));
      try (vm_compute; discriminate); vm_compute; repeat split;
        discriminate.
  - reflexivity.
  - repeat constructor; vm_compute; discriminate.
Defined.

Example won_without_reveal :
  exists st evs,
    main crane_trace [Some trace; Some (list_ascii_of_string "crane")]
    = Ok (Won, st, evs)
    /\ revealed evs = 0%nat.
Proof. eexists. eexists. split; reflexivity. Qed.

Example end_of_input_without_reveal :
  exists st evs,
    main crane_trace [Some trace; None] = Ok (EndOfInput, st, evs)
    /\ revealed evs = 0%nat.
Proof. eexists. eexists. split; reflexivity. Qed.

(** C6 (as the code has it). A line whose text, cut at its first newline,
    does not have [LETTERS] characters or is not in the word list is
    rejected before anything is changed: the loop counter is taken back
    to its value, the alphabet and [y] are untouched, and the game waits
    for the next line in the same [Playing] state. A non-empty line is
    reported as "Wrong length" or "Not in word list"; an empty line is
    skipped without a message. *)
Theorem rejected_line_keeps_state (g : globals) (st : state) (line : cstring)
        (rest : list (option cstring)) (out : list event) :
  st_i st < GUESSES ->
  strlen (chomp line) <> LETTERS \/ valid g (chomp line) = Ok false ->
  exists evs,
    loop_body g st (Some line) = Ok (Next, set_i st (st_i st - 1), evs)
    /\ (strlen line = 0 -> evs = [])
    /\ (strlen line <> 0 -> strlen (chomp line) <> LETTERS ->
        evs = [EvMisinput "Wrong length"])
    /\ (strlen line <> 0 -> strlen (chomp line) = LETTERS ->
        evs = [EvMisinput "Not in word list"])
    /\ main_loop g st (Some line :: rest) out
       = main_loop g st rest (out ++ [EvAlphabet (st_alphabet st)] ++ evs)
    /\ main_loop g st [Some line] out
       = Ok (Playing (st_i st), st,
             out ++ [EvAlphabet (st_alphabet st)] ++ evs
                 ++ [EvAlphabet (st_alphabet st)]).
Proof.
  intros Hi Hrej.
  assert (Hbody : exists evs,
             loop_body g st (Some line)
             = Ok (Next, set_i st (st_i st - 1), evs)
             /\ (strlen line = 0 -> evs = [])
             /\ (strlen line <> 0 -> strlen (chomp line) <> LETTERS ->
                 evs = [EvMisinput "Wrong length"])
             /\ (strlen line <> 0 -> strlen (chomp line) = LETTERS ->
                 evs = [EvMisinput "Not in word list"])).
  { unfold loop_body.
    destruct (Z.eqb_spec (strlen line) 0) as [Hz|Hnz].
    { exists []. repeat split; auto; intros; contradiction. }
    destruct (Z.eqb_spec (strlen (chomp line)) LETTERS) as [Hfive|Hlen];
      cbn [negb].
    - destruct Hrej as [Hrej|Hrej]; [contradiction|].
      rewrite Hrej. cbn [bind negb].
      exists [EvMisinput "Not in word list"].
      repeat split; auto; intros; contradiction.
    - exists [EvMisinput "Wrong length"].
      repeat split; auto; intros; contradiction. }
  destruct Hbody as (evs & Hbody & Hempty & Hwrong & Hunknown).
  exists evs. repeat split; auto.
  - rewrite (main_loop_next g _ _ _ _ _ _ Hi Hbody).
    now rewrite set_i_back, <- app_assoc.
  - rewrite (main_loop_next g _ _ _ _ _ _ Hi Hbody).
    rewrite set_i_back, main_loop_wait by assumption.
    now rewrite <- !app_assoc.
Qed.

Lemma rejected_line_keeps_state_witness :
  exists evs,
    loop_body crane_trace initial (Some (list_ascii_of_string "cran"))
    = Ok (Next, set_i initial (st_i initial - 1), evs)
    /\ (strlen (list_ascii_of_string "cran") = 0 -> evs = [])
    /\ (strlen (list_ascii_of_string "cran") <> 0 ->
        strlen (chomp (list_ascii_of_string "cran")) <> LETTERS ->
        evs = [EvMisinput "Wrong length"])
    /\ (strlen (list_ascii_of_string "cran") <> 0 ->
        strlen (chomp (list_ascii_of_string "cran")) = LETTERS ->
        evs = [EvMisinput "Not in word list"])
    /\ main_loop crane_trace initial
                 [Some (list_ascii_of_string "cran")] []
       = main_loop crane_trace initial []
                   ([] ++ [EvAlphabet (st_alphabet initial)] ++ evs)
    /\ main_loop crane_trace initial
                 [Some (list_ascii_of_string "cran")] []
       = Ok (Playing (st_i initial), initial,
             [] ++ [EvAlphabet (st_alphabet initial)] ++ evs
                ++ [EvAlphabet (st_alphabet initial)]).
Proof.
  apply (rejected_line_keeps_state crane_trace initial
           (list_ascii_of_string "cran") [] []).
  - reflexivity.
  - left. vm_compute. discriminate.
Defined.

Example unknown_word_rejected :
  main crane_trace [Some (list_ascii_of_string "slate")]
  = Ok (Playing 0, initial,
        [EvAlphabet init_alphabet; EvMisinput "Not in word list";
         EvAlphabet init_alphabet]).
Proof. reflexivity. Qed.

(** The claim as the specification words it fails on the empty line: its
    length differs from [LETTERS], yet the loop skips it without the
    "Wrong length" message. *)
Lemma empty_line_unclassified :
  strlen [] <> LETTERS
  /\ loop_body crane_trace initial (Some [])
     = Ok (Next, set_i initial (st_i initial - 1), [])
  /\ main crane_trace [Some []]
     = Ok (Playing 0, initial,
           [EvAlphabet init_alphabet; EvAlphabet init_alphabet])
  /\ ~ In (EvMisinput "Wrong length")
          [EvAlphabet init_alphabet; EvAlphabet init_alphabet].
Proof.
  split; [vm_compute; discriminate|]. split; [reflexivity|].
  split; [reflexivity|]. simpl. intros [H|[H|[]]]; discriminate.
Qed.

(** * Further properties of sv.h *)

Lemma sub_view (m : memory) (s : sv) (a k : Z) :
  sv_ok m s -> 0 <= a -> 0 <= k -> a + k <= len s ->
  view m {| len := k; ptr := ptr s + a |}
  = firstn (Z.to_nat k) (skipn (Z.to_nat a) (view m s)).
Proof.
  intros (Hp & Hl & Hb) Ha Hk Hak. unfold view. simpl.
  rewrite skipn_firstn_comm, firstn_firstn, skipn_skipn.
  f_equal; [lia|]. f_equal. lia.
Qed.

(** X1. [sv_chopl] drops the first [n] bytes of the view and nothing else;
    with [n] at or above the length the view becomes empty. *)
Theorem sv_chopl_drops (m : memory) (n : Z) (s : sv) :
  sv_ok m s -> len s <= SizeT.SIZE_MAX -> 0 <= n ->
  sv_ok m (sv_chopl n s)
  /\ within (sv_chopl n s) s
  /\ len (sv_chopl n s) = Z.max 0 (len s - n)
  /\ view m (sv_chopl n s) = skipn (Z.to_nat n) (view m s).
Proof.
  intros Hok Hmax Hn. pose proof Hok as (Hp & Hl & Hb).
  pose proof (view_length m s Hok) as Hvl.
  unfold sv_chopl.
  destruct (Z.eqb_spec n 0) as [->|Hn0].
  { repeat split; auto; try lia. right. lia. }
  destruct (Z.geb_spec n (len s)) as [Hge|Hlt].
  - split; [unfold sv_ok; simpl; lia|]. split; [now left|].
    split; [simpl; lia|].
    rewrite skipn_all2 by lia. reflexivity.
  - assert (Hw : SizeT.sub (len s) n = len s - n).
    { apply wrap_small. unfold SizeT.in_range, SizeT.SIZE_MAX in *. lia. }
    rewrite Hw.
    split; [unfold sv_ok; simpl; lia|]. split; [right; simpl; lia|].
    split; [simpl; lia|].
    rewrite sub_view by (auto; lia).
    apply firstn_all2. rewrite length_skipn. lia.
Qed.

Lemma sv_chopl_drops_witness :
  sv_ok hello_world (sv_chopl 6 (whole hello_world))
  /\ within (sv_chopl 6 (whole hello_world)) (whole hello_world)
  /\ len (sv_chopl 6 (whole hello_world))
     = Z.max 0 (len (whole hello_world) - 6)
  /\ view hello_world (sv_chopl 6 (whole hello_world))
     = skipn (Z.to_nat 6) (view hello_world (whole hello_world)).
Proof.
  apply (sv_chopl_drops hello_world 6 (whole hello_world)).
  - unfold sv_ok. simpl. lia.
  - vm_compute. discriminate.
  - lia.
Defined.

(** X2. [sv_chopr] drops the last [n] bytes of the view and nothing else;
    with [n] at or above the length the view becomes empty. *)
Theorem sv_chopr_drops (m : memory) (n : Z) (s : sv) :
  sv_ok m s -> len s <= SizeT.SIZE_MAX -> 0 <= n ->
  sv_ok m (sv_chopr n s)
  /\ within (sv_chopr n s) s
  /\ len (sv_chopr n s) = Z.max 0 (len s - n)
  /\ view m (sv_chopr n s) = firstn (Z.to_nat (len s - n)) (view m s).
Proof.
  intros Hok Hmax Hn. pose proof Hok as (Hp & Hl & Hb).
  pose proof (view_length m s Hok) as Hvl.
  unfold sv_chopr.
  destruct (Z.eqb_spec n 0) as [->|Hn0].
  { split; [assumption|]. split; [right; lia|]. split; [lia|].
    rewrite firstn_all2 by lia. reflexivity. }
  destruct (Z.geb_spec n (len s)) as [Hge|Hlt].
  - split; [unfold sv_ok; simpl; lia|]. split; [now left|].
    split; [simpl; lia|].
    replace (Z.to_nat (len s - n)) with 0%nat by lia. reflexivity.
  - assert (Hw : SizeT.sub (len s) n = len s - n).
    { apply wrap_small. unfold SizeT.in_range, SizeT.SIZE_MAX in *. lia. }
    rewrite Hw.
    split; [unfold sv_ok; simpl; lia|]. split; [right; simpl; lia|].
    split; [simpl; lia|].
    unfold view. simpl. rewrite firstn_firstn. f_equal. lia.
Qed.

Lemma sv_chopr_drops_witness :
  sv_ok hello_world (sv_chopr 6 (whole hello_world))
  /\ within (sv_chopr 6 (whole hello_world)) (whole hello_world)
  /\ len (sv_chopr 6 (whole hello_world))
     = Z.max 0 (len (whole hello_world) - 6)
  /\ view hello_world (sv_chopr 6 (whole hello_world))
     = firstn (Z.to_nat (len (whole hello_world) - 6))
              (view hello_world (whole hello_world)).
Proof.
  apply (sv_chopr_drops hello_world 6 (whole hello_world)).
  - unfold sv_ok. simpl. lia.
  - vm_compute. discriminate.
  - lia.
Defined.

Lemma sv_substr_firstn_skipn (m : memory) (beg n : Z) (s : sv) :
  sv_ok m s -> len s <= SizeT.SIZE_MAX ->
  SizeT.in_range beg -> SizeT.in_range n ->
  n = SV_END_POS \/ beg + n <= SizeT.SIZE_MAX ->
  within (sv_substr beg n s) s
  /\ view m (sv_substr beg n s)
     = firstn (Z.to_nat n) (skipn (Z.to_nat beg) (view m s)).
Proof.
  intros Hok Hmax Hbeg Hn Hnw. pose proof Hok as (Hp & Hl & Hb).
  pose proof (view_length m s Hok) as Hvl.
  assert (Hlr : SizeT.in_range (len s))
    by (unfold SizeT.in_range, SizeT.SIZE_MAX in *; lia).
  destruct (sv_substr_no_wrap beg n s Hbeg Hn Hlr Hnw)
    as (Hempty & Hclamp & Hfit & Hin).
  split; [exact Hin|].
  unfold SizeT.in_range, SV_END_POS, SizeT.SIZE_MAX in *.
  destruct (Z.eq_dec n 0) as [Hn0|Hn0].
  { rewrite Hempty by auto. subst n. reflexivity. }
  destruct (Z_gt_dec beg (len s)) as [Hgt|Hle].
  { rewrite Hempty by auto. rewrite skipn_all2 by lia.
    now rewrite firstn_nil. }
  assert (Hcases : (n = SizeT.modulus - 1 \/ beg + n > len s)
                   \/ (n <> SizeT.modulus - 1 /\ beg + n <= len s)) by lia.
  destruct Hcases as [Hc|[Hc1 Hc2]].
  - rewrite Hclamp by (auto; lia).
    rewrite sub_view by (auto; lia).
    rewrite !firstn_all2; auto; rewrite length_skipn; lia.
  - rewrite Hfit by (auto; lia).
    apply sub_view; auto; lia.
Qed.

(** X3. When [beg + n] does not wrap (or [n] is SV_END_POS), the view
    returned by [sv_substr] holds the [n] bytes that follow the first
    [beg] bytes of the original view, as many of them as there are. *)
Theorem sv_substr_view (m : memory) (beg n : Z) (s : sv) :
  sv_ok m s -> len s <= SizeT.SIZE_MAX ->
  SizeT.in_range beg -> SizeT.in_range n ->
  n = SV_END_POS \/ beg + n <= SizeT.SIZE_MAX ->
  within (sv_substr beg n s) s
  /\ view m (sv_substr beg n s)
     = firstn (Z.to_nat n) (skipn (Z.to_nat beg) (view m s)).
Proof.
  intros Hok Hmax Hbeg Hn Hnw.
  exact (sv_substr_firstn_skipn m beg n s Hok Hmax Hbeg Hn Hnw).
Qed.

Lemma sv_substr_view_witness :
  within (sv_substr 6 SV_END_POS (whole hello_world)) (whole hello_world)
  /\ view hello_world (sv_substr 6 SV_END_POS (whole hello_world))
     = firstn (Z.to_nat SV_END_POS)
              (skipn (Z.to_nat 6) (view hello_world (whole hello_world))).
Proof.
  apply (sv_substr_view hello_world 6 SV_END_POS (whole hello_world)).
  - unfold sv_ok. simpl. lia.
  - vm_compute. discriminate.
  - unfold SizeT.in_range. vm_compute. split; [discriminate|reflexivity].
  - unfold SizeT.in_range. vm_compute. split; [discriminate|reflexivity].
  - now left.
Defined.

Section Idx.

Variable m : memory.
Variable c : ascii.
Variable s : sv.

Hypothesis s_ok : sv_ok m s.
Hypothesis s_len : len s <= SizeT.SIZE_MAX.

Lemma idx_loop_spec (fuel : nat) :
  forall i : Z,
    0 <= i <= len s ->
    (Z.to_nat (len s - i) < fuel)%nat ->
    (forall k, 0 <= k < i -> byte_at (view m s) k <> c) ->
    exists r,
      idx_loop fuel m c s i = Ok r
      /\ ((r = SV_END_POS /\ ~ In c (view m s))
          \/ (0 <= r < len s /\ byte_at (view m s) r = c
              /\ forall k, 0 <= k < r -> byte_at (view m s) k <> c)).
Proof.
  induction fuel as [|fuel IH]; intros i Hi Hfuel Hbefore; [lia|].
  simpl. destruct (Z.ltb_spec i (len s)) as [Hlt|Hge].
  - rewrite load_view by (auto; lia). cbn [bind].
    destruct (Ascii.eqb_spec (byte_at (view m s) i) c) as [Heq|Hne].
    + exists i. split; [reflexivity|]. right. repeat split; auto; lia.
    + assert (Hw : SizeT.add i 1 = i + 1).
      { apply wrap_small. unfold SizeT.in_range, SizeT.SIZE_MAX in *. lia. }
      rewrite Hw. apply IH; try lia.
      intros k Hk. destruct (Z.eq_dec k i) as [->|Hki]; [exact Hne|].
      apply Hbefore. lia.
  - exists SV_END_POS. split; [reflexivity|]. left. split; [reflexivity|].
    intros Hin. apply in_view_byte_at in Hin as (k & Hk & Hkc).
    rewrite view_length in Hk by assumption.
    apply (Hbefore k); [lia | exact Hkc].
Qed.

End Idx.

(** X4. [sv_idx] returns the smallest index of the view that holds [c],
    or SV_END_POS when no byte of the view is [c]; it reads no byte
    outside the memory. *)
Theorem sv_idx_first (m : memory) (c : ascii) (s : sv) :
  sv_ok m s -> len s <= SizeT.SIZE_MAX ->
  exists r,
    sv_idx m c s = Ok r
    /\ ((r = SV_END_POS /\ ~ In c (view m s))
        \/ (0 <= r < len s /\ byte_at (view m s) r = c
            /\ forall k, 0 <= k < r -> byte_at (view m s) k <> c)).
Proof.
  intros Hok Hmax. pose proof Hok as (Hp & Hl & Hb).
  apply idx_loop_spec; auto; try lia.
Qed.

Lemma sv_idx_first_witness :
  exists r,
    sv_idx hello_world "o"%char (whole hello_world) = Ok r
    /\ ((r = SV_END_POS
         /\ ~ In "o"%char (view hello_world (whole hello_world)))
        \/ (0 <= r < len (whole hello_world)
            /\ byte_at (view hello_world (whole hello_world)) r = "o"%char
            /\ forall k, 0 <= k < r ->
                         byte_at (view hello_world (whole hello_world)) k
                         <> "o"%char)).
Proof.
  apply (sv_idx_first hello_world "o"%char (whole hello_world)).
  - unfold sv_ok. simpl. lia.
  - vm_compute. discriminate.
Defined.

Example sv_idx_hello :
  sv_idx hello_world "o"%char (whole hello_world) = Ok 4
  /\ sv_idx hello_world "z"%char (whole hello_world) = Ok SV_END_POS.
Proof. split; reflexivity. Qed.

(** *** Searching for a view *)

Lemma memcmp_eq_views (m : memory) (s1 s2 : sv) :
  sv_ok m s1 -> sv_ok m s2 -> len s1 = len s2 ->
  exists b,
    memcmp_eq m (ptr s1) (ptr s2) (Z.to_nat (len s1)) = Ok b
    /\ (b = true <-> view m s1 = view m s2).
Proof.
  intros H1 H2 Hlen. unfold memcmp_eq.
  rewrite (load_range_view m s1 H1). cbn [bind].
  rewrite Hlen, (load_range_view m s2 H2). cbn [bind].
  eexists. split; [reflexivity|]. apply bytes_eqb_eq.
Qed.

Section Search.

Variable m : memory.
Variables search s : sv.

Hypothesis s_ok : sv_ok m s.
Hypothesis search_ok : sv_ok m search.
Hypothesis s_len : len s <= SizeT.SIZE_MAX.
Hypothesis search_len : 1 <= len search <= len s.

Lemma memcmp_at (i : Z) :
  0 <= i -> i + len search <= len s ->
  exists b,
    memcmp_eq m (ptr s + i) (ptr search) (Z.to_nat (len search)) = Ok b
    /\ (b = true <-> match_at m search s i).
Proof.
  intros Hi Hfit.
  destruct (memcmp_eq_views m {| len := len search; ptr := ptr s + i |}
                            search)
    as (b & Hb & Hiff); auto.
  { apply sub_view_ok; auto; lia. }
  exists b. split; [exact Hb|]. unfold match_at. rewrite Hiff.
  split; [auto | now intros (_ & _ & H)].
Qed.

Lemma first_bytes_differ (i : Z) :
  0 <= i -> i + len search <= len s ->
  byte_at (view m s) i <> byte_at (view m search) 0 ->
  ~ match_at m search s i.
Proof.
  intros Hi Hfit Hne (_ & _ & Hv). apply Hne.
  rewrite <- Hv. rewrite sub_view_byte_at by (auto; lia).
  f_equal. lia.
Qed.

Lemma idx_long_loop_spec (fuel : nat) :
  forall i : Z,
    0 <= i <= len s - len search + 1 ->
    (Z.to_nat (len s - len search + 1 - i) < fuel)%nat ->
    (forall k, 0 <= k < i -> ~ match_at m search s k) ->
    exists r,
      idx_long_loop fuel m search s i = Ok r
      /\ ((r = SV_END_POS /\ forall k, ~ match_at m search s k)
          \/ (match_at m search s r
              /\ forall k, 0 <= k < r -> ~ match_at m search s k)).
Proof.
  assert (Hbound : SizeT.add (SizeT.sub (len s) (len search)) 1
                   = len s - len search + 1).
  { unfold SizeT.add, SizeT.sub.
    rewrite (wrap_small (len s - len search))
      by (unfold SizeT.in_range, SizeT.SIZE_MAX in *; lia).
    apply wrap_small. unfold SizeT.in_range, SizeT.SIZE_MAX in *. lia. }
  induction fuel as [|fuel IH]; intros i Hi Hfuel Hbefore; [lia|].
  cbn [idx_long_loop]. rewrite Hbound.
  destruct (Z.ltb_spec i (len s - len search + 1)) as [Hlt|Hge].
  - rewrite load_view by (auto; lia). cbn [bind].
    rewrite (load_view m search 0) by (auto; lia). cbn [bind].
    assert (Hw : SizeT.add i 1 = i + 1).
    { apply wrap_small. unfold SizeT.in_range, SizeT.SIZE_MAX in *. lia. }
    rewrite Hw.
    assert (Hnext : ~ match_at m search s i ->
              exists r,
                idx_long_loop fuel m search s (i + 1) = Ok r
                /\ ((r = SV_END_POS /\ forall k, ~ match_at m search s k)
                    \/ (match_at m search s r
                        /\ forall k, 0 <= k < r -> ~ match_at m search s k))).
    { intros Hno. apply IH; try lia.
      intros k Hk. destruct (Z.eq_dec k i) as [->|Hki]; [exact Hno|].
      apply Hbefore. lia. }
    destruct (Ascii.eqb_spec (byte_at (view m s) i)
                             (byte_at (view m search) 0)) as [Heq|Hne].
    + destruct (memcmp_at i) as (b & -> & Hiff); try lia. cbn [bind].
      destruct b.
      * exists i. split; [reflexivity|]. right. split; [now apply Hiff|].
        exact Hbefore.
      * apply Hnext. intros Hm. apply Hiff in Hm. discriminate.
    + apply Hnext. apply first_bytes_differ; auto; lia.
  - exists SV_END_POS. split; [reflexivity|]. left. split; [reflexivity|].
    intros k Hm. pose proof Hm as (Hk0 & Hkfit & _).
    apply (Hbefore k); [lia | exact Hm].
Qed.

Lemma last_idx_long_loop_spec (fuel : nat) :
  forall i : Z,
    0 <= i <= len s - len search ->
    (Z.to_nat i + 1 < fuel)%nat ->
    (forall k, i < k -> ~ match_at m search s k) ->
    exists r,
      last_idx_long_loop fuel m search s i = Ok r
      /\ ((r = SV_END_POS /\ forall k, ~ match_at m search s k)
          \/ (match_at m search s r
              /\ forall k, r < k -> ~ match_at m search s k)).
Proof.
  induction fuel as [|fuel IH]; intros i Hi Hfuel Hafter; [lia|].
  cbn [last_idx_long_loop].
  destruct (Z.ltb_spec i (len s)) as [_|Hge]; [|lia].
  rewrite load_view by (auto; lia). cbn [bind].
  rewrite (load_view m search 0) by (auto; lia). cbn [bind].
  assert (Hnext : ~ match_at m search s i ->
            exists r,
              last_idx_long_loop fuel m search s (SizeT.sub i 1) = Ok r
              /\ ((r = SV_END_POS /\ forall k, ~ match_at m search s k)
                  \/ (match_at m search s r
                      /\ forall k, r < k -> ~ match_at m search s k))).
  { intros Hno.
    assert (Hall : forall k, i - 1 < k -> ~ match_at m search s k).
    { intros k Hk. destruct (Z.eq_dec k i) as [->|Hki]; [exact Hno|].
      apply Hafter. lia. }
    destruct (Z.eq_dec i 0) as [->|Hpos].
    - change (SizeT.sub 0 1) with SizeT.SIZE_MAX.
      destruct fuel as [|fuel]; [lia|]. cbn [last_idx_long_loop].
      destruct (Z.ltb_spec SizeT.SIZE_MAX (len s)) as [Hlt|_]; [lia|].
      exists SV_END_POS. split; [reflexivity|]. left.
      split; [reflexivity|]. intros k Hm. pose proof Hm as (Hk0 & _).
      apply (Hall k); [lia | exact Hm].
    - assert (Hw : SizeT.sub i 1 = i - 1).
      { apply wrap_small. unfold SizeT.in_range, SizeT.SIZE_MAX in *. lia. }
      rewrite Hw. apply IH; try lia. exact Hall. }
  destruct (Ascii.eqb_spec (byte_at (view m s) i)
                           (byte_at (view m search) 0)) as [Heq|Hne].
  - destruct (memcmp_at i) as (b & -> & Hiff); try lia. cbn [bind].
    destruct b.
    + exists i. split; [reflexivity|]. right. split; [now apply Hiff|].
      exact Hafter.
    + apply Hnext. intros Hm. apply Hiff in Hm. discriminate.
  - apply Hnext. apply first_bytes_differ; auto; lia.
Qed.

End Search.

(** X5. [sv_idx_long] answers SV_END_POS for an empty [search]; for a
    non-empty one it returns the smallest index at which [search] occurs
    in the view, or SV_END_POS when it occurs nowhere (in particular when
    it is longer than the view); it reads no byte outside the memory. *)
Theorem sv_idx_long_leftmost (m : memory) (search s : sv) :
  sv_ok m s -> sv_ok m search -> len s <= SizeT.SIZE_MAX ->
  exists r,
    sv_idx_long m search s = Ok r
    /\ (len search = 0 -> r = SV_END_POS)
    /\ (len search <> 0 ->
        (r = SV_END_POS /\ forall k, ~ match_at m search s k)
        \/ (match_at m search s r
            /\ forall k, 0 <= k < r -> ~ match_at m search s k)).
Proof.
  intros Hs Hsearch Hmax. unfold sv_idx_long.
  pose proof Hs as (_ & Hl & _). pose proof Hsearch as (_ & Hl' & _).
  destruct (Z.eqb_spec (len search) 0) as [Hz|Hnz]; cbn [orb].
  { exists SV_END_POS. split; [reflexivity|]. split; [auto|].
    intros; contradiction. }
  destruct (Z.gtb_spec (len search) (len s)) as [Hlong|Hfit].
  { exists SV_END_POS. split; [reflexivity|]. split; [intros; lia|].
    intros _. left. split; [reflexivity|].
    intros k (Hk & Hkfit & _). lia. }
  destruct (idx_long_loop_spec m search s Hs Hsearch Hmax ltac:(lia)
              (S (Z.to_nat (len s))) 0)
    as (r & Hrun & Hres); try lia.
  exists r. split; [exact Hrun|]. split; [intros; lia|]. auto.
Qed.

Lemma sv_idx_long_leftmost_witness :
  exists r,
    sv_idx_long hello_world {| len := 1; ptr := 2 |} (whole hello_world)
    = Ok r
    /\ (len {| len := 1; ptr := 2 |} = 0 -> r = SV_END_POS)
    /\ (len {| len := 1; ptr := 2 |} <> 0 ->
        (r = SV_END_POS
         /\ forall k, ~ match_at hello_world {| len := 1; ptr := 2 |}
                                 (whole hello_world) k)
        \/ (match_at hello_world {| len := 1; ptr := 2 |}
                     (whole hello_world) r
            /\ forall k, 0 <= k < r ->
                         ~ match_at hello_world {| len := 1; ptr := 2 |}
                                    (whole hello_world) k)).
Proof.
  apply (sv_idx_long_leftmost hello_world {| len := 1; ptr := 2 |}
                              (whole hello_world)).
  - unfold sv_ok. simpl. lia.
  - unfold sv_ok. simpl. lia.
  - vm_compute. discriminate.
Defined.

(** X6. [sv_last_idx_long] answers SV_END_POS for an empty [search]; for
    a non-empty one it returns the largest index at which [search] occurs
    in the view, or SV_END_POS when it occurs nowhere; its counter wraps
    below 0 and ends the loop, and no byte outside the memory is read. *)
Theorem sv_last_idx_long_rightmost (m : memory) (search s : sv) :
  sv_ok m s -> sv_ok m search -> len s <= SizeT.SIZE_MAX ->
  exists r,
    sv_last_idx_long m search s = Ok r
    /\ (len search = 0 -> r = SV_END_POS)
    /\ (len search <> 0 ->
        (r = SV_END_POS /\ forall k, ~ match_at m search s k)
        \/ (match_at m search s r
            /\ forall k, r < k -> ~ match_at m search s k)).
Proof.
  intros Hs Hsearch Hmax. unfold sv_last_idx_long.
  pose proof Hs as (_ & Hl & _). pose proof Hsearch as (_ & Hl' & _).
  destruct (Z.eqb_spec (len search) 0) as [Hz|Hnz]; cbn [orb].
  { exists SV_END_POS. split; [reflexivity|]. split; [auto|].
    intros; contradiction. }
  destruct (Z.gtb_spec (len search) (len s)) as [Hlong|Hfit].
  { exists SV_END_POS. split; [reflexivity|]. split; [intros; lia|].
    intros _. left. split; [reflexivity|].
    intros k (Hk & Hkfit & _). lia. }
  assert (Hw : SizeT.sub (len s) (len search) = len s - len search).
  { apply wrap_small. unfold SizeT.in_range, SizeT.SIZE_MAX in *. lia. }
  rewrite Hw.
  destruct (last_idx_long_loop_spec m search s Hs Hsearch Hmax ltac:(lia)
              (S (Z.to_nat (len s))) (len s - len search))
    as (r & Hrun & Hres); try lia.
  { intros k Hk (_ & Hkfit & _). lia. }
  exists r. split; [exact Hrun|]. split; [intros; lia|]. auto.
Qed.

Lemma sv_last_idx_long_rightmost_witness :
  exists r,
    sv_last_idx_long hello_world {| len := 1; ptr := 2 |}
                     (whole hello_world) = Ok r
    /\ (len {| len := 1; ptr := 2 |} = 0 -> r = SV_END_POS)
    /\ (len {| len := 1; ptr := 2 |} <> 0 ->
        (r = SV_END_POS
         /\ forall k, ~ match_at hello_world {| len := 1; ptr := 2 |}
                                 (whole hello_world) k)
        \/ (match_at hello_world {| len := 1; ptr := 2 |}
                     (whole hello_world) r
            /\ forall k, r < k ->
                         ~ match_at hello_world {| len := 1; ptr := 2 |}
                                    (whole hello_world) k)).
Proof.
  apply (sv_last_idx_long_rightmost hello_world {| len := 1; ptr := 2 |}
                                    (whole hello_world)).
  - unfold sv_ok. simpl. lia.
  - unfold sv_ok. simpl. lia.
  - vm_compute. discriminate.
Defined.

Example sv_idx_long_hello :
  sv_idx_long hello_world {| len := 1; ptr := 2 |} (whole hello_world)
  = Ok 2
  /\ sv_last_idx_long hello_world {| len := 1; ptr := 2 |}
                      (whole hello_world) = Ok 9
  /\ sv_idx_long hello_world {| len := 0; ptr := 2 |} (whole hello_world)
     = Ok SV_END_POS.
Proof. repeat split. Qed.

(** *** Comparing views *)

Lemma views_differ_in_length (m : memory) (s1 s2 : sv) :
  sv_ok m s1 -> sv_ok m s2 -> len s1 <> len s2 -> view m s1 <> view m s2.
Proof.
  intros H1 H2 Hne Hv.
  pose proof (view_length m s1 H1) as L1.
  pose proof (view_length m s2 H2) as L2.
  destruct H1 as (_ & A & _), H2 as (_ & B & _).
  rewrite Hv in L1. lia.
Qed.

Lemma sv_eq_spec (m : memory) (s1 s2 : sv) :
  sv_ok m s1 -> sv_ok m s2 ->
  exists b, sv_eq m s1 s2 = Ok b /\ (b = true <-> view m s1 = view m s2).
Proof.
  intros H1 H2. unfold sv_eq.
  destruct (Z.eqb_spec (len s1) (len s2)) as [Hlen|Hlen]; cbn [negb].
  - destruct (Z.eqb_spec (ptr s1) (ptr s2)) as [Hptr|Hptr].
    + exists true. split; [reflexivity|]. split; [|reflexivity].
      intros _. destruct s1, s2. simpl in *. now subst.
    + now apply memcmp_eq_views.
  - exists false. split; [reflexivity|]. split; [discriminate|].
    intros Hv. now apply views_differ_in_length in Hv.
Qed.

(** X7. [sv_eq] is true exactly when the two views hold the same bytes,
    wherever they point. *)
Theorem sv_eq_same_bytes (m : memory) (s1 s2 : sv) :
  sv_ok m s1 -> sv_ok m s2 ->
  exists b, sv_eq m s1 s2 = Ok b /\ (b = true <-> view m s1 = view m s2).
Proof.
  intros H1 H2. exact (sv_eq_spec m s1 s2 H1 H2).
Qed.

Lemma sv_eq_same_bytes_witness :
  exists b,
    sv_eq hello_world {| len := 1; ptr := 2 |} {| len := 1; ptr := 3 |}
    = Ok b
    /\ (b = true <-> view hello_world {| len := 1; ptr := 2 |}
                     = view hello_world {| len := 1; ptr := 3 |}).
Proof.
  apply (sv_eq_same_bytes hello_world).
  - unfold sv_ok. simpl. lia.
  - unfold sv_ok. simpl. lia.
Defined.

(** X8. [sv_cstr_eq] is true exactly when the string has the bytes of the
    view. *)
Theorem sv_cstr_eq_same_bytes (m : memory) (s : sv) (cstr : cstring) :
  sv_ok m s ->
  exists b, sv_cstr_eq m s cstr = Ok b /\ (b = true <-> view m s = cstr).
Proof.
  intros Hok. destruct (sv_cstr_eq_spec m s cstr Hok) as (b & Hb & Hiff).
  exists b. split; [exact Hb | exact Hiff].
Qed.

Lemma sv_cstr_eq_same_bytes_witness :
  exists b,
    sv_cstr_eq hello_world {| len := 5; ptr := 0 |}
               (list_ascii_of_string "hello") = Ok b
    /\ (b = true <-> view hello_world {| len := 5; ptr := 0 |}
                     = list_ascii_of_string "hello").
Proof.
  apply (sv_cstr_eq_same_bytes hello_world).
  unfold sv_ok. simpl. lia.
Defined.

(** X9. [sv_starts_with] is true exactly when the bytes of [start] are a
    prefix of the bytes of the view. *)
Theorem sv_starts_with_prefix (m : memory) (start s : sv) :
  sv_ok m start -> sv_ok m s ->
  exists b,
    sv_starts_with m start s = Ok b
    /\ (b = true <-> exists rest, view m s = view m start ++ rest).
Proof.
  intros Hst Hs. unfold sv_starts_with.
  pose proof (view_length m start Hst) as Lst.
  pose proof (view_length m s Hs) as Ls.
  pose proof Hst as (_ & Hl' & _). pose proof Hs as (Hp & Hl & Hb).
  destruct (Z.gtb_spec (len start) (len s)) as [Hlong|Hfit].
  - exists false. split; [reflexivity|]. split; [discriminate|].
    intros (rest & Hv). rewrite Hv, length_app in Ls. lia.
  - assert (Hsub : sv_ok m (sv_from_data (ptr s) (len start)))
      by (unfold sv_ok, sv_from_data; simpl; lia).
    destruct (sv_eq_spec m start _ Hst Hsub) as (b & Hb' & Hiff).
    exists b. split; [exact Hb'|]. rewrite Hiff.
    assert (Hpre : view m (sv_from_data (ptr s) (len start))
                   = firstn (Z.to_nat (len start)) (view m s)).
    { unfold view, sv_from_data. simpl. rewrite firstn_firstn.
      f_equal. lia. }
    rewrite Hpre. split.
    + intros Hv. exists (skipn (Z.to_nat (len start)) (view m s)).
      rewrite Hv at 1. now rewrite firstn_skipn.
    + intros (rest & Hv). rewrite Hv, <- Lst.
      now rewrite firstn_app, Nat.sub_diag, firstn_all, app_nil_r.
Qed.

Lemma sv_starts_with_prefix_witness :
  exists b,
    sv_starts_with hello_world {| len := 4; ptr := 0 |} (whole hello_world)
    = Ok b
    /\ (b = true <->
        exists rest,
          view hello_world (whole hello_world)
          = view hello_world {| len := 4; ptr := 0 |} ++ rest).
Proof.
  apply (sv_starts_with_prefix hello_world).
  - unfold sv_ok. simpl. lia.
  - unfold sv_ok. simpl. lia.
Defined.

(** X10. [sv_ends_with] is true exactly when the bytes of [end_] are a
    suffix of the bytes of the view. *)
Theorem sv_ends_with_suffix (m : memory) (end_ s : sv) :
  sv_ok m end_ -> sv_ok m s ->
  exists b,
    sv_ends_with m end_ s = Ok b
    /\ (b = true <-> exists front, view m s = front ++ view m end_).
Proof.
  intros He Hs. unfold sv_ends_with.
  pose proof (view_length m end_ He) as Le.
  pose proof (view_length m s Hs) as Ls.
  pose proof He as (_ & Hl' & _). pose proof Hs as (Hp & Hl & Hb).
  destruct (Z.gtb_spec (len end_) (len s)) as [Hlong|Hfit].
  - exists false. split; [reflexivity|]. split; [discriminate|].
    intros (front & Hv). rewrite Hv, length_app in Ls. lia.
  - assert (Hsub : sv_ok m (sv_from_data (ptr s + len s - len end_)
                                        (len end_)))
      by (unfold sv_ok, sv_from_data; simpl; lia).
    destruct (sv_eq_spec m end_ _ He Hsub) as (b & Hb' & Hiff).
    exists b. split; [exact Hb'|]. rewrite Hiff.
    assert (Hsuf : view m (sv_from_data (ptr s + len s - len end_)
                                       (len end_))
                   = skipn (Z.to_nat (len s - len end_)) (view m s)).
    { unfold sv_from_data.
      replace (ptr s + len s - len end_)
        with (ptr s + (len s - len end_)) by lia.
      rewrite sub_view by (auto; lia).
      apply firstn_all2. rewrite length_skipn. lia. }
    rewrite Hsuf. split.
    + intros Hv. exists (firstn (Z.to_nat (len s - len end_)) (view m s)).
      rewrite Hv. now rewrite firstn_skipn.
    + intros (front & Hv).
      assert (Lf : length front = Z.to_nat (len s - len end_)).
      { rewrite Hv, length_app in Ls. lia. }
      rewrite Hv, <- Lf.
      now rewrite skipn_app, Nat.sub_diag, skipn_all.
Qed.

Lemma sv_ends_with_suffix_witness :
  exists b,
    sv_ends_with hello_world {| len := 5; ptr := 6 |} (whole hello_world)
    = Ok b
    /\ (b = true <->
        exists front,
          view hello_world (whole hello_world)
          = front ++ view hello_world {| len := 5; ptr := 6 |}).
Proof.
  apply (sv_ends_with_suffix hello_world).
  - unfold sv_ok. simpl. lia.
  - unfold sv_ok. simpl. lia.
Defined.

(** *** Copying a view into a buffer *)

Lemma patch_length {A} (buf : list A) (i : nat) (c : A) :
  (i < length buf)%nat ->
  length (firstn i buf ++ c :: skipn (S i) buf) = length buf.
Proof.
  intros Hi. rewrite length_app, length_firstn. cbn [length].
  rewrite length_skipn. lia.
Qed.

Lemma patch_firstn {A} (buf : list A) (i : nat) (c : A) :
  (i < length buf)%nat ->
  firstn (S i) (firstn i buf ++ c :: skipn (S i) buf) = firstn i buf ++ [c].
Proof.
  intros Hi. rewrite firstn_app, length_firstn.
  replace (Nat.min i (length buf)) with i by lia.
  rewrite firstn_all2 by (rewrite length_firstn; lia).
  replace (S i - i)%nat with 1%nat by lia. reflexivity.
Qed.

Lemma patch_skipn {A} (buf : list A) (i j : nat) (c : A) :
  (i < length buf)%nat -> (i < j)%nat ->
  skipn j (firstn i buf ++ c :: skipn (S i) buf) = skipn j buf.
Proof.
  intros Hi Hj. rewrite skipn_app, length_firstn.
  replace (Nat.min i (length buf)) with i by lia.
  rewrite (skipn_all2 (firstn i buf)) by (rewrite length_firstn; lia).
  replace (j - i)%nat with (S (j - S i)) by lia.
  rewrite app_nil_l, skipn_cons, skipn_skipn. f_equal. lia.
Qed.

Lemma poke_spec (buf : list ascii) (i : nat) (c : ascii) :
  (i < length buf)%nat ->
  poke buf i c = Ok (firstn i buf ++ c :: skipn (S i) buf).
Proof.
  revert i. induction buf as [|x buf IH]; intros [|i] Hi; simpl in *;
    try lia; [reflexivity|].
  rewrite IH by lia. reflexivity.
Qed.

Lemma poke_range_spec (xs : list ascii) :
  forall (buf : list ascii) (i : nat),
    (i + length xs <= length buf)%nat ->
    poke_range buf i xs
    = Ok (firstn i buf ++ xs ++ skipn (i + length xs) buf).
Proof.
  induction xs as [|x xs IH]; intros buf i Hi; cbn [poke_range length] in *.
  - now rewrite Nat.add_0_r, firstn_skipn.
  - rewrite poke_spec by lia. cbn [bind].
    assert (Hl : (S i + length xs <= length (firstn i buf ++ x :: skipn (S i) buf))%nat).
    { rewrite patch_length; lia. }
    rewrite IH by exact Hl.
    rewrite patch_firstn, patch_skipn by lia.
    rewrite <- app_assoc. cbn [app].
    replace (S i + length xs)%nat with (i + S (length xs))%nat by lia.
    reflexivity.
Qed.

(** X11. With a buffer of at least [buflen >= 1] bytes, [sv_to_cstr]
    writes the first [min(len, buflen - 1)] bytes of the view at the start
    of the buffer, a NUL after them, and leaves every later byte of the
    buffer as it was. *)
Theorem sv_to_cstr_layout (m : memory) (s : sv) (buf : list ascii)
        (buflen : Z) :
  sv_ok m s -> len s <= SizeT.SIZE_MAX ->
  1 <= buflen <= SizeT.SIZE_MAX ->
  buflen <= Z.of_nat (length buf) ->
  let n := Z.to_nat (Z.min (len s) (buflen - 1)) in
  sv_to_cstr m s buf buflen
  = Ok (firstn n (view m s) ++ NUL :: skipn (S n) buf)
  /\ length (firstn n (view m s) ++ NUL :: skipn (S n) buf) = length buf.
Proof.
  intros Hok Hmax Hbl Hcap n. pose proof Hok as (Hp & Hl & Hb).
  pose proof (view_length m s Hok) as Hvl.
  assert (Hn : (n < length buf)%nat) by (subst n; lia).
  assert (Hfl : length (firstn n (view m s)) = n)
    by (rewrite length_firstn; subst n; lia).
  split.
  - unfold sv_to_cstr.
    assert (Hw : SizeT.sub buflen 1 = buflen - 1).
    { apply wrap_small. unfold SizeT.in_range, SizeT.SIZE_MAX in *. lia. }
    rewrite Hw.
    assert (Hcnt : Z.to_nat (if len s >=? buflen then buflen - 1 else len s)
                   = n).
    { subst n. destruct (Z.geb_spec (len s) buflen); f_equal; lia. }
    rewrite Hcnt.
    assert (Hsrc : load_range m (ptr s) n = Ok (firstn n (view m s))).
    { rewrite load_range_spec by (subst n; lia).
      unfold view. rewrite firstn_firstn. do 2 f_equal. subst n. lia. }
    rewrite Hsrc. cbn [bind].
    rewrite poke_range_spec by (rewrite Hfl; simpl; lia). cbn [bind].
    rewrite Hfl. cbn [firstn app Nat.add].
    rewrite poke_spec by (rewrite length_app, Hfl, length_skipn; lia).
    f_equal.
    rewrite firstn_app, Hfl, Nat.sub_diag. cbn [firstn].
    rewrite app_nil_r, firstn_all2 by lia.
    f_equal. f_equal.
    rewrite skipn_app, Hfl.
    rewrite (skipn_all2 (firstn n (view m s))) by lia.
    replace (S n - n)%nat with 1%nat by lia.
    rewrite app_nil_l, skipn_skipn. f_equal.
  - rewrite length_app, Hfl. cbn [length]. rewrite length_skipn. lia.
Qed.

Lemma sv_to_cstr_layout_witness :
  let n := Z.to_nat (Z.min (len (whole hello_world)) (4 - 1)) in
  sv_to_cstr hello_world (whole hello_world)
             (list_ascii_of_string "??????") 4
  = Ok (firstn n (view hello_world (whole hello_world))
        ++ NUL :: skipn (S n) (list_ascii_of_string "??????"))
  /\ length (firstn n (view hello_world (whole hello_world))
             ++ NUL :: skipn (S n) (list_ascii_of_string "??????"))
     = length (list_ascii_of_string "??????").
Proof.
  apply (sv_to_cstr_layout hello_world (whole hello_world)
                           (list_ascii_of_string "??????") 4).
  - unfold sv_ok. simpl. lia.
  - vm_compute. discriminate.
  - split; [lia | vm_compute; discriminate].
  - simpl. lia.
Defined.

Example sv_to_cstr_truncates :
  sv_to_cstr hello_world (whole hello_world)
             (list_ascii_of_string "??????") 4
  = Ok (list_ascii_of_string "hel" ++ NUL :: list_ascii_of_string "??").
Proof. reflexivity. Qed.

(** *** Views of C strings *)

Lemma skipn_head {A : Type} (l : list A) (a : nat) (x : A) (tl : list A) :
  skipn a l = x :: tl -> nth_error l a = Some x /\ skipn (S a) l = tl.
Proof.
  intros H. split.
  - rewrite <- (Nat.add_0_r a), <- nth_error_skipn, H. reflexivity.
  - change (S a) with (1 + a)%nat. rewrite <- skipn_skipn, H. reflexivity.
Qed.

Lemma strlen_from_spec (m : memory) (str : Z) (rest : list ascii) :
  0 <= str ->
  forall (cs : list ascii) (fuel : nat) (n : Z),
    0 <= n ->
    ~ In NUL cs ->
    skipn (Z.to_nat (str + n)) m = cs ++ NUL :: rest ->
    (length cs < fuel)%nat ->
    strlen_from fuel m str n = Ok (n + Z.of_nat (length cs)).
Proof.
  intros Hstr. induction cs as [|c cs IH]; intros fuel n Hn Hfree Hm Hfuel;
    (destruct fuel as [|fuel]; [simpl in Hfuel; lia|]);
    cbn [strlen_from]; simpl app in Hm;
    apply skipn_head in Hm as (Hnth & Htl);
    unfold load;
    (destruct (Z.ltb_spec (str + n) 0) as [Hneg|_]; [lia|]);
    rewrite Hnth; cbn [bind].
  - change (Ascii.eqb NUL NUL) with true. cbv iota. f_equal. simpl. lia.
  - destruct (Ascii.eqb_spec c NUL) as [->|Hc].
    { exfalso. apply Hfree. now left. }
    rewrite (IH fuel (n + 1)); try lia.
    + f_equal. cbn [length]. lia.
    + intros Hin. apply Hfree. now right.
    + rewrite <- Htl. f_equal. lia.
    + simpl in Hfuel. lia.
Qed.

Lemma mem_strlen_spec (m : memory) (str : Z) (cs rest : list ascii) :
  0 <= str -> ~ In NUL cs ->
  skipn (Z.to_nat str) m = cs ++ NUL :: rest ->
  mem_strlen m str = Ok (Z.of_nat (length cs)).
Proof.
  intros Hstr Hfree Hm. unfold mem_strlen.
  rewrite (strlen_from_spec m str rest Hstr cs); auto; try lia.
  - now rewrite Z.add_0_r.
  - assert (Hl : length (skipn (Z.to_nat str) m)
                 = length (cs ++ NUL :: rest)) by now rewrite Hm.
    rewrite length_skipn, length_app in Hl. simpl in Hl. lia.
Qed.

Lemma cstr_view (m : memory) (str : Z) (cs rest : list ascii) :
  0 <= str ->
  skipn (Z.to_nat str) m = cs ++ NUL :: rest ->
  sv_ok m {| len := Z.of_nat (length cs); ptr := str |}
  /\ view m {| len := Z.of_nat (length cs); ptr := str |} = cs.
Proof.
  intros Hstr Hm.
  assert (Hl : length (skipn (Z.to_nat str) m)
               = length (cs ++ NUL :: rest)) by now rewrite Hm.
  rewrite length_skipn, length_app in Hl. simpl in Hl.
  split; [unfold sv_ok; simpl; lia|].
  unfold view. simpl. rewrite Hm, Nat2Z.id.
  rewrite firstn_app, Nat.sub_diag, firstn_all. simpl. apply app_nil_r.
Qed.

(** X12. For a NUL-terminated string that lies in the memory at [str],
    [sv_from_cstr] returns the view of exactly its characters, the
    terminator left out. *)
Theorem sv_from_cstr_view (m : memory) (str : Z) (cs rest : list ascii) :
  0 <= str -> ~ In NUL cs ->
  skipn (Z.to_nat str) m = cs ++ NUL :: rest ->
  exists s,
    sv_from_cstr m str = Ok s
    /\ sv_ok m s /\ ptr s = str /\ view m s = cs.
Proof.
  intros Hstr Hfree Hm. unfold sv_from_cstr.
  rewrite (mem_strlen_spec m str cs rest Hstr Hfree Hm). cbn [bind].
  destruct (cstr_view m str cs rest Hstr Hm) as (Hok & Hv).
  eexists. split; [reflexivity|]. auto.
Qed.

Lemma sv_from_cstr_view_witness :
  exists s,
    sv_from_cstr hello_cstr 0 = Ok s
    /\ sv_ok hello_cstr s /\ ptr s = 0
    /\ view hello_cstr s = list_ascii_of_string "hello".
Proof.
  apply (sv_from_cstr_view hello_cstr 0 (list_ascii_of_string "hello")
                           (list_ascii_of_string "xx")).
  - lia.
  - simpl. intros Hin.
    repeat (destruct Hin as [Hin|Hin]; [discriminate|]). exact Hin.
  - reflexivity.
Defined.

(** X13. For a NUL-terminated string in the memory and arguments whose
    sum [beg + n] does not wrap (or [n] = SV_END_POS), [sv_from_sub_cstr]
    returns a view inside the string that holds the [n] characters after
    its first [beg] characters, as many of them as there are. *)
Theorem sv_from_sub_cstr_view (m : memory) (beg n : Z) (str : Z)
        (cs rest : list ascii) :
  0 <= str -> ~ In NUL cs ->
  skipn (Z.to_nat str) m = cs ++ NUL :: rest ->
  Z.of_nat (length cs) <= SizeT.SIZE_MAX ->
  SizeT.in_range beg -> SizeT.in_range n ->
  n = SV_END_POS \/ beg + n <= SizeT.SIZE_MAX ->
  exists r,
    sv_from_sub_cstr m beg n str = Ok r
    /\ within r {| len := Z.of_nat (length cs); ptr := str |}
    /\ view m r = firstn (Z.to_nat n) (skipn (Z.to_nat beg) cs).
Proof.
  intros Hstr Hfree Hm Hmax Hbeg Hn Hnw. unfold sv_from_sub_cstr.
  rewrite (mem_strlen_spec m str cs rest Hstr Hfree Hm). cbn [bind].
  destruct (cstr_view m str cs rest Hstr Hm) as (Hok & Hv).
  set (s0 := {| len := Z.of_nat (length cs); ptr := str |}) in *.
  destruct (Z.eqb_spec n 0) as [Hn0|Hn0]; cbn [orb].
  { eexists. split; [reflexivity|]. split; [now left|].
    subst n. reflexivity. }
  destruct (Z.geb_spec beg (Z.of_nat (length cs))) as [Hge|Hlt].
  { eexists. split; [reflexivity|]. split; [now left|].
    rewrite skipn_all2 by lia. now rewrite firstn_nil. }
  destruct (sv_substr_firstn_skipn m beg n s0 Hok Hmax Hbeg Hn Hnw)
    as (Hin & Hview).
  assert (Hsame : sv_substr beg n s0
                  = {| len := if (n =? SV_END_POS)
                                 || (SizeT.add beg n >? Z.of_nat (length cs))
                              then SizeT.sub (Z.of_nat (length cs)) beg
                              else n;
                       ptr := str + beg |}).
  { unfold sv_substr. simpl len. simpl ptr.
    destruct (Z.eqb_spec n 0) as [|_]; [contradiction|]. cbn [orb].
    destruct (Z.gtb_spec beg (Z.of_nat (length cs))) as [|_]; [lia|].
    reflexivity. }
  eexists. split; [reflexivity|]. rewrite <- Hsame.
  split; [exact Hin|]. now rewrite Hview, Hv.
Qed.

Lemma sv_from_sub_cstr_view_witness :
  exists r,
    sv_from_sub_cstr hello_cstr 1 3 0 = Ok r
    /\ within r {| len := Z.of_nat (length (list_ascii_of_string "hello"));
                   ptr := 0 |}
    /\ view hello_cstr r
       = firstn (Z.to_nat 3)
                (skipn (Z.to_nat 1) (list_ascii_of_string "hello")).
Proof.
  apply (sv_from_sub_cstr_view hello_cstr 1 3 0
           (list_ascii_of_string "hello") (list_ascii_of_string "xx")).
  - lia.
  - simpl. intros Hin.
    repeat (destruct Hin as [Hin|Hin]; [discriminate|]). exact Hin.
  - reflexivity.
  - vm_compute. discriminate.
  - unfold SizeT.in_range. vm_compute. split; [discriminate|reflexivity].
  - unfold SizeT.in_range. vm_compute. split; [discriminate|reflexivity].
  - right. vm_compute. discriminate.
Defined.

(** * Reading the word lists *)

Lemma cut_unique (d : ascii) (a w : list ascii) :
  forall (k : nat) (b rest : list ascii),
    a ++ repeat d k ++ b = w ++ d :: rest ->
    ~ In d a -> ~ In d w ->
    (forall x, b <> d :: x) -> (forall x, rest <> d :: x) ->
    (k = 0%nat -> b = []) ->
    a = w /\ b = rest.
Proof.
  revert w. induction a as [|x a IH]; intros [|y w] k b rest H Ha Hw Hb Hr Hk.
  - split; [reflexivity|]. destruct k as [|k]; simpl in H.
    + rewrite Hk in H by reflexivity. discriminate.
    + injection H as H. destruct k as [|k]; simpl in H; [exact H|].
      symmetry in H. now apply Hr in H.
  - exfalso. destruct k as [|k]; simpl in H.
    + rewrite Hk in H by reflexivity. discriminate.
    + injection H as -> _. apply Hw. now left.
  - exfalso. simpl in H. injection H as -> _. apply Ha. now left.
  - simpl in H. injection H as -> H.
    destruct (IH w k b rest H) as (-> & ->); auto.
    + intros Hin. apply Ha. now right.
    + intros Hin. apply Hw. now right.
Qed.

Lemma no_delim_no_run (d : ascii) (a b l : list ascii) (k : nat) :
  l = a ++ repeat d k ++ b -> ~ In d l -> k = 0%nat.
Proof.
  intros -> Hfree. destruct k as [|k]; [reflexivity|].
  exfalso. apply Hfree. apply in_or_app. right. now left.
Qed.

Lemma lines_cons (w : list ascii) (ws : list (list ascii)) :
  file_of_lines (w :: ws) = w ++ newline :: file_of_lines ws.
Proof. unfold file_of_lines. simpl. now rewrite <- app_assoc. Qed.

Lemma lines_no_leading_newline (ws : list (list ascii)) (tail : list ascii) :
  Forall line_ok ws -> ~ In newline tail ->
  forall x, file_of_lines ws ++ tail <> newline :: x.
Proof.
  intros Hws Htail x H. destruct Hws as [|w ws (Hne & Hfree) _].
  - simpl in H. apply Htail. rewrite H. now left.
  - rewrite lines_cons in H. destruct w as [|c w]; [now apply Hne|].
    simpl in H. injection H as -> _. apply Hfree. now left.
Qed.

Section Lines.

Variable m : memory.

(** One call on a view that starts with a line. *)
Lemma chop_line (s buf : sv) (w rest : list ascii) :
  sv_ok m s -> len s <= SizeT.SIZE_MAX ->
  view m s = w ++ newline :: rest ->
  ~ In newline w -> (forall x, rest <> newline :: x) ->
  exists in' out,
    sv_chop_delim m newline s buf = Ok (true, in', out)
    /\ sv_ok m in' /\ sv_ok m out
    /\ view m out = w /\ view m in' = rest
    /\ len in' < len s.
Proof.
  intros Hok Hmax Hv Hw Hrest.
  assert (Hpos : 0 < len s).
  { pose proof (view_length m s Hok) as Hl. rewrite Hv, length_app in Hl.
    simpl in Hl. lia. }
  destruct (sv_chop_delim_cut m newline s buf Hok ltac:(lia))
    as (in' & out & k & Hcall & Hin' & Hout & _ & _ & Hk & Hsum & Hk0
        & Hcut & Hfree & Hnext).
  exists in', out. split; [exact Hcall|].
  rewrite Hv in Hcut. symmetry in Hcut.
  apply cut_unique in Hcut as (Ho & Hi); auto.
  - split; [exact Hin'|]. split; [exact Hout|]. split; [exact Ho|].
    split; [exact Hi|].
    pose proof (view_length m in' Hin') as Hl. rewrite Hi in Hl.
    pose proof (view_length m s Hok) as Hls.
    rewrite Hv, length_app in Hls. simpl in Hls.
    destruct Hin' as (_ & Hge & _). lia.
  - intros Hz. apply length_zero_iff_nil.
    rewrite (view_length m in' Hin'), Hk0 by lia. reflexivity.
Qed.

(** One call on a view that holds a last line without a newline. *)
Lemma chop_last (s buf : sv) :
  sv_ok m s -> 0 < len s <= SizeT.SIZE_MAX ->
  ~ In newline (view m s) ->
  exists in' out,
    sv_chop_delim m newline s buf = Ok (true, in', out)
    /\ sv_ok m in' /\ sv_ok m out
    /\ view m out = view m s /\ len in' = 0.
Proof.
  intros Hok Hlen Hfree.
  destruct (sv_chop_delim_cut m newline s buf Hok Hlen)
    as (in' & out & k & Hcall & Hin' & Hout & _ & _ & Hk & Hsum & Hk0
        & Hcut & _).
  exists in', out. split; [exact Hcall|].
  assert (Hz : Z.to_nat k = 0%nat)
    by exact (no_delim_no_run newline _ _ _ _ Hcut Hfree).
  assert (Hlen0 : len in' = 0) by (apply Hk0; lia).
  split; [exact Hin'|]. split; [exact Hout|]. split; [|exact Hlen0].
  rewrite Hcut, Hz. simpl.
  assert (Hnil : view m in' = []).
  { apply length_zero_iff_nil. rewrite (view_length m in' Hin'), Hlen0.
    reflexivity. }
  now rewrite Hnil, app_nil_r.
Qed.

Lemma set_nth_middle {A : Type} (a b : list A) (x v : A) :
  set_nth (length a) v (a ++ x :: b) = a ++ v :: b.
Proof. induction a as [|y a IH]; simpl; [reflexivity | now rewrite IH]. Qed.

Variable tail : list ascii.
Hypothesis tail_free : ~ In newline tail.

Lemma store_loop_lines (ws : list (list ascii)) :
  forall (fuel : nat) (file buf : sv) (done : list sv) (extra : nat),
    sv_ok m file -> len file <= SizeT.SIZE_MAX ->
    view m file = file_of_lines ws ++ tail ->
    Forall line_ok ws ->
    (Z.to_nat (len file) < fuel)%nat ->
    Z.of_nat (length done + length ws) < SizeT.SIZE_MAX ->
    (tail = [] ->
     exists toks,
       store_loop fuel m file buf
                  (map Some done ++ repeat None (length ws + extra))
                  (Z.of_nat (length done))
       = Ok (map Some done ++ map Some toks ++ repeat None extra)
       /\ map (view m) toks = ws
       /\ Forall (sv_ok m) toks)
    /\ (tail <> [] -> extra = 0%nat ->
        store_loop fuel m file buf
                   (map Some done ++ repeat None (length ws + extra))
                   (Z.of_nat (length done))
        = Err OutOfBounds).
Proof.
  induction ws as [|w ws IH];
    intros fuel file buf done extra Hok Hmax Hv Hws Hfuel Hcount;
    (destruct fuel as [|fuel]; [lia|]); cbn [store_loop].
  - simpl in Hv. split.
    + intros Htail. rewrite Htail in Hv.
      assert (Hz : len file = 0).
      { pose proof (view_length m file Hok) as Hl. rewrite Hv in Hl.
        destruct Hok as (_ & Hge & _). simpl in Hl. lia. }
      unfold sv_chop_delim. rewrite Hz. cbn [Z.eqb bind].
      exists []. repeat split; auto.
    + intros Htail ->.
      assert (Hpos : 0 < len file).
      { pose proof (view_length m file Hok) as Hl. rewrite Hv in Hl.
        destruct tail; [contradiction|]. simpl in Hl. lia. }
      destruct (chop_last file buf Hok ltac:(lia))
        as (in' & out & -> & _); [now rewrite Hv|].
      cbn [bind]. unfold array_set. simpl length. rewrite Nat.add_0_r.
      rewrite app_nil_r, length_map.
      destruct (Z.ltb_spec (Z.of_nat (length done)) 0) as [Hneg|_]; [lia|].
      destruct (Z.leb_spec (Z.of_nat (length done)) (Z.of_nat (length done)))
        as [_|Hlt]; [reflexivity | lia].
  - rewrite lines_cons, <- app_assoc in Hv. simpl in Hv.
    inversion Hws as [|? ? (Hne & Hfree) Hws']; subst.
    destruct (chop_line file buf w (file_of_lines ws ++ tail) Hok Hmax Hv
                Hfree (lines_no_leading_newline ws tail Hws' tail_free))
      as (in' & out & -> & Hin' & Hout & Hvo & Hvi & Hless).
    cbn [bind].
    assert (Hset : array_set (map Some done
                              ++ repeat None (length (w :: ws) + extra))
                             (Z.of_nat (length done)) (Some out)
                   = Ok (map Some (done ++ [out])
                         ++ repeat None (length ws + extra))).
    { unfold array_set. rewrite length_app, length_map, repeat_length.
      simpl length.
      destruct (Z.ltb_spec (Z.of_nat (length done)) 0) as [Hneg|_]; [lia|].
      destruct (Z.leb_spec
                  (Z.of_nat (length done + (S (length ws) + extra)))
                  (Z.of_nat (length done))) as [Hle|_]; [lia|].
      cbn [orb]. rewrite Nat2Z.id. cbn [Nat.add repeat].
      rewrite <- (length_map Some done) at 1.
      rewrite set_nth_middle, map_app, <- app_assoc. reflexivity. }
    rewrite Hset. cbn [bind].
    assert (Hw : SizeT.add (Z.of_nat (length done)) 1
                 = Z.of_nat (length (done ++ [out]))).
    { rewrite length_app. simpl length. unfold SizeT.add.
      rewrite wrap_small; [lia|].
      unfold SizeT.in_range, SizeT.SIZE_MAX in *. simpl length in Hcount.
      lia. }
    rewrite Hw.
    destruct Hin' as (Hp' & Hl' & Hb').
    destruct (IH fuel in' out (done ++ [out]) extra) as (IHok & IHerr);
      auto; try lia.
    { unfold sv_ok. lia. }
    { rewrite length_app. simpl length in *. lia. }
    split.
    + intros Htail. destruct (IHok Htail) as (toks & Hrun & Hviews & Hall).
      exists (out :: toks). rewrite Hrun.
      split; [|split].
      * rewrite map_app, <- app_assoc. reflexivity.
      * simpl. now rewrite Hvo, Hviews.
      * constructor; auto.
    + intros Htail Hextra. now apply IHerr.
Qed.

Lemma chop_loop_lines (ws : list (list ascii)) :
  forall (fuel : nat) (file buf : sv),
    sv_ok m file -> len file <= SizeT.SIZE_MAX ->
    view m file = file_of_lines ws ++ tail ->
    Forall line_ok ws ->
    (Z.to_nat (len file) < fuel)%nat ->
    exists toks,
      chop_loop fuel m newline file buf = Ok toks
      /\ map (view m) toks
         = ws ++ match tail with [] => [] | _ => [tail] end.
Proof.
  induction ws as [|w ws IH]; intros fuel file buf Hok Hmax Hv Hws Hfuel;
    (destruct fuel as [|fuel]; [lia|]); cbn [chop_loop].
  - simpl in Hv. destruct (Z.eq_dec (len file) 0) as [Hz|Hnz].
    + unfold sv_chop_delim. rewrite Hz. cbn [Z.eqb bind].
      exists []. split; [reflexivity|].
      assert (Hnil : view m file = []).
      { apply length_zero_iff_nil. rewrite (view_length m file Hok), Hz.
        reflexivity. }
      rewrite Hnil in Hv. now rewrite <- Hv.
    + assert (Hpos : 0 < len file) by (destruct Hok as (_ & Hge & _); lia).
      destruct (chop_last file buf Hok ltac:(lia))
        as (in' & out & -> & Hin' & _ & Hvo & Hz); [now rewrite Hv|].
      cbn [bind]. destruct fuel as [|fuel]; [lia|]. cbn [chop_loop].
      unfold sv_chop_delim. rewrite Hz. cbn [Z.eqb bind].
      exists [out]. split; [reflexivity|]. simpl. rewrite Hvo, Hv.
      destruct tail as [|c t] eqn:Et; [|reflexivity].
      exfalso. pose proof (view_length m file Hok) as Hl.
      rewrite Hv in Hl. simpl in Hl. lia.
  - rewrite lines_cons, <- app_assoc in Hv. simpl in Hv.
    inversion Hws as [|? ? (Hne & Hfree) Hws']; subst.
    destruct (chop_line file buf w (file_of_lines ws ++ tail) Hok Hmax Hv
                Hfree (lines_no_leading_newline ws tail Hws' tail_free))
      as (in' & out & -> & Hin' & Hout & Hvo & Hvi & Hless).
    cbn [bind]. pose proof Hin' as (Hp' & Hl' & Hb').
    destruct (IH fuel in' out Hin' ltac:(lia) Hvi Hws' ltac:(lia))
      as (toks & -> & Hviews).
    cbn [bind]. exists (out :: toks). split; [reflexivity|].
    simpl. now rewrite Hvo, Hviews.
Qed.

End Lines.

(** *** count_lines *)

Lemma count_lines_loop_spec (m : memory) (file : sv) (fuel : nat) :
  sv_ok m file -> len file <= SizeT.SIZE_MAX ->
  forall i ret : Z,
    0 <= i <= len file -> 0 <= ret <= i ->
    (Z.to_nat (len file - i) < fuel)%nat ->
    count_lines_loop fuel m file i ret
    = Ok (ret + Z.of_nat (newlines (skipn (Z.to_nat i) (view m file)))).
Proof.
  intros Hok Hmax. pose proof (view_length m file Hok) as Hvl.
  induction fuel as [|fuel IH]; intros i ret Hi Hret Hfuel; [lia|].
  cbn [count_lines_loop].
  destruct (Z.ltb_spec i (len file)) as [Hlt|Hge].
  - rewrite load_view by (auto; lia). cbn [bind].
    assert (Hnth : nth_error (view m file) (Z.to_nat i)
                   = Some (byte_at (view m file) i)).
    { unfold byte_at. apply nth_error_nth'. lia. }
    rewrite (skipn_cons_nth _ _ _ Hnth).
    assert (Hw1 : SizeT.add i 1 = i + 1).
    { apply wrap_small. unfold SizeT.in_range, SizeT.SIZE_MAX in *. lia. }
    rewrite Hw1.
    unfold newlines. cbn [count_occ].
    destruct (Ascii.eqb_spec (byte_at (view m file) i) newline) as [Heq|Hne].
    + assert (Hw2 : SizeT.add ret 1 = ret + 1).
      { apply wrap_small. unfold SizeT.in_range, SizeT.SIZE_MAX in *. lia. }
      rewrite Hw2, IH by lia.
      destruct (ascii_dec (byte_at (view m file) i) newline) as [_|Hd];
        [|contradiction].
      replace (Z.to_nat (i + 1)) with (S (Z.to_nat i)) by lia.
      unfold newlines. f_equal. lia.
    + assert (Hw2 : SizeT.add ret 0 = ret).
      { unfold SizeT.add. rewrite Z.add_0_r. apply wrap_small.
        unfold SizeT.in_range, SizeT.SIZE_MAX in *. lia. }
      rewrite Hw2, IH by lia.
      destruct (ascii_dec (byte_at (view m file) i) newline) as [Hd|_];
        [contradiction|].
      replace (Z.to_nat (i + 1)) with (S (Z.to_nat i)) by lia.
      reflexivity.
  - rewrite skipn_all2 by lia. simpl. f_equal. lia.
Qed.

Lemma count_lines_spec (m : memory) (file : sv) :
  sv_ok m file -> len file <= SizeT.SIZE_MAX ->
  count_lines m file = Ok (Z.of_nat (newlines (view m file))).
Proof.
  intros Hok Hmax. unfold count_lines.
  pose proof Hok as (_ & Hl & _).
  rewrite (count_lines_loop_spec m file _ Hok Hmax 0 0) by lia.
  reflexivity.
Qed.

Lemma newlines_app (a b : list ascii) :
  newlines (a ++ b) = (newlines a + newlines b)%nat.
Proof. apply count_occ_app. Qed.

Lemma newlines_free (l : list ascii) : ~ In newline l -> newlines l = 0%nat.
Proof. intros H. now apply count_occ_not_In. Qed.

Lemma newlines_of_lines (ws : list (list ascii)) :
  Forall line_ok ws -> newlines (file_of_lines ws) = length ws.
Proof.
  induction 1 as [|w ws (_ & Hfree) _ IH]; [reflexivity|].
  rewrite lines_cons, newlines_app, (newlines_free w Hfree).
  unfold newlines in *. cbn [count_occ].
  destruct (ascii_dec newline newline) as [_|Hd]; [|contradiction].
  simpl. now rewrite IH.
Qed.

Lemma size_max_large : 1 < SizeT.SIZE_MAX.
Proof. reflexivity. Qed.

Lemma lines_length (ws : list (list ascii)) :
  Forall line_ok ws -> (2 * length ws <= length (file_of_lines ws))%nat.
Proof.
  induction 1 as [|w ws (Hne & _) _ IH]; [simpl; lia|].
  rewrite lines_cons, length_app. cbn [length].
  destruct w; [contradiction|]. simpl length. lia.
Qed.

Lemma not_in_line (l : list ascii) :
  forallb (fun c => negb (Ascii.eqb c newline)) l = true -> ~ In newline l.
Proof.
  intros H Hin. rewrite forallb_forall in H. apply H in Hin.
  now rewrite Ascii.eqb_refl in Hin.
Qed.

(** X14. On a buffer made of non-empty lines, each ended by one newline,
    and possibly a last line without a newline, the loop of
    [sv_chop_delim] calls yields exactly the lines, in order, the
    unterminated last line included. *)
Theorem chop_loop_yields_lines (m : memory) (file buf : sv)
        (ws : list (list ascii)) (tail : list ascii) :
  sv_ok m file -> len file <= SizeT.SIZE_MAX ->
  view m file = file_of_lines ws ++ tail ->
  Forall line_ok ws -> ~ In newline tail ->
  exists toks,
    chop_loop (S (Z.to_nat (len file))) m newline file buf = Ok toks
    /\ map (view m) toks
       = ws ++ match tail with [] => [] | _ => [tail] end.
Proof.
  intros Hok Hmax Hv Hws Htail.
  apply (chop_loop_lines m tail Htail ws); auto.
Qed.

Lemma chop_loop_yields_lines_witness :
  exists toks,
    chop_loop (S (Z.to_nat (len (whole two_lines_cut)))) two_lines_cut
              newline (whole two_lines_cut) no_buf = Ok toks
    /\ map (view two_lines_cut) toks
       = [list_ascii_of_string "crane"]
         ++ match list_ascii_of_string "trace" with
            | [] => []
            | _ => [list_ascii_of_string "trace"]
            end.
Proof.
  apply (chop_loop_yields_lines two_lines_cut (whole two_lines_cut) no_buf
           [list_ascii_of_string "crane"] (list_ascii_of_string "trace")).
  - unfold sv_ok. simpl. lia.
  - vm_compute. discriminate.
  - reflexivity.
  - repeat constructor; [discriminate | now apply not_in_line].
  - now apply not_in_line.
Defined.

Lemma count_lines_of_lines (m : memory) (file : sv)
      (ws : list (list ascii)) (tail : list ascii) :
  sv_ok m file -> len file <= SizeT.SIZE_MAX ->
  view m file = file_of_lines ws ++ tail ->
  Forall line_ok ws -> ~ In newline tail ->
  count_lines m file = Ok (Z.of_nat (length ws)).
Proof.
  intros Hok Hmax Hv Hws Htail.
  rewrite (count_lines_spec m file Hok Hmax), Hv, newlines_app.
  rewrite (newlines_of_lines ws Hws), (newlines_free tail Htail).
  now rewrite Nat.add_0_r.
Qed.

(** X15. [count_lines] returns the number of newline bytes of the view
    and reads no byte outside it; a last line without a newline is
    therefore not counted. *)
Theorem count_lines_counts (m : memory) (file : sv) :
  sv_ok m file -> len file <= SizeT.SIZE_MAX ->
  count_lines m file = Ok (Z.of_nat (newlines (view m file))).
Proof.
  intros Hok Hmax. pose proof Hok as (_ & Hl & _). unfold count_lines.
  rewrite (count_lines_loop_spec m file _ Hok Hmax 0 0) by lia.
  reflexivity.
Qed.

Lemma count_lines_counts_witness :
  count_lines two_lines_cut (whole two_lines_cut)
  = Ok (Z.of_nat (newlines (view two_lines_cut (whole two_lines_cut)))).
Proof.
  apply (count_lines_counts two_lines_cut (whole two_lines_cut)).
  - unfold sv_ok. simpl. lia.
  - vm_compute. discriminate.
Defined.

Example count_lines_two_lines :
  count_lines two_lines (whole two_lines) = Ok 2
  /\ count_lines two_lines_cut (whole two_lines_cut) = Ok 1.
Proof. split; reflexivity. Qed.

Lemma init_words_fill (m : memory) (file buf : sv)
        (ws : list (list ascii)) :
  sv_ok m file -> len file <= SizeT.SIZE_MAX ->
  view m file = file_of_lines ws ->
  Forall line_ok ws ->
  exists toks,
    init_words m file buf
    = Ok {| array := map Some toks; array_len := Z.of_nat (length ws) |}
    /\ map (view m) toks = ws
    /\ Forall (sv_ok m) toks.
Proof.
  intros Hok Hmax Hv Hws. unfold init_words.
  rewrite (count_lines_of_lines m file ws [] Hok Hmax) by
    (auto; now rewrite app_nil_r).
  cbn [bind]. rewrite Nat2Z.id.
  pose proof (lines_length ws Hws) as Hlen.
  pose proof (view_length m file Hok) as Hvl. rewrite Hv in Hvl.
  destruct (store_loop_lines m [] (fun H => H) ws
              (S (Z.to_nat (len file))) file buf [] 0%nat)
    as (Hfill & _); auto; try lia.
  { now rewrite app_nil_r. }
  { pose proof size_max_large. simpl length. lia. }
  destruct (Hfill eq_refl) as (toks & Hrun & Hviews & Hall).
  cbn [map app length repeat Z.of_nat] in Hrun.
  rewrite Nat.add_0_r, app_nil_r in Hrun. rewrite Hrun. cbn [bind].
  exists toks. auto.
Qed.

(** X16. For a word list of non-empty lines, each ended by one newline,
    [init_words] fills the array exactly: [words.len] is the number of
    lines and [words.array[k]] is a view of the k-th line. *)
Theorem init_words_lines (m : memory) (file buf : sv)
        (ws : list (list ascii)) :
  sv_ok m file -> len file <= SizeT.SIZE_MAX ->
  view m file = file_of_lines ws ->
  Forall line_ok ws ->
  exists toks,
    init_words m file buf
    = Ok {| array := map Some toks; array_len := Z.of_nat (length ws) |}
    /\ map (view m) toks = ws
    /\ Forall (sv_ok m) toks.
Proof.
  intros Hok Hmax Hv Hws.
  exact (init_words_fill m file buf ws Hok Hmax Hv Hws).
Qed.

Lemma init_words_lines_witness :
  exists toks,
    init_words two_lines (whole two_lines) no_buf
    = Ok {| array := map Some toks;
            array_len :=
              Z.of_nat (length [list_ascii_of_string "crane";
                                list_ascii_of_string "trace"]) |}
    /\ map (view two_lines) toks
       = [list_ascii_of_string "crane"; list_ascii_of_string "trace"]
    /\ Forall (sv_ok two_lines) toks.
Proof.
  apply (init_words_lines two_lines (whole two_lines) no_buf
           [list_ascii_of_string "crane"; list_ascii_of_string "trace"]).
  - unfold sv_ok. simpl. lia.
  - vm_compute. discriminate.
  - reflexivity.
  - repeat constructor; try discriminate; now apply not_in_line.
Defined.

(** X17. When the last line of the word list has no newline, the array
    of [init_words] is one entry short: the loop stores the view of the
    last line one past its end. *)
Theorem init_words_missing_newline (m : memory) (file buf : sv)
        (ws : list (list ascii)) (tail : list ascii) :
  sv_ok m file -> len file <= SizeT.SIZE_MAX ->
  view m file = file_of_lines ws ++ tail ->
  Forall line_ok ws -> ~ In newline tail -> tail <> [] ->
  init_words m file buf = Err OutOfBounds.
Proof.
  intros Hok Hmax Hv Hws Htail Hne. unfold init_words.
  rewrite (count_lines_of_lines m file ws tail Hok Hmax) by auto.
  cbn [bind]. rewrite Nat2Z.id.
  pose proof (lines_length ws Hws) as Hlen.
  pose proof (view_length m file Hok) as Hvl.
  rewrite Hv, length_app in Hvl.
  destruct (store_loop_lines m tail Htail ws
              (S (Z.to_nat (len file))) file buf [] 0%nat)
    as (_ & Hover); auto; try lia.
  { pose proof size_max_large. simpl length. lia. }
  cbn [map app length Z.of_nat] in Hover. rewrite Nat.add_0_r in Hover.
  rewrite (Hover Hne eq_refl). reflexivity.
Qed.

Lemma init_words_missing_newline_witness :
  init_words two_lines_cut (whole two_lines_cut) no_buf = Err OutOfBounds.
Proof.
  apply (init_words_missing_newline two_lines_cut (whole two_lines_cut)
           no_buf [list_ascii_of_string "crane"]
           (list_ascii_of_string "trace")).
  - unfold sv_ok. simpl. lia.
  - vm_compute. discriminate.
  - reflexivity.
  - repeat constructor; [discriminate | now apply not_in_line].
  - now apply not_in_line.
  - discriminate.
Defined.




Example choose_solution_empty_file :
  choose_solution [] (whole []) no_buf 7 = Ok DivisionByZero.
Proof. reflexivity. Qed.

(** * Further properties of the game *)

Lemma valid_loop_spec (m : memory) (ws : list sv) (word : cstring) :
  Forall (sv_ok m) ws ->
  exists b,
    valid_loop m ws word = Ok b
    /\ (b = true <-> In word (map (view m) ws)).
Proof.
  induction 1 as [|w ws Hw _ IH]; simpl.
  - exists false. split; [reflexivity|]. split; [discriminate | tauto].
  - destruct (sv_cstr_eq_spec m w word Hw) as (e & -> & He). cbn [bind].
    destruct e.
    + exists true. split; [reflexivity|]. split; [|reflexivity].
      intros _. left. now apply He.
    + destruct IH as (b & -> & Hb). exists b. split; [reflexivity|].
      rewrite Hb. split; [now right|].
      intros [Hv|Hin]; [|exact Hin]. apply He in Hv. discriminate.
Qed.

Lemma qualify_loop_not_right (g : globals) (guess : cstring) (c : ascii)
      (fuel : nat) (i : Z) :
  qualify_loop fuel g guess c i <> Ok RightPlace.
Proof.
  revert i. induction fuel as [|fuel IH]; intros i H; simpl in H.
  - discriminate.
  - destruct (i <? LETTERS); [|discriminate].
    apply bind_ok in H as (s & _ & H).
    destruct (Ascii.eqb s c); [|now apply IH in H].
    apply bind_ok in H as (gi & _ & H).
    destruct (negb (Ascii.eqb gi c)); [discriminate | now apply IH in H].
Qed.

Lemma qualify_right_iff (g : globals) (guess : cstring) (p : Z) :
  sv_ok (mem g) (solution g) -> len (solution g) = LETTERS ->
  strlen guess = LETTERS -> 0 <= p < LETTERS ->
  qualify_guess g guess p = Ok RightPlace
  <-> byte_at guess p = byte_at (view (mem g) (solution g)) p.
Proof.
  intros Hok Hlen Hg Hp. split.
  - unfold qualify_guess. rewrite cstr_at_in by lia. cbn [bind].
    rewrite load_view by (rewrite ?Hlen; auto). cbn [bind].
    destruct (Ascii.eqb_spec (byte_at (view (mem g) (solution g)) p)
                             (byte_at guess p)) as [E|E]; [auto|].
    intros H. now apply qualify_loop_not_right in H.
  - apply (qualify_guess_cases g guess Hok Hlen Hg p Hp).
Qed.

Lemma lists_equal_bytes (a b : list ascii) (n : Z) :
  Z.of_nat (length a) = n -> Z.of_nat (length b) = n ->
  (a = b <-> forall p, 0 <= p < n -> byte_at a p = byte_at b p).
Proof.
  intros Ha Hb. split; [now intros ->|].
  intros H. apply (nth_ext a b NUL NUL); [lia|].
  intros k Hk. specialize (H (Z.of_nat k) ltac:(lia)).
  unfold byte_at in H. now rewrite Nat2Z.id in H.
Qed.

(** X20. For a guess of five characters, [check_correct] is true exactly
    when [qualify_guess] answers RightPlace at all five positions: the
    game is won exactly by a guess that is coloured green throughout. *)
Theorem win_iff_all_right (g : globals) (guess : cstring) :
  sv_ok (mem g) (solution g) -> len (solution g) = LETTERS ->
  strlen guess = LETTERS ->
  check_correct g guess = Ok true
  <-> forall p, 0 <= p < LETTERS -> qualify_guess g guess p = Ok RightPlace.
Proof.
  intros Hok Hlen Hg. unfold check_correct.
  destruct (sv_cstr_eq_spec (mem g) (solution g) guess Hok)
    as (b & -> & Hiff).
  assert (Hsame : view (mem g) (solution g) = guess
                  <-> forall p, 0 <= p < LETTERS ->
                                qualify_guess g guess p = Ok RightPlace).
  { rewrite (lists_equal_bytes _ guess LETTERS); auto.
    - split; intros H p Hp.
      + apply qualify_right_iff; auto. symmetry. now apply H.
      + symmetry. apply qualify_right_iff; auto.
    - rewrite view_length by assumption.
      destruct Hok as (_ & Hl & _). lia. }
  rewrite <- Hsame, <- Hiff. split; [now intros [= ->] | now intros ->].
Qed.

Lemma overrides_keeps_best (orig new : GuessQuality) (b : bool) :
  overrides orig new = Ok b ->
  (priority new <= priority (if b then new else orig))%nat.
Proof.
  destruct orig, new; simpl; intros H; try discriminate;
    injection H as <-; simpl; lia.
Qed.

Lemma update_effect (alphabet alphabet' : list CharInfo) (letter : ascii)
      (q : GuessQuality) :
  is_letter letter ->
  update alphabet letter q = Ok alphabet' ->
  (exists info,
      nth_error alphabet' (letter_index letter) = Some info
      /\ (priority q <= priority (quality info))%nat)
  /\ (forall k, k <> letter_index letter ->
                nth_error alphabet' k = nth_error alphabet k).
Proof.
  unfold update, letter_index, is_letter. intros Hl H.
  apply bind_ok in H as (cur & Hcur & H).
  apply bind_ok in H as (o & Ho & H).
  unfold array_get in Hcur.
  destruct (Z.ltb_spec (char_code letter - ASCII_A) 0) as [Hneg|_];
    [discriminate|].
  destruct (nth_error alphabet (Z.to_nat (char_code letter - ASCII_A)))
    as [cur'|] eqn:Hnth; [|discriminate].
  injection Hcur as ->.
  pose proof (overrides_keeps_best _ _ _ Ho) as Hbest.
  destruct o.
  - unfold array_set in H.
    destruct ((char_code letter - ASCII_A <? 0)
              || (Z.of_nat (length alphabet) <=? char_code letter - ASCII_A))
      eqn:Hb; [discriminate|].
    injection H as <-. apply orb_false_iff in Hb as (_ & Hhi).
    apply Z.leb_gt in Hhi. split.
    + eexists. rewrite nth_error_set_nth_eq by lia.
      split; [reflexivity | exact Hbest].
    + intros k Hk. now apply nth_error_set_nth_ne.
  - injection H as <-. split; [|reflexivity].
    exists cur. split; [exact Hnth | exact Hbest].
Qed.

Section Colour.

Variable g : globals.
Variable guess : cstring.

Hypothesis g_ok : corpus_ok g.
Hypothesis guess_len : strlen guess = LETTERS.
Hypothesis guess_letters : Forall is_letter guess.

Lemma guess_letter (j : Z) : 0 <= j < LETTERS -> is_letter (byte_at guess j).
Proof.
  intros Hj. rewrite Forall_forall in guess_letters. apply guess_letters.
  unfold byte_at. apply nth_In. unfold strlen in guess_len. lia.
Qed.

Lemma color_loop_facts (fuel : nat) :
  forall (alphabet : list CharInfo) (i : Z)
         (printed : list (ascii * GuessQuality)),
    length alphabet = Z.to_nat ALPHABET_SZ ->
    0 <= i <= LETTERS ->
    (Z.to_nat (LETTERS - i) < fuel)%nat ->
    exists alphabet' cs,
      color_loop fuel g guess alphabet i printed = Ok (alphabet', printed ++ cs)
      /\ length alphabet' = Z.to_nat ALPHABET_SZ
      /\ raised alphabet alphabet'
      /\ map fst cs = skipn (Z.to_nat i) guess
      /\ (forall j, i <= j < LETTERS ->
            exists q info,
              qualify_guess g guess j = Ok q
              /\ nth_error cs (Z.to_nat (j - i)) = Some (byte_at guess j, q)
              /\ nth_error alphabet' (letter_index (byte_at guess j))
                 = Some info
              /\ (priority q <= priority (quality info))%nat)
      /\ (forall k,
            (forall j, i <= j < LETTERS ->
                       letter_index (byte_at guess j) <> k) ->
            nth_error alphabet' k = nth_error alphabet k).
Proof.
  induction fuel as [|fuel IH]; intros alphabet i printed Ha Hi Hfuel; [lia|].
  cbn [color_loop]. destruct (Z.ltb_spec i LETTERS) as [Hlt|Hge].
  - destruct (qualify_guess_total g g_ok guess i guess_len ltac:(lia))
      as (q & Hq & Hdet).
    rewrite Hq. cbn [bind]. rewrite cstr_at_in by lia. cbn [bind].
    pose proof (guess_letter i ltac:(lia)) as Hl.
    destruct (update_defined alphabet (byte_at guess i) q Ha Hl Hdet)
      as (a1 & Ha1).
    rewrite Ha1. cbn [bind].
    destruct (update_raises _ _ _ _ Ha1) as (Hlen1 & Hr1).
    destruct (update_effect _ _ _ _ Hl Ha1) as ((info1 & Hi1 & Hp1) & Hrest1).
    destruct (IH a1 (i + 1) (printed ++ [(byte_at guess i, q)]))
      as (a2 & cs & Hrun & Hlen2 & Hr2 & Hfst & Hpos & Hrest2); try lia.
    exists a2, ((byte_at guess i, q) :: cs).
    split; [rewrite Hrun, <- app_assoc; reflexivity|].
    split; [exact Hlen2|].
    split; [exact (raised_trans _ _ _ Hr1 Hr2)|].
    split; [|split].
    + assert (Hnth : nth_error guess (Z.to_nat i) = Some (byte_at guess i)).
      { unfold byte_at. apply nth_error_nth'. unfold strlen in guess_len.
        lia. }
      rewrite (skipn_cons_nth _ _ _ Hnth). cbn [map fst]. f_equal.
      rewrite Hfst. f_equal. lia.
    + intros j Hj. destruct (Z.eq_dec j i) as [->|Hne].
      * destruct (Hr2 _ _ Hi1) as (info2 & Hi2 & _ & Hq2).
        exists q, info2. split; [exact Hq|].
        rewrite Z.sub_diag. split; [reflexivity|]. split; [exact Hi2|].
        destruct Hq2 as [Hq2|Hq2]; [rewrite Hq2|]; lia.
      * destruct (Hpos j ltac:(lia)) as (qj & info & Hqj & Hcs & Hinfo & Hpr).
        exists qj, info. split; [exact Hqj|]. split; [|auto].
        replace (Z.to_nat (j - i)) with (S (Z.to_nat (j - (i + 1)))) by lia.
        exact Hcs.
    + intros k Hk. rewrite Hrest2.
      * apply Hrest1. intros ->. now apply (Hk i ltac:(lia)).
      * intros j Hj. apply Hk. lia.
  - exists alphabet, []. rewrite app_nil_r.
    split; [reflexivity|]. split; [exact Ha|]. split; [apply raised_refl|].
    split; [|split].
    + rewrite skipn_all2; [reflexivity|]. unfold strlen in guess_len. lia.
    + intros j Hj. lia.
    + reflexivity.
Qed.

End Colour.

Lemma color_word_facts (g : globals) (guess : cstring)
        (alphabet : list CharInfo) :
  corpus_ok g -> strlen guess = LETTERS -> Forall is_letter guess ->
  length alphabet = 26%nat ->
  exists alphabet' cs,
    color_word_and_update_alphabet g guess alphabet = Ok (alphabet', cs)
    /\ map fst cs = guess
    /\ (forall j, 0 <= j < LETTERS ->
          exists q info,
            qualify_guess g guess j = Ok q
            /\ nth_error cs (Z.to_nat j) = Some (byte_at guess j, q)
            /\ nth_error alphabet' (letter_index (byte_at guess j))
               = Some info
            /\ (priority q <= priority (quality info))%nat)
    /\ (forall k,
          (forall j, 0 <= j < LETTERS ->
                     letter_index (byte_at guess j) <> k) ->
          nth_error alphabet' k = nth_error alphabet k).
Proof.
  intros Hg Hlen Hletters Ha.
  destruct (color_loop_facts g guess Hg Hlen Hletters
              (S (Z.to_nat LETTERS)) alphabet 0 [] Ha)
    as (a' & cs & Hrun & _ & _ & Hfst & Hpos & Hrest);
    [unfold LETTERS; lia | unfold LETTERS; simpl; lia |].
  exists a', cs. split; [exact Hrun|]. split; [exact Hfst|].
  split; [|exact Hrest].
  intros j Hj. destruct (Hpos j Hj) as (q & info & H1 & H2 & H3).
  exists q, info. rewrite Z.sub_0_r in H2. auto.
Qed.

Lemma coloured_app (a b : list event) :
  coloured (a ++ b) = (coloured a + coloured b)%nat.
Proof. unfold coloured. now rewrite filter_app, length_app. Qed.

Lemma coloured_alphabet (a : list CharInfo) : coloured [EvAlphabet a] = 0%nat.
Proof. reflexivity. Qed.

Lemma coloured_solution (w : list ascii) : coloured [EvSolution w] = 0%nat.
Proof. reflexivity. Qed.

Lemma color_loop_raised (g : globals) (guess : cstring) (fuel : nat) :
  forall (alphabet alphabet' : list CharInfo) (i : Z)
         (printed cs : list (ascii * GuessQuality)),
    color_loop fuel g guess alphabet i printed = Ok (alphabet', cs) ->
    raised alphabet alphabet'.
Proof.
  induction fuel as [|fuel IH]; intros alphabet alphabet' i printed cs H;
    cbn [color_loop] in H; [discriminate|].
  destruct (i <? LETTERS).
  - apply bind_ok in H as (q & _ & H).
    apply bind_ok in H as (gi & _ & H).
    apply bind_ok in H as (a1 & Ha1 & H).
    apply update_raises in Ha1 as (_ & Hr1).
    apply IH in H. exact (raised_trans _ _ _ Hr1 H).
  - injection H as <- _. apply raised_refl.
Qed.

Section Game.

Variable g : globals.

(** What one pass through the loop body does to the variables. *)
Lemma loop_body_effect (st st' : state) (line : option cstring)
      (c : control) (evs : list event) :
  loop_body g st line = Ok (c, st', evs) ->
  raised (st_alphabet st) (st_alphabet st')
  /\ ((c = Next /\ st_i st' = st_i st - 1 /\ st_y st' = st_y st
       /\ coloured evs = 0%nat)
      \/ (c = Next /\ st_i st' = st_i st /\ st_y st' = st_y st + 1
          /\ coloured evs = 1%nat)
      \/ (c = Return Won /\ st_i st' = st_i st /\ st_y st' = st_y st
          /\ coloured evs = 1%nat)
      \/ (c = Return EndOfInput /\ st_i st' = st_i st
          /\ st_y st' = st_y st /\ coloured evs = 0%nat)).
Proof.
  unfold loop_body. destruct line as [line|].
  - destruct (strlen line =? 0).
    { intros H. injection H as <- <- <-.
      split; [apply raised_refl | left; auto]. }
    destruct (negb (strlen (chomp line) =? LETTERS)).
    { intros H. injection H as <- <- <-.
      split; [apply raised_refl | left; auto]. }
    intros H. apply bind_ok in H as (v & _ & H).
    destruct (negb v).
    { injection H as <- <- <-. split; [apply raised_refl | left; auto]. }
    apply bind_ok in H as ([a' cs] & Hcol & H).
    apply color_loop_raised in Hcol.
    apply bind_ok in H as (ok & _ & H).
    destruct ok; injection H as <- <- <-; (split; [exact Hcol|]).
    + right. right. left. auto.
    + right. left. auto.
  - intros H. injection H as <- <- <-.
    split; [apply raised_refl|]. right. right. right. auto.
Qed.

Lemma main_loop_invariant (input : list (option cstring)) :
  forall (st st' : state) (out evs : list event) (s : status),
    main_loop g st input out = Ok (s, st', evs) ->
    0 <= st_i st <= GUESSES ->
    0 <= st_i st' <= GUESSES
    /\ st_y st' - st_i st' = st_y st - st_i st
    /\ raised (st_alphabet st) (st_alphabet st')
    /\ Z.of_nat (coloured evs)
       = Z.of_nat (coloured out) + (st_i st' - st_i st)
         + match s with Won => 1 | _ => 0 end
    /\ match s with
       | Playing k => k = st_i st' /\ k < GUESSES
       | Lost => st_i st' = GUESSES
       | Won | EndOfInput => st_i st' < GUESSES
       end.
Proof.
  induction input as [|line rest IH]; intros st st' out evs s H Hi.
  - destruct (Z.lt_ge_cases (st_i st) GUESSES) as [Hlt|Hge].
    + rewrite main_loop_wait in H by assumption. injection H as <- <- <-.
      rewrite coloured_app, coloured_alphabet.
      repeat split; try lia. apply raised_refl.
    + rewrite main_loop_over in H by assumption.
      apply bind_ok in H as (w & _ & H). injection H as <- <- <-.
      rewrite coloured_app, coloured_solution.
      repeat split; try lia. apply raised_refl.
  - destruct (Z.lt_ge_cases (st_i st) GUESSES) as [Hlt|Hge].
    + cbn [main_loop] in H.
      destruct (Z.ltb_spec (st_i st) GUESSES) as [_|Hge]; [|lia].
      apply bind_ok in H as ([[c st1] evs1] & Hbody & H).
      destruct (loop_body_effect _ _ _ _ _ Hbody) as (Hr & Hc).
      destruct Hc as [(-> & Hi1 & Hy1 & Hn)|[(-> & Hi1 & Hy1 & Hn)
                     |[(-> & Hi1 & Hy1 & Hn)|(-> & Hi1 & Hy1 & Hn)]]].
      * apply IH in H; [|simpl; lia].
        destruct H as (H1 & H2 & H3 & H4 & H5). simpl in H2, H3, H4.
        rewrite !coloured_app, Hn, coloured_alphabet in H4.
        repeat split; try lia; [|exact H5].
        exact (raised_trans _ _ _ Hr H3).
      * apply IH in H; [|simpl; lia].
        destruct H as (H1 & H2 & H3 & H4 & H5). simpl in H2, H3, H4.
        rewrite !coloured_app, Hn, coloured_alphabet in H4.
        repeat split; try lia; [|exact H5].
        exact (raised_trans _ _ _ Hr H3).
      * injection H as <- <- <-.
        rewrite !coloured_app, Hn, coloured_alphabet.
        repeat split; try lia. exact Hr.
      * injection H as <- <- <-.
        rewrite !coloured_app, Hn, coloured_alphabet.
        repeat split; try lia. exact Hr.
    + rewrite main_loop_over in H by assumption.
      apply bind_ok in H as (w & _ & H). injection H as <- <- <-.
      rewrite coloured_app, coloured_solution.
      repeat split; try lia. apply raised_refl.
Qed.

End Game.

(** X23. Whatever lines are typed, when [main] stops or waits without
    having faulted its counter [i] is between 0 and GUESSES, the cursor line [y] is [3 + i], every
    letter of the alphabet has the quality it started with or a higher
    one, and the number of coloured guesses is [i], plus the winning one:
    never more than six. *)
Theorem main_invariants (g : globals) (input : list (option cstring))
        (s : status) (st : state) (evs : list event) :
  main g input = Ok (s, st, evs) ->
  0 <= st_i st <= GUESSES
  /\ st_y st = 3 + st_i st
  /\ raised init_alphabet (st_alphabet st)
  /\ Z.of_nat (coloured evs)
     = st_i st + match s with Won => 1 | _ => 0 end
  /\ (coloured evs <= 6)%nat
  /\ match s with
     | Playing k => k = st_i st /\ k < GUESSES
     | Lost => st_i st = GUESSES
     | Won | EndOfInput => st_i st < GUESSES
     end.
Proof.
  intros H. apply main_loop_invariant in H; [|simpl; unfold GUESSES; lia].
  destruct H as (H1 & H2 & H3 & H4 & H5). simpl in H2, H3, H4.
  split; [exact H1|]. split; [lia|]. split; [exact H3|].
  split; [lia|]. split; [|exact H5].
  unfold GUESSES in *. destruct s; lia.
Qed.

Section Safety.

Variable g : globals.
Hypothesis g_ok : corpus_ok g.

Lemma words_ok : Forall (sv_ok (mem g)) (words g).
Proof.
  destruct g_ok as (Hwords & _).
  eapply Forall_impl; [|exact Hwords]. now intros w (Hok & _).
Qed.

Lemma loop_body_total (st : state) (line : option cstring) :
  length (st_alphabet st) = Z.to_nat ALPHABET_SZ ->
  exists c st' evs,
    loop_body g st line = Ok (c, st', evs)
    /\ length (st_alphabet st') = Z.to_nat ALPHABET_SZ.
Proof.
  intros Ha. unfold loop_body. destruct line as [line|]; [|eauto 6].
  destruct (strlen line =? 0); [eauto 6|].
  destruct (Z.eqb_spec (strlen (chomp line)) LETTERS) as [Hlen|Hlen];
    cbn [negb]; [|eauto 6].
  unfold valid.
  destruct (valid_loop_spec (mem g) (words g) (chomp line) words_ok)
    as (v & Hv & _).
  rewrite Hv. cbn [bind]. destruct v; cbn [negb]; [|eauto 6].
  pose proof (valid_letters g g_ok (chomp line) Hv) as Hletters.
  destruct (color_loop_total g g_ok (chomp line) (S (Z.to_nat LETTERS))
              Hlen Hletters (st_alphabet st) 0 [] Ha ltac:(lia))
    as (a' & cs & Hcol & Hlen' & _); [unfold LETTERS; simpl; lia|].
  unfold color_word_and_update_alphabet. rewrite Hcol. cbn [bind fst snd].
  unfold check_correct.
  destruct (sv_cstr_eq_spec (mem g) (solution g) (chomp line)
              (solution_view_ok g g_ok)) as (b & -> & _).
  cbn [bind]. destruct b; eauto 6.
Qed.

Lemma main_loop_total (input : list (option cstring)) :
  forall (st : state) (out : list event),
    length (st_alphabet st) = Z.to_nat ALPHABET_SZ ->
    exists s st' evs, main_loop g st input out = Ok (s, st', evs).
Proof.
  induction input as [|line rest IH]; intros st out Ha.
  - destruct (Z.lt_ge_cases (st_i st) GUESSES) as [Hlt|Hge].
    + rewrite main_loop_wait by assumption. eauto.
    + rewrite (reveal_solution g g_ok) by assumption. eauto.
  - destruct (Z.lt_ge_cases (st_i st) GUESSES) as [Hlt|Hge].
    + cbn [main_loop].
      destruct (Z.ltb_spec (st_i st) GUESSES) as [_|Hge]; [|lia].
      destruct (loop_body_total st line Ha) as (c & st1 & evs1 & -> & Ha1).
      cbn [bind]. destruct c as [s|]; [eauto|].
      apply IH. exact Ha1.
    + rewrite (reveal_solution g g_ok) by assumption. eauto.
Qed.

End Safety.

(** X22. With word lists of lower-case words and a five-letter solution,
    [main] handles every sequence of typed lines, whatever they contain,
    without a read or write out of bounds and without a failed assertion. *)
Theorem main_never_faults (g : globals) (input : list (option cstring)) :
  corpus_ok g ->
  exists s st evs, main g input = Ok (s, st, evs).
Proof.
  intros Hg. apply (main_loop_total g Hg input initial []). reflexivity.
Qed.

(** X24. A valid guess equal to the solution ends the game as won at any
    attempt: all its letters are coloured RightPlace, the counter and [y]
    are left as they were, the solution is not printed and no later line
    is read. *)
Theorem solution_guess_wins (g : globals) (st : state) (line : cstring)
        (rest : list (option cstring)) (out : list event) :
  corpus_ok g ->
  st_i st < GUESSES ->
  length (st_alphabet st) = 26%nat ->
  valid g line = Ok true ->
  line = view (mem g) (solution g) ->
  exists alphabet' cs,
    main_loop g st (Some line :: rest) out
    = Ok (Won,
          {| st_i := st_i st; st_alphabet := alphabet'; st_y := st_y st |},
          out ++ [EvAlphabet (st_alphabet st); EvGuess cs])
    /\ map fst cs = line
    /\ Forall (fun p => snd p = RightPlace) cs.
Proof.
  intros Hg Hi Ha Hvalid Hline.
  pose proof (solution_view_ok g Hg) as Hsol.
  pose proof (solution_length g Hg) as Hsl.
  assert (Hlen : strlen line = LETTERS).
  { unfold strlen. rewrite Hline, view_length by assumption.
    rewrite Hsl. reflexivity. }
  pose proof (valid_letters g Hg line Hvalid) as Hletters.
  destruct (color_word_facts g line (st_alphabet st) Hg Hlen
              Hletters Ha)
    as (a' & cs & Hcol & Hfst & Hpos & _).
  exists a', cs.
  assert (Hbody : loop_body g st (Some line)
                  = Ok (Return Won,
                        {| st_i := st_i st; st_alphabet := a';
                           st_y := st_y st |},
                        [EvGuess cs])).
  { unfold loop_body. rewrite Hlen.
    change (LETTERS =? 0) with false. cbv iota.
    rewrite (chomp_letters line Hletters), Hlen.
    change (negb (LETTERS =? LETTERS)) with false. cbv iota.
    rewrite Hvalid. cbn [bind negb]. rewrite Hcol. cbn [bind fst snd].
    unfold check_correct.
    destruct (sv_cstr_eq_spec (mem g) (solution g) line Hsol)
      as (b & -> & Hiff).
    cbn [bind]. destruct b; [reflexivity|].
    symmetry in Hline. apply Hiff in Hline. discriminate. }
  split; [|split; [exact Hfst|]].
  - cbn [main_loop].
    destruct (Z.ltb_spec (st_i st) GUESSES) as [_|Hge]; [|lia].
    rewrite Hbody. cbn [bind]. now rewrite <- app_assoc.
  - apply Forall_forall. intros [c q] Hin.
    apply In_nth_error in Hin as (k & Hk).
    assert (Hklt : (k < length cs)%nat)
      by (apply nth_error_Some; rewrite Hk; discriminate).
    assert (Hcl : length cs = Z.to_nat LETTERS).
    { rewrite <- (length_map fst cs), Hfst. unfold strlen in Hlen. lia. }
    destruct (Hpos (Z.of_nat k) ltac:(lia)) as (q' & info & Hq & Hcs & _).
    rewrite Nat2Z.id, Hk in Hcs. injection Hcs as _ ->.
    assert (Hright : qualify_guess g line (Z.of_nat k) = Ok RightPlace).
    { apply qualify_right_iff; auto; [lia|]. now rewrite <- Hline. }
    simpl. congruence.
Qed.

Ltac corpus_ok_by_computation :=
  unfold corpus_ok; simpl;
  repeat split;
  repeat (constructor; try (vm_compute; split; discriminate));
  try (vm_compute; discriminate); vm_compute; repeat split; discriminate.

Ltac letters_by_computation :=
  repeat constructor; vm_compute; discriminate.

Lemma win_iff_all_right_witness :
  check_correct crane_trace (list_ascii_of_string "crane") = Ok true
  <-> forall p, 0 <= p < LETTERS ->
                qualify_guess crane_trace (list_ascii_of_string "crane") p
                = Ok RightPlace.
Proof.
  apply (win_iff_all_right crane_trace (list_ascii_of_string "crane")).
  - unfold sv_ok. simpl. lia.
  - reflexivity.
  - reflexivity.
Defined.

(** X19. [valid] is true exactly when the word has the bytes of one of
    the views of [words]; the linear scan reads nothing outside them. *)
Theorem valid_membership (g : globals) (word : cstring) :
  Forall (sv_ok (mem g)) (words g) ->
  exists b,
    valid g word = Ok b
    /\ (b = true <-> In word (map (view (mem g)) (words g))).
Proof.
  intros Hwords. unfold valid.
  exact (valid_loop_spec (mem g) (words g) word Hwords).
Qed.

Lemma valid_membership_witness :
  exists b,
    valid crane_trace trace = Ok b
    /\ (b = true
        <-> In trace (map (view (mem crane_trace)) (words crane_trace))).
Proof.
  apply (valid_membership crane_trace trace).
  repeat constructor; vm_compute; discriminate.
Defined.

(** X21. Scoring a guess of five lower-case letters prints the five
    letters in order, each with the quality [qualify_guess] gives it;
    afterwards the alphabet shows for each letter of the guess a quality
    at least as high as the one it just received, and the entries of all
    other letters are untouched. *)
Theorem scored_guess_in_alphabet (g : globals) (guess : cstring)
        (alphabet : list CharInfo) :
  corpus_ok g -> strlen guess = LETTERS -> Forall is_letter guess ->
  length alphabet = 26%nat ->
  exists alphabet' cs,
    color_word_and_update_alphabet g guess alphabet = Ok (alphabet', cs)
    /\ map fst cs = guess
    /\ (forall j, 0 <= j < LETTERS ->
          exists q info,
            qualify_guess g guess j = Ok q
            /\ nth_error cs (Z.to_nat j) = Some (byte_at guess j, q)
            /\ nth_error alphabet' (letter_index (byte_at guess j))
               = Some info
            /\ (priority q <= priority (quality info))%nat)
    /\ (forall k,
          (forall j, 0 <= j < LETTERS ->
                     letter_index (byte_at guess j) <> k) ->
          nth_error alphabet' k = nth_error alphabet k).
Proof.
  intros Hg Hlen Hletters Ha.
  exact (color_word_facts g guess alphabet Hg Hlen Hletters Ha).
Qed.

Lemma scored_guess_in_alphabet_witness :
  exists alphabet' cs,
    color_word_and_update_alphabet crane_trace trace init_alphabet
    = Ok (alphabet', cs)
    /\ map fst cs = trace
    /\ (forall j, 0 <= j < LETTERS ->
          exists q info,
            qualify_guess crane_trace trace j = Ok q
            /\ nth_error cs (Z.to_nat j) = Some (byte_at trace j, q)
            /\ nth_error alphabet' (letter_index (byte_at trace j))
               = Some info
            /\ (priority q <= priority (quality info))%nat)
    /\ (forall k,
          (forall j, 0 <= j < LETTERS ->
                     letter_index (byte_at trace j) <> k) ->
          nth_error alphabet' k = nth_error init_alphabet k).
Proof.
  apply (scored_guess_in_alphabet crane_trace trace init_alphabet).
  - corpus_ok_by_computation.
  - reflexivity.
  - letters_by_computation.
  - reflexivity.
Defined.

Lemma main_never_faults_witness :
  exists s st evs,
    main crane_trace
         [Some (list_ascii_of_string "Crane"); Some trace; Some [];
          Some (list_ascii_of_string "trace!"); None] = Ok (s, st, evs).
Proof.
  apply (main_never_faults crane_trace).
  corpus_ok_by_computation.
Defined.

Lemma main_invariants_witness :
  exists s st evs,
    main crane_trace [Some trace; Some (list_ascii_of_string "crane")]
    = Ok (s, st, evs)
    /\ 0 <= st_i st <= GUESSES
    /\ st_y st = 3 + st_i st
    /\ raised init_alphabet (st_alphabet st)
    /\ Z.of_nat (coloured evs)
       = st_i st + match s with Won => 1 | _ => 0 end
    /\ (coloured evs <= 6)%nat
    /\ match s with
       | Playing k => k = st_i st /\ k < GUESSES
       | Lost => st_i st = GUESSES
       | Won | EndOfInput => st_i st < GUESSES
       end.
Proof.
  eexists. eexists. eexists. split; [reflexivity|].
  apply (main_invariants
           crane_trace [Some trace; Some (list_ascii_of_string "crane")]).
  reflexivity.
Defined.

Lemma solution_guess_wins_witness :
  exists alphabet' cs,
    main_loop crane_trace initial
              [Some (list_ascii_of_string "crane"); Some trace] []
    = Ok (Won,
          {| st_i := st_i initial; st_alphabet := alphabet';
             st_y := st_y initial |},
          [] ++ [EvAlphabet (st_alphabet initial); EvGuess cs])
    /\ map fst cs = list_ascii_of_string "crane"
    /\ Forall (fun p => snd p = RightPlace) cs.
Proof.
  apply (solution_guess_wins crane_trace initial
           (list_ascii_of_string "crane") [Some trace] []).
  - corpus_ok_by_computation.
  - reflexivity.
  - reflexivity.
  - reflexivity.
  - reflexivity.
Defined.

(** X25. When [words] is what [init_words] built from a word list of
    non-empty lines, each ended by one newline, [words.len] is the number
    of views in the array and [valid] accepts exactly the lines of the
    list. *)
Theorem accepted_guesses_are_lines (m : memory) (file buf : sv)
        (ws : list (list ascii)) (wa : WordArray) (g : globals)
        (word : cstring) :
  sv_ok m file -> len file <= SizeT.SIZE_MAX ->
  view m file = file_of_lines ws ->
  Forall line_ok ws ->
  init_words m file buf = Ok wa ->
  mem g = m -> map Some (words g) = array wa ->
  array_len wa = Z.of_nat (length (words g))
  /\ exists b, valid g word = Ok b /\ (b = true <-> In word ws).
Proof.
  intros Hok Hmax Hv Hws Hinit Hmem Hwords.
  destruct (init_words_fill m file buf ws Hok Hmax Hv Hws)
    as (toks & Hrun & Hviews & Hall).
  rewrite Hrun in Hinit. injection Hinit as <-. simpl in *.
  assert (Hsame : words g = toks).
  { clear - Hwords. revert toks Hwords.
    induction (words g) as [|w l IH]; intros [|t toks] H; simpl in H;
      try discriminate; [reflexivity|].
    injection H as -> H. f_equal. now apply IH. }
  split.
  - rewrite Hsame, <- Hviews, length_map. reflexivity.
  - subst m. rewrite <- Hsame in Hall, Hviews.
    destruct (valid_loop_spec (mem g) (words g) word Hall) as (b & Hb & Hiff).
    exists b. split; [exact Hb|]. now rewrite <- Hviews.
Qed.

Lemma accepted_guesses_are_lines_witness :
  array_len {| array := [Some {| len := 5; ptr := 0 |};
                         Some {| len := 5; ptr := 6 |}];
               array_len := 2 |}
  = Z.of_nat (length (words crane_trace))
  /\ exists b,
      valid crane_trace trace = Ok b
      /\ (b = true
          <-> In trace [list_ascii_of_string "crane";
                        list_ascii_of_string "trace"]).
Proof.
  apply (accepted_guesses_are_lines
           two_lines (whole two_lines) no_buf
           [list_ascii_of_string "crane"; list_ascii_of_string "trace"]
           {| array := [Some {| len := 5; ptr := 0 |};
                        Some {| len := 5; ptr := 6 |}];
              array_len := 2 |}
           crane_trace trace).
  - unfold sv_ok. simpl. lia.
  - vm_compute. discriminate.
  - reflexivity.
  - repeat constructor; try discriminate; now apply not_in_line.
  - reflexivity.
  - reflexivity.
  - reflexivity.
Defined.
